(** * memory-bank-MCP: search engine and consistency analyzer

    A shallow embedding of the text-processing core of the Memory Bank MCP
    server: [performAdvancedSearch], [calculateRelevanceScore] and
    [extractRelevantSnippet] (src/mcp/memoryBankMcp.ts) and
    [getDocumentWorkflow] and [analyzeDocumentConsistency] (the file manager).

    Conventions of the embedding.
    - A JavaScript string is the list of its code units.  The embedding covers
      the strings whose code units are below 256 (ASCII and Latin-1), one
      [ascii] per code unit; [toLowerCase], [trim] and the class [\s] are
      written out for that range.
    - A JavaScript number is an IEEE double.  The scorer only divides two
      small naturals, multiplies by 0.8 and adds 0.2.  The module [Search]
      computes that formula with the exact rationals [Q] (the literals 0.8,
      0.2, 0.3 and 1.0 are 8/10, 2/10, 3/10 and 1), which is what the
      statements on the formula, the order and the ties are about; the
      module [Binary64] computes it as the program does, in binary64, and
      the statement on the threshold is about that one.  The section on
      rounding shows where the two part: at the threshold, when the
      matching terms are one eighth of the terms.
    - A [Date] is its time value.  What the standard leaves to the engine
      (dates outside the standard format) and to the host (the local time
      zone) is a parameter of the functions that depend on it, as is the
      [RegExp] constructor for the patterns built at run time.
    - A [Record<string, string>] is the association list of its entries in
      the order [Object.entries] enumerates them.
    - Regular expressions are terms of the type [regex] below, run by a
      backtracking matcher with the priorities of the ECMAScript one. *)

From Stdlib Require Import Ascii String List ZArith QArith Lia Lqa Bool Arith.
From Stdlib Require Import Permutation PrimFloat Uint63.
Import ListNotations.
Close Scope Q_scope.
Set Warnings "-inexact-float".

Set Implicit Arguments.

(** ** The JavaScript runtime: strings *)

Module JS.

Definition str := list ascii.

Definition lit (s : string) : str := list_ascii_of_string s.

Definition code (c : ascii) : nat := nat_of_ascii c.

Definition nl : ascii := ascii_of_nat 10.
Definition tab : ascii := ascii_of_nat 9.
Definition sp : ascii := ascii_of_nat 32.

(** [WhiteSpace] and [LineTerminator] code units below 256: TAB, LF, VT, FF,
    CR, SP and NBSP.  This is the class [\s] and what [trim] removes. *)
Definition is_space (c : ascii) : bool :=
  let n := code c in
  ((9 <=? n) && (n <=? 13)) || (n =? 32) || (n =? 160).

Definition is_digit (c : ascii) : bool :=
  let n := code c in (48 <=? n) && (n <=? 57).

Definition is_upper (c : ascii) : bool :=
  let n := code c in
  ((65 <=? n) && (n <=? 90))
  || ((192 <=? n) && (n <=? 222) && negb (n =? 215)).

(** [\w] is [A-Za-z0-9_]. *)
Definition is_word (c : ascii) : bool :=
  let n := code c in
  ((65 <=? n) && (n <=? 90)) || ((97 <=? n) && (n <=? 122))
  || is_digit c || (n =? 95).

Definition lower_char (c : ascii) : ascii :=
  if is_upper c then ascii_of_nat (code c + 32) else c.

Definition toLowerCase (s : str) : str := map lower_char s.

Definition eqc (a b : ascii) : bool := Ascii.eqb a b.

Fixpoint startsWith (s p : str) : bool :=
  match p, s with
  | [], _ => true
  | _ :: _, [] => false
  | b :: p', a :: s' => eqc a b && startsWith s' p'
  end.

(** [s.includes(sub)] *)
Fixpoint includes (s sub : str) : bool :=
  startsWith s sub ||
  match s with
  | [] => false
  | _ :: s' => includes s' sub
  end.

(** [s.substring(a, b)] for [a <= b] (the callers below never swap). *)
Definition substring (s : str) (a b : nat) : str :=
  firstn (b - a) (skipn a s).

Fixpoint trimStart (s : str) : str :=
  match s with
  | c :: s' => if is_space c then trimStart s' else s
  | [] => []
  end.

Definition trimEnd (s : str) : str := rev (trimStart (rev s)).

Definition trim (s : str) : str := trimEnd (trimStart s).

(** [a.join(sep)] *)
Fixpoint join (sep : str) (l : list str) : str :=
  match l with
  | [] => []
  | [x] => x
  | x :: l' => x ++ sep ++ join sep l'
  end.

(** [s[i]]: [None] stands for [undefined]. *)
Definition charAt (s : str) (i : nat) : option ascii := nth_error s i.

(** ** Regular expressions

    The constructs the program's patterns use.  [Star true r] is [r*],
    [Star false r] is [r*?]; [Plus] is only applied to single-character
    classes.  A pattern has at most one capturing group. *)

Inductive regex : Type :=
| Eps
| Chr (p : ascii -> bool)
| Cat (r1 r2 : regex)
| Alt (r1 r2 : regex)
| Star (greedy : bool) (r : regex)
| Grp (r : regex)
| Ahead (r : regex)
| Bol
| Eol.

Definition Plus (r : regex) : regex := Cat r (Star true r).
Definition Opt (r : regex) : regex := Alt r Eps.

Fixpoint Lit (s : str) : regex :=
  match s with
  | [] => Eps
  | c :: s' => Cat (Chr (eqc c)) (Lit s')
  end.

(** A literal under the [i] flag. *)
Fixpoint LitCI (s : str) : regex :=
  match s with
  | [] => Eps
  | c :: s' => Cat (Chr (fun a => eqc (lower_char a) (lower_char c))) (LitCI s')
  end.

Fixpoint Times (n : nat) (r : regex) : regex :=
  match n with
  | O => Eps
  | S n' => Cat r (Times n' r)
  end.

(** A matcher state: the index reached in the input, the input from there
    on, and the text of the capturing group. *)
Record mstate : Type := MState {
  pos : nat;
  rest : str;
  cap : option str
}.

Definition cont := mstate -> option mstate.

Definition orElse (a : option mstate) (b : option mstate) : option mstate :=
  match a with
  | Some x => Some x
  | None => b
  end.

(** The loop of [r*] and [r*?]: [step] runs [r] once.  An iteration that
    consumes nothing is rejected, so at most [length (rest x)] iterations
    succeed, and the fuel never runs out before the input does. *)
Fixpoint starLoop (step : mstate -> cont -> option mstate) (greedy : bool)
    (k : cont) (fuel : nat) (x : mstate) {struct fuel} : option mstate :=
  match fuel with
  | O => k x
  | S fuel' =>
      let again :=
        step x (fun y => if pos y =? pos x then None
                         else starLoop step greedy k fuel' y) in
      if greedy then orElse again (k x) else orElse (k x) again
  end.

Fixpoint rmatch (r : regex) (x : mstate) (k : cont) : option mstate :=
  match r with
  | Eps => k x
  | Chr p =>
      match rest x with
      | c :: s' => if p c then k (MState (S (pos x)) s' (cap x)) else None
      | [] => None
      end
  | Cat r1 r2 => rmatch r1 x (fun y => rmatch r2 y k)
  | Alt r1 r2 => orElse (rmatch r1 x k) (rmatch r2 x k)
  | Star greedy r1 => starLoop (rmatch r1) greedy k (length (rest x)) x
  | Grp r1 =>
      rmatch r1 x
        (fun y => k (MState (pos y) (rest y)
                       (Some (firstn (pos y - pos x) (rest x)))))
  | Ahead r1 =>
      match rmatch r1 x (fun y => Some y) with
      | Some y => k (MState (pos x) (rest x) (cap y))
      | None => None
      end
  | Bol => if pos x =? 0 then k x else None
  | Eol => match rest x with [] => k x | _ :: _ => None end
  end.

(** The result of a successful [exec]: where the match starts, its text and
    the text of the group. *)
Record rmatch_result : Type := MatchResult {
  m_index : nat;
  m_text : str;
  m_group : option str
}.

(** One attempt at the current position (a sticky match). *)
Definition matchAt (r : regex) (i : nat) (s : str) : option rmatch_result :=
  match rmatch r (MState i s None) (fun y => Some y) with
  | Some y => Some (MatchResult i (firstn (pos y - i) s) (cap y))
  | None => None
  end.

(** [r.exec(s)] without the [g] flag: the leftmost match. *)
Fixpoint execFrom (r : regex) (i : nat) (s : str) : option rmatch_result :=
  match matchAt r i s with
  | Some m => Some m
  | None =>
      match s with
      | [] => None
      | _ :: s' => execFrom r (S i) s'
      end
  end.

Definition exec (r : regex) (s : str) : option rmatch_result := execFrom r 0 s.

Definition test (r : regex) (s : str) : bool :=
  match exec r s with
  | Some _ => true
  | None => false
  end.

(** [s.split(r)] for a pattern that matches no empty string: [skip] counts
    the code units of the current separator still to be dropped, [acc] is
    the piece being read, reversed. *)
Fixpoint splitFrom (r : regex) (i skip : nat) (acc : str) (s : str)
  : list str :=
  match s with
  | [] => [rev acc]
  | c :: s' =>
      match skip with
      | S skip' => splitFrom r (S i) skip' acc s'
      | O =>
          match matchAt r i s with
          | Some m =>
              rev acc :: splitFrom r (S i) (length (m_text m) - 1) [] s'
          | None => splitFrom r (S i) 0 (c :: acc) s'
          end
      end
  end.

Definition split (r : regex) (s : str) : list str := splitFrom r 0 0 [] s.

(** [a.filter(Boolean)] on strings: the empty string is the falsy one. *)
Definition nonEmpty (s : str) : bool :=
  match s with
  | [] => false
  | _ :: _ => true
  end.

End JS.

Import JS.

(** ** Numbers and arrays *)

Definition Qltb (a b : Q) : bool := negb (Qle_bool b a).

Section ArraySort.
Variable A : Type.
(** The comparator of [Array.prototype.sort]: negative when the first
    argument goes first, positive when the second does. *)
Variable cmp : A -> A -> Q.

Fixpoint sortInsert (x : A) (l : list A) : list A :=
  match l with
  | [] => [x]
  | y :: l' => if Qltb 0%Q (cmp x y) then y :: sortInsert x l' else x :: l
  end.

(** [a.sort(cmp)].  The sort of ECMAScript 2019 is stable, and for a
    comparator that is a weak order the sorted array is then unique; it is
    computed here by insertion from the right. *)
Fixpoint Array_sort (l : list A) : list A :=
  match l with
  | [] => []
  | x :: l' => sortInsert x (Array_sort l')
  end.
End ArraySort.

(** [a.slice(0, n)] *)
Definition slice0 (A : Type) (n : nat) (l : list A) : list A := firstn n l.

(** ** src/mcp/memoryBankMcp.ts: the search engine *)

Module Search.

Record SearchResult : Type := mkSearchResult {
  documentType : str;
  relevanceScore : Q;
  snippet : str
}.

(** [/\s+/] *)
Definition re_spaces : regex := Plus (Chr is_space).

(** [/\n#{2,3}\s+/] *)
Definition re_heading : regex :=
  Cat (Chr (eqc nl))
    (Cat (Cat (Chr (eqc "#")) (Cat (Chr (eqc "#")) (Opt (Chr (eqc "#")))))
       (Plus (Chr is_space))).

(** [/^([^\n]+)/] *)
Definition re_first_line : regex :=
  Cat Bol (Grp (Plus (Chr (fun c => negb (eqc c nl))))).

(** [/\n\n+/] *)
Definition re_blank : regex := Cat (Chr (eqc nl)) (Plus (Chr (eqc nl))).

(** The loop [for (const term of queryTerms) if (... includes(term)) n++]. *)
Definition countMatches (hay : str) (queryTerms : list str) : nat :=
  fold_left (fun n term => if includes hay term then S n else n) queryTerms 0.

Definition nat2Q (n : nat) : Q := inject_Z (Z.of_nat n).

Definition calculateRelevanceScore (query : str) (queryTerms : list str)
    (text : str) : Q :=
  let lowerText := toLowerCase text in
  if includes lowerText (toLowerCase query) then 1%Q
  else
    let matchCount := countMatches lowerText queryTerms in
    let termMatchRatio :=
      if 0 <? length queryTerms
      then (nat2Q matchCount / nat2Q (length queryTerms))%Q
      else 0%Q in
    let proximityFactor := if 2 <=? matchCount then (2 # 10)%Q else 0%Q in
    (termMatchRatio * (8 # 10) + proximityFactor)%Q.

Definition MAX_SNIPPET_LENGTH : nat := 150.

(** One turn of the scan [for (let i = 0; i < lowerText.length; i++)]: the
    state is [(bestPosition, bestTermCount)]. *)
Definition scanStep (lowerText : str) (queryTerms : list str)
    (best : nat * nat) (i : nat) : nat * nat :=
  let termCount := countMatches (substring lowerText i (i + 100)) queryTerms in
  if snd best <? termCount then (i, termCount) else best.

Definition bestMatch (lowerText : str) (queryTerms : list str) : nat * nat :=
  fold_left (scanStep lowerText queryTerms) (seq 0 (length lowerText)) (0, 0).

(** [text[i] !== ' ' && text[i] !== '\n'] is the negation of this; out of
    bounds [text[i]] is [undefined], which is neither. *)
Definition isBoundaryAt (text : str) (i : nat) : bool :=
  match charAt text i with
  | Some c => eqc c sp || eqc c nl
  | None => false
  end.

(** [while (startPos > 0 && text[startPos] !== ' ' && ...) startPos--] *)
Fixpoint adjustStart (text : str) (startPos : nat) : nat :=
  match startPos with
  | O => O
  | S p => if isBoundaryAt text startPos then startPos else adjustStart text p
  end.

(** [while (endPos < text.length && text[endPos] !== ' ' && ...) endPos++];
    the loop runs at most [text.length - endPos] times. *)
Fixpoint adjustEndLoop (turns : nat) (text : str) (endPos : nat) : nat :=
  match turns with
  | O => endPos
  | S turns' =>
      if (endPos <? length text) && negb (isBoundaryAt text endPos)
      then adjustEndLoop turns' text (S endPos)
      else endPos
  end.

Definition adjustEnd (text : str) (endPos : nat) : nat :=
  adjustEndLoop (length text - endPos) text endPos.

(** The window [(startPos, endPos)] after the adjustment to word
    boundaries. *)
Definition snippetWindow (text : str) (queryTerms : list str) : nat * nat :=
  let lowerText := toLowerCase text in
  let bestPosition := fst (bestMatch lowerText queryTerms) in
  let startPos := Nat.max 0 (bestPosition - 30) in
  let endPos := Nat.min (length text) (bestPosition + MAX_SNIPPET_LENGTH - 30) in
  (adjustStart text startPos, adjustEnd text endPos).

Definition extractRelevantSnippet (text : str) (queryTerms : list str)
    (sectionTitle : str) : str :=
  let (startPos, endPos) := snippetWindow text queryTerms in
  let snippet := trim (substring text startPos endPos) in
  let snippet := if 0 <? startPos then lit "..." ++ snippet else snippet in
  let snippet := if endPos <? length text then snippet ++ lit "..." else snippet in
  if nonEmpty sectionTitle
  then lit "**" ++ sectionTitle ++ lit "**: " ++ snippet
  else snippet.

Definition queryTermsOf (query : str) : list str :=
  filter (fun term => 2 <? length term) (split re_spaces (toLowerCase query)).

(** The body of [for (const paragraph of paragraphs)]: [results] is the
    array the loops push to. *)
Definition searchParagraph (query : str) (queryTerms : list str)
    (docType title : str) (results : list SearchResult) (paragraph : str)
  : list SearchResult :=
  let relevanceScore := calculateRelevanceScore query queryTerms paragraph in
  if Qltb (3 # 10)%Q relevanceScore
  then
    let snippet := extractRelevantSnippet paragraph queryTerms title in
    results ++ [mkSearchResult docType relevanceScore snippet]
  else results.

Definition sectionTitle (section : str) : str :=
  match exec re_first_line section with
  | Some titleMatch =>
      match m_group titleMatch with
      | Some g => trim g
      | None => []
      end
  | None => []
  end.

Definition sectionParagraphs (section : str) : list str :=
  split re_blank section.

(** The body of [for (const section of sections)]. *)
Definition searchSection (query : str) (queryTerms : list str) (docType : str)
    (results : list SearchResult) (section : str) : list SearchResult :=
  let title := sectionTitle section in
  let paragraphs := sectionParagraphs section in
  fold_left (searchParagraph query queryTerms docType title) paragraphs results.

Definition documentSections (content : str) : list str :=
  filter nonEmpty (split re_heading content).

(** The body of [for (const [docType, content] of Object.entries(documents))]. *)
Definition searchDocument (query : str) (queryTerms : list str)
    (results : list SearchResult) (entry : str * str) : list SearchResult :=
  let (docType, content) := entry in
  let sections := documentSections content in
  fold_left (searchSection query queryTerms docType) sections results.

(** The array [results] when the loops are over. *)
Definition collectResults (query : str) (documents : list (str * str))
  : list SearchResult :=
  let queryTerms := queryTermsOf query in
  fold_left (searchDocument query queryTerms) documents [].

Definition byRelevance (a b : SearchResult) : Q :=
  (relevanceScore b - relevanceScore a)%Q.

Definition performAdvancedSearch (query : str) (documents : list (str * str))
  : list SearchResult :=
  slice0 5 (Array_sort byRelevance (collectResults query documents)).

End Search.

Import Search.

(** ** src/mcp/memoryBankMcp.ts: the search engine, in binary64

    The numbers of the program are IEEE 754 doubles.  These are the
    functions of the search engine that compute with a score, with the
    arithmetic of the program: [0.8], [0.2] and [0.3] are the nearest
    doubles and every operation rounds.  The functions that do not touch a
    score are the ones above. *)

(** The number of a length or a count; an array holds fewer than 2^32
    elements. *)
Definition nat2F (n : nat) : float :=
  PrimFloat.of_uint63 (Uint63.of_Z (Z.of_nat n)).

(** The sign of a number, which is all that [Array.prototype.sort] reads of
    the result of its comparator; NaN counts as zero. *)
Definition signOf (x : float) : Q :=
  if PrimFloat.ltb 0%float x then 1%Q
  else if PrimFloat.ltb x 0%float then (- (1))%Q
  else 0%Q.

Module Binary64.

Record SearchResult : Type := mkSearchResult {
  documentType : str;
  relevanceScore : float;
  snippet : str
}.

Definition calculateRelevanceScore (query : str) (queryTerms : list str)
    (text : str) : float :=
  let lowerText := toLowerCase text in
  if includes lowerText (toLowerCase query) then 1%float
  else
    let matchCount := countMatches lowerText queryTerms in
    let termMatchRatio :=
      if 0 <? length queryTerms
      then (nat2F matchCount / nat2F (length queryTerms))%float
      else 0%float in
    let proximityFactor := if 2 <=? matchCount then 0.2%float else 0%float in
    (termMatchRatio * 0.8 + proximityFactor)%float.

(** The body of [for (const paragraph of paragraphs)]. *)
Definition searchParagraph (query : str) (queryTerms : list str)
    (docType title : str) (results : list SearchResult) (paragraph : str)
  : list SearchResult :=
  let relevanceScore := calculateRelevanceScore query queryTerms paragraph in
  if PrimFloat.ltb 0.3%float relevanceScore
  then
    let snippet := extractRelevantSnippet paragraph queryTerms title in
    results ++ [mkSearchResult docType relevanceScore snippet]
  else results.

(** The body of [for (const section of sections)]. *)
Definition searchSection (query : str) (queryTerms : list str) (docType : str)
    (results : list SearchResult) (section : str) : list SearchResult :=
  let title := sectionTitle section in
  let paragraphs := sectionParagraphs section in
  fold_left (searchParagraph query queryTerms docType title) paragraphs results.

(** The body of [for (const [docType, content] of Object.entries(documents))]. *)
Definition searchDocument (query : str) (queryTerms : list str)
    (results : list SearchResult) (entry : str * str) : list SearchResult :=
  let (docType, content) := entry in
  let sections := documentSections content in
  fold_left (searchSection query queryTerms docType) sections results.

(** The array [results] when the loops are over. *)
Definition collectResults (query : str) (documents : list (str * str))
  : list SearchResult :=
  let queryTerms := queryTermsOf query in
  fold_left (searchDocument query queryTerms) documents [].

Definition byRelevance (a b : SearchResult) : Q :=
  signOf (relevanceScore b - relevanceScore a)%float.

Definition performAdvancedSearch (query : str) (documents : list (str * str))
  : list SearchResult :=
  slice0 5 (Array_sort byRelevance (collectResults query documents)).

End Binary64.

(** ** The JavaScript runtime: replace, Date *)

Module JSLib.

(** [s.replace(r, f)] without the [g] flag: the leftmost match is replaced. *)
Definition replaceFirst (r : regex) (f : rmatch_result -> str) (s : str) : str :=
  match exec r s with
  | Some m =>
      firstn (m_index m) s ++ f m ++ skipn (m_index m + length (m_text m)) s
  | None => s
  end.

(** [s.replace(/lit/g, by)] for a non-empty literal; [skip] as in
    [splitFrom]. *)
Fixpoint replaceAllFrom (l by_ : str) (skip : nat) (s : str) : str :=
  match s with
  | [] => []
  | c :: s' =>
      match skip with
      | S skip' => replaceAllFrom l by_ skip' s'
      | O =>
          if startsWith s l
          then by_ ++ replaceAllFrom l by_ (length l - 1) s'
          else c :: replaceAllFrom l by_ 0 s'
      end
  end.

Definition replaceAll (l by_ : str) (s : str) : str := replaceAllFrom l by_ 0 s.

(** [a.includes(x)] on an array of strings. *)
Definition arrayIncludes (a : list str) (x : str) : bool :=
  existsb (fun y => if list_eq_dec ascii_dec x y then true else false) a.

(** A [Date] is its time value, milliseconds since the epoch; [None] is the
    time value NaN of an Invalid Date. *)
Definition Date := option Z.

Definition msPerDay : Z := 86400000.

Definition isLeap (y : Z) : bool :=
  ((y mod 4 =? 0) && negb (y mod 100 =? 0) || (y mod 400 =? 0))%Z.

(** [DayFromYear] of ECMA-262. *)
Definition DayFromYear (y : Z) : Z :=
  (365 * (y - 1970) + (y - 1969) / 4 - (y - 1901) / 100 + (y - 1601) / 400)%Z.

Definition daysBeforeMonth (y m : Z) : Z :=
  (nth (Z.to_nat (m - 1)) [0; 31; 59; 90; 120; 151; 181; 212; 243; 273; 304; 334] 0
   + (if isLeap y && (2 <? m) then 1 else 0))%Z.

Fixpoint digitsValue (acc : Z) (s : str) : Z :=
  match s with
  | [] => acc
  | c :: s' => digitsValue (10 * acc + Z.of_nat (code c - 48))%Z s'
  end.

Definition daysInMonth (y m : Z) : Z :=
  (nth (Z.to_nat (m - 1)) [31; 28; 31; 30; 31; 30; 31; 31; 30; 31; 30; 31] 0
   + (if isLeap y && (m =? 2) then 1 else 0))%Z.

(** Whether a text of the shape [dddd-dd-dd] names a day of the calendar:
    a month 01..12 and a day from 01 to the length of that month. *)
Definition isCalendarDate (s : str) : bool :=
  let y := digitsValue 0 (firstn 4 s) in
  let m := digitsValue 0 (firstn 2 (skipn 5 s)) in
  let d := digitsValue 0 (firstn 2 (skipn 8 s)) in
  ((1 <=? m) && (m <=? 12) && (1 <=? d) && (d <=? daysInMonth y m))%Z.

(** [new Date(s)] for a string [s] of the shape [dddd-dd-dd], the only one
    the analyzer passes.  A day of the calendar is the date-only form of
    the Date Time String Format of ECMA-262 and is read as midnight UTC.
    For any other text the standard leaves the result to the engine:
    [Date_fallback] is what the parser of the engine makes of it (V8 gives
    an Invalid Date for most such texts and a date of its own reading for
    some). *)
Definition Date_parse (Date_fallback : str -> Date) (s : str) : Date :=
  let y := digitsValue 0 (firstn 4 s) in
  let m := digitsValue 0 (firstn 2 (skipn 5 s)) in
  let d := digitsValue 0 (firstn 2 (skipn 8 s)) in
  if isCalendarDate s
  then Some ((DayFromYear y + daysBeforeMonth y m + (d - 1)) * msPerDay)%Z
  else Date_fallback s.

(** [LocalTime] and [UTC] of ECMA-262: [LocalTZA t isUTC] is the offset of
    the local time zone in milliseconds, at the instant [t] when [isUTC] is
    set and at the local time [t] otherwise; it is a matter of the host. *)
Definition LocalTime (LocalTZA : Z -> bool -> Z) (t : Z) : Z :=
  (t + LocalTZA t true)%Z.

Definition UTC (LocalTZA : Z -> bool -> Z) (t : Z) : Z :=
  (t - LocalTZA t false)%Z.

(** [d.setDate(d.getDate() - n)]: with [t] the local time of [d],
    [MakeDay(YearFromTime(t), MonthFromTime(t), DateFromTime(t) - n)] is
    [Day(t) - n], so the new local time is [t - n * msPerDay], the same time
    of day [n] days of the local calendar earlier; the time value is its
    [UTC]. *)
Definition Date_minusDays (LocalTZA : Z -> bool -> Z) (d : Date) (n : Z)
  : Date :=
  match d with
  | Some t => Some (UTC LocalTZA (LocalTime LocalTZA t - n * msPerDay))%Z
  | None => None
  end.

(** [a < b] on two dates: the time values are compared as numbers, and a
    comparison with NaN is false. *)
Definition Date_lt (a b : Date) : bool :=
  match a, b with
  | Some x, Some y => (x <? y)%Z
  | _, _ => false
  end.

End JSLib.

Import JSLib.

(** ** The file manager: workflows and the consistency analysis *)

Module FileManager.

Inductive result (A : Type) : Type :=
| Ok (a : A)
| Thrown.
Arguments Thrown {A}.

Definition bind (A B : Type) (m : result A) (f : A -> result B) : result B :=
  match m with
  | Ok a => f a
  | Thrown => Thrown
  end.

Notation "x <- m ;; f" := (bind m (fun x => f))
  (at level 61, m at next level, right associativity).

Record Workflow : Type := mkWorkflow {
  purpose : str;
  updateTiming : str;
  structure : list str;
  commands : list str
}.

Inductive Status : Type := good | needs_update.

Record Analysis : Type := mkAnalysis {
  a_documentType : str;
  a_status : Status;
  a_recommendation : str
}.

(** What the functions read from the directory: the text of [.byterules]
    ([None] when [readByteRules] throws) and the entries [readAllDocuments]
    returns ([None] when it throws). *)
Record Directory : Type := mkDirectory {
  byterules : option str;
  markdown : option (list (str * str))
}.

Definition ws : regex := Chr is_space.
Definition any : regex := Chr (fun _ => true).
(** [.] matches everything but the line terminators LF and CR. *)
Definition dot : regex := Chr (fun c => negb (eqc c nl) && negb (code c =? 13)).
Definition digit : regex := Chr is_digit.
Definition chr (c : ascii) : regex := Chr (eqc c).

(** [/\*\*Purpose\*\*:\s*(.*?)(?=\n)/] and
    [/\*\*When to Update\*\*:\s*(.*?)(?=\n)/] *)
Definition re_line_field (label : string) : regex :=
  Cat (Lit (lit label))
    (Cat (Star true ws) (Cat (Grp (Star false dot)) (Ahead (chr nl)))).

(** [/\*\*Structure\*\*:[\s\S]*?(?=\*\*|$)/] and
    [/\*\*Commands\*\*:[\s\S]*?(?=\*\*|$)/] *)
Definition re_block_field (label : string) : regex :=
  Cat (Lit (lit label))
    (Cat (Star false any) (Ahead (Alt (Lit (lit "**")) Eol))).

(** [/\*\*Structure\*\*:\s*/] and [/\*\*Commands\*\*:\s*/] *)
Definition re_block_label (label : string) : regex :=
  Cat (Lit (lit label)) (Star true ws).

(** [/^\s*-\s*/] *)
Definition re_bullet : regex :=
  Cat Bol (Cat (Star true ws) (Cat (chr "-") (Star true ws))).

(** [/^\s*-\s*`(.*?)`.*/] *)
Definition re_command : regex :=
  Cat Bol
    (Cat (Star true ws)
       (Cat (chr "-")
          (Cat (Star true ws)
             (Cat (chr "`")
                (Cat (Grp (Star false dot)) (Cat (chr "`") (Star true dot))))))).

(** [(\d{4}-\d{2}-\d{2})] *)
Definition re_iso_date : regex :=
  Grp (Cat (Times 4 digit)
         (Cat (chr "-") (Cat (Times 2 digit) (Cat (chr "-") (Times 2 digit))))).

(** [/Last Updated:\s*(\d{4}-\d{2}-\d{2})/] *)
Definition re_last_updated : regex :=
  Cat (Lit (lit "Last Updated:")) (Cat (Star true ws) re_iso_date).

Definition group1 (m : rmatch_result) : str :=
  match m_group m with
  | Some g => g
  | None => []
  end.

Definition splitLines (s : str) : list str := split (Lit [nl]) s.

Definition standardDocuments : list str :=
  [lit "projectbrief"; lit "productContext"; lit "systemPatterns";
   lit "techContext"; lit "activeContext"; lit "progress"].

Section Runtime.

(** [new RegExp(source, 'i')]: [None] when the constructor throws a
    SyntaxError, otherwise the [exec] of the compiled pattern. *)
Variable RegExp_i : str -> option (str -> option rmatch_result).

(** The parser of the engine for dates outside the standard format, and the
    local time zone of the host. *)
Variable Date_fallback : str -> Date.
Variable LocalTZA : Z -> bool -> Z.

(** The source text handed to [new RegExp] for a document type. *)
Definition sectionPattern (documentType : str) : str :=
  lit "###\s*\d+\.\s*"
  ++ replaceAll (lit "Context") (lit " Context") documentType
  ++ lit "\s*\([\w\.]+\)[\s\S]*?(?=###\s*\d+\.\s*|##\s*|$)".

Definition fallbackWorkflow (documentType : str) : Workflow :=
  mkWorkflow
    (lit "Information about " ++ documentType ++ lit " document")
    (lit "As needed")
    [lit "No specific structure defined"]
    [lit "update_document " ++ toLowerCase documentType].

(** The part of [getDocumentWorkflow] after a successful match:
    [sectionContent] is [match[0]]. *)
Definition parseWorkflow (documentType sectionContent : str) : Workflow :=
  let purposeMatch := exec (re_line_field "**Purpose**:") sectionContent in
  let purpose :=
    match purposeMatch with
    | Some m => trim (group1 m)
    | None => lit "Information about " ++ documentType
    end in
  let updateMatch := exec (re_line_field "**When to Update**:") sectionContent in
  let updateTiming :=
    match updateMatch with
    | Some m => trim (group1 m)
    | None => lit "As needed"
    end in
  let structureMatch := exec (re_block_field "**Structure**:") sectionContent in
  let structure :=
    match structureMatch with
    | Some m =>
        filter (fun line => 0 <? length line)
          (map (fun line => trim (replaceFirst re_bullet (fun _ => []) line))
             (splitLines
                (trim (replaceFirst (re_block_label "**Structure**:")
                         (fun _ => []) (m_text m)))))
    | None => [lit "No specific structure defined"]
    end in
  let commandsMatch := exec (re_block_field "**Commands**:") sectionContent in
  let commands :=
    match commandsMatch with
    | Some m =>
        filter (fun line => 0 <? length line)
          (map (fun line => trim (replaceFirst re_command group1 line))
             (splitLines
                (trim (replaceFirst (re_block_label "**Commands**:")
                         (fun _ => []) (m_text m)))))
    | None => [lit "update_document " ++ toLowerCase documentType]
    end in
  mkWorkflow purpose updateTiming structure commands.

(** [getDocumentWorkflow]: every exception of the [try] block ends in the
    [catch] block, which returns the fallback. *)
Definition getDocumentWorkflow (directory : Directory) (documentType : str)
  : Workflow :=
  match byterules directory with
  | None => fallbackWorkflow documentType
  | Some byteRulesContent =>
      match RegExp_i (sectionPattern documentType) with
      | None => fallbackWorkflow documentType
      | Some regex =>
          match regex byteRulesContent with
          | None => fallbackWorkflow documentType
          | Some m => parseWorkflow documentType (m_text m)
          end
      end
  end.

(** The loop over [workflow.structure]: [missingSections] is the array
    pushed to; [new RegExp] may throw. *)
Definition checkSection (content : str) (acc : result (list str))
    (section : str) : result (list str) :=
  missingSections <- acc ;;
  match RegExp_i (lit "##\s*" ++ section) with
  | None => Thrown
  | Some sectionRegex =>
      match sectionRegex content with
      | Some _ => Ok missingSections
      | None => Ok (missingSections ++ [section])
      end
  end.

Definition findMissingSections (structure : list str) (content : str)
  : result (list str) :=
  fold_left (checkSection content) structure (Ok []).

(** [needsUpdate], from the text of the document and the clock. *)
Definition checkNeedsUpdate (now : Z) (content : str) : bool :=
  match exec re_last_updated content with
  | Some lastUpdatedMatch =>
      let lastUpdated := Date_parse Date_fallback (group1 lastUpdatedMatch) in
      let thirtyDaysAgo := Date_minusDays LocalTZA (Some now) 30 in
      Date_lt lastUpdated thirtyDaysAgo
  | None => true
  end.

Definition verdict (docName : str) (missingSections : list str)
    (needsUpdate : bool) : Analysis :=
  if 0 <? length missingSections
  then mkAnalysis docName needs_update
         (lit "Missing sections: " ++ join (lit ", ") missingSections)
  else if needsUpdate
  then mkAnalysis docName needs_update
         (lit "Document may need updating (last update over 30 days ago)")
  else mkAnalysis docName good
         (lit "Document follows the structure defined in ByteRules").

(** The body of [for (const [docName, content] of Object.entries(documents))]. *)
Definition analyzeDocument (directory : Directory) (now : Z)
    (acc : result (list Analysis)) (entry : str * str)
  : result (list Analysis) :=
  results <- acc ;;
  let (docName, content) := entry in
  if negb (arrayIncludes standardDocuments docName) then Ok results
  else
    let workflow := getDocumentWorkflow directory docName in
    missingSections <- findMissingSections (structure workflow) content ;;
    let needsUpdate := checkNeedsUpdate now content in
    Ok (results ++ [verdict docName missingSections needsUpdate]).

Definition analyzeDocumentConsistency (directory : Directory) (now : Z)
  : result (list Analysis) :=
  match markdown directory with
  | None => Thrown
  | Some documents => fold_left (analyzeDocument directory now) documents (Ok [])
  end.

End Runtime.

End FileManager.

Import FileManager.

(** ** The file manager: document templates *)

Module Template.

(** [[A-Z]] *)
Definition is_AZ (c : ascii) : bool :=
  let n := code c in (65 <=? n) && (n <=? 90).

(** [documentType.replace(/([A-Z])/g, ' $1').trim()] *)
Definition spacedTitle (documentType : str) : str :=
  trim (flat_map (fun c => if is_AZ c then [sp; c] else [c]) documentType).

(** The body of [for (const section of workflow.structure)]. *)
Definition addSection (template section : str) : str :=
  template ++ lit "## " ++ section ++ [nl; nl] ++ lit "_Add content here_"
  ++ [nl; nl].

(** The [try] block of [createDocumentTemplate], from the workflow on:
    [today] is [new Date().toISOString().split('T')[0]], the date of the
    clock. *)
Definition buildTemplate (workflow : Workflow) (today documentType : str)
  : str :=
  let template := lit "# " ++ spacedTitle documentType ++ [nl; nl] in
  let template := template ++ lit "> " ++ purpose workflow ++ [nl; nl] in
  let template := template ++ lit "> Last Updated: " ++ today ++ [nl; nl] in
  let template := fold_left addSection (structure workflow) template in
  template ++ lit "---" ++ [nl; nl]
  ++ lit "**Note:** This document should be updated "
  ++ toLowerCase (updateTiming workflow) ++ lit "." ++ [nl].

(** [createDocumentTemplate]: [getDocumentWorkflow] never throws and the
    rest of the [try] block builds a string, so the [catch] block is never
    entered. *)
Definition createDocumentTemplate
    (RegExp_i : str -> option (str -> option rmatch_result))
    (directory : Directory) (today documentType : str) : str :=
  let workflow := getDocumentWorkflow RegExp_i directory documentType in
  buildTemplate workflow today documentType.

End Template.

Import Template.

(** ** The JavaScript runtime: the [RegExp] constructor *)

Module RegExpSyntax.

(** The outcome of reading a pattern: the pattern, a SyntaxError, or a
    construct this reader does not cover. *)
Inductive parsed (A : Type) : Type :=
| Parsed (a : A)
| SyntaxError
| Unsupported.
Arguments Parsed {A} a.
Arguments SyntaxError {A}.
Arguments Unsupported {A}.

Definition is_lower (c : ascii) : bool :=
  let n := code c in
  ((97 <=? n) && (n <=? 122))
  || ((224 <=? n) && (n <=? 254) && negb (n =? 247)).

Definition upper_char (c : ascii) : ascii :=
  if is_lower c then ascii_of_nat (code c - 32) else c.

(** A pattern character under the [i] flag: two code units below 256 have
    the same canonical form exactly when their lower-case forms agree. *)
Definition literalCI (c : ascii) : regex :=
  Chr (fun a => eqc (lower_char a) (lower_char c)).

(** A class under the [i] flag: a character belongs to it when a member of
    the class has its canonical form. *)
Definition classCI (members : ascii -> bool) : ascii -> bool :=
  fun c => members c || members (lower_char c) || members (upper_char c).

(** [\d \D \s \S \w \W] *)
Definition classEscape (c : ascii) : option (ascii -> bool) :=
  if eqc c "d" then Some is_digit
  else if eqc c "D" then Some (fun a => negb (is_digit a))
  else if eqc c "s" then Some is_space
  else if eqc c "S" then Some (fun a => negb (is_space a))
  else if eqc c "w" then Some is_word
  else if eqc c "W" then Some (fun a => negb (is_word a))
  else None.

(** [\t \n \v \f \r] *)
Definition controlEscape (c : ascii) : option ascii :=
  if eqc c "t" then Some (ascii_of_nat 9)
  else if eqc c "n" then Some (ascii_of_nat 10)
  else if eqc c "v" then Some (ascii_of_nat 11)
  else if eqc c "f" then Some (ascii_of_nat 12)
  else if eqc c "r" then Some (ascii_of_nat 13)
  else None.

(** The ASCII characters that are neither letters nor digits nor [_]: a
    backslash before one of them stands for the character itself. *)
Definition isPunctuation (c : ascii) : bool :=
  let n := code c in
  (32 <=? n) && (n <=? 126) && negb (is_word c).

Definition isQuantifier (c : ascii) : bool :=
  eqc c "*" || eqc c "+" || eqc c "?".

(** What follows a backslash, outside and inside a class: a class, or one
    character. *)
Definition parseEscape (s : str)
  : parsed ((ascii + (ascii -> bool)) * str) :=
  match s with
  | [] => SyntaxError
  | e :: s' =>
      match classEscape e with
      | Some members => Parsed (inr members, s')
      | None =>
          match controlEscape e with
          | Some a => Parsed (inl a, s')
          | None =>
              if isPunctuation e then Parsed (inl e, s') else Unsupported
          end
      end
  end.

Definition parseClassAtom (s : str)
  : parsed ((ascii + (ascii -> bool)) * str) :=
  match s with
  | [] => SyntaxError
  | c :: s' => if eqc c "\" then parseEscape s' else Parsed (inl c, s')
  end.

Definition addMember (a : ascii + (ascii -> bool)) (members : ascii -> bool)
  : ascii -> bool :=
  match a with
  | inl c => fun x => members x || eqc x c
  | inr more => fun x => members x || more x
  end.

(** The members of a class up to its closing bracket. *)
Fixpoint parseClassRanges (fuel : nat) (s : str) (members : ascii -> bool)
  : parsed ((ascii -> bool) * str) :=
  match fuel with
  | O => Unsupported
  | S fuel' =>
      match s with
      | [] => SyntaxError
      | c :: s' =>
          if eqc c "]" then Parsed (members, s')
          else
            match parseClassAtom s with
            | Parsed (a, rest) =>
                match rest with
                | d :: e :: rest' =>
                    if eqc d "-" && negb (eqc e "]") then
                      match a, parseClassAtom (e :: rest') with
                      | inl lo, Parsed (inl hi, rest'') =>
                          if code hi <? code lo then SyntaxError
                          else
                            parseClassRanges fuel' rest''
                              (fun x => members x
                                        || (code lo <=? code x)
                                           && (code x <=? code hi))
                      | _, Parsed _ => Unsupported
                      | _, SyntaxError => SyntaxError
                      | _, Unsupported => Unsupported
                      end
                    else parseClassRanges fuel' rest (addMember a members)
                | _ => parseClassRanges fuel' rest (addMember a members)
                end
            | SyntaxError => SyntaxError
            | Unsupported => Unsupported
            end
      end
  end.

(** [[...]] and [[^...]], after the opening bracket. *)
Definition parseClass (s : str) : parsed (regex * str) :=
  let (negated, s') :=
    match s with
    | c :: t => if eqc c "^" then (true, t) else (false, s)
    | [] => (false, s)
    end in
  match parseClassRanges (S (length s')) s' (fun _ => false) with
  | Parsed (members, rest) =>
      Parsed (Chr (fun c => xorb negated (classCI members c)), rest)
  | SyntaxError => SyntaxError
  | Unsupported => Unsupported
  end.

(** An optional quantifier after the atom [r]: [* + ?], each also lazy.
    A quantifier on a quantifier is refused by the constructor; braces are
    not covered. *)
Definition parseQuantifier (r : regex) (s : str) : parsed (regex * str) :=
  match s with
  | q :: s' =>
      if isQuantifier q then
        let (lazy, rest) :=
          match s' with
          | c :: t => if eqc c "?" then (true, t) else (false, s')
          | [] => (false, s')
          end in
        let quantified :=
          if eqc q "*" then Star (negb lazy) r
          else if eqc q "+" then Cat r (Star (negb lazy) r)
          else if lazy then Alt Eps r else Alt r Eps in
        match rest with
        | c :: _ =>
            if isQuantifier c then SyntaxError
            else if eqc c "{" then Unsupported
            else Parsed (quantified, rest)
        | [] => Parsed (quantified, rest)
        end
      else if eqc q "{" then Unsupported
      else Parsed (r, s)
  | [] => Parsed (r, s)
  end.

(** An assertion takes no quantifier. *)
Definition parseAssertion (r : regex) (s : str) : parsed (regex * str) :=
  match s with
  | c :: _ =>
      if isQuantifier c then SyntaxError
      else if eqc c "{" then Unsupported
      else Parsed (r, s)
  | [] => Parsed (r, s)
  end.

(** The grammar of patterns: a disjunction of alternatives, an alternative
    a sequence of terms.  Capturing groups are read as groups: the
    constructed patterns are only tested, or asked for the whole match.
    The recursion is bounded by [fuel]; three times the length of the
    source is enough. *)
Fixpoint parseDisjunction (fuel : nat) (s : str) {struct fuel}
  : parsed (regex * str) :=
  match fuel with
  | O => Unsupported
  | S fuel' =>
      match parseAlternative fuel' s with
      | Parsed (r1, rest) =>
          match rest with
          | c :: rest' =>
              if eqc c "|" then
                match parseDisjunction fuel' rest' with
                | Parsed (r2, rest'') => Parsed (Alt r1 r2, rest'')
                | SyntaxError => SyntaxError
                | Unsupported => Unsupported
                end
              else Parsed (r1, rest)
          | [] => Parsed (r1, rest)
          end
      | SyntaxError => SyntaxError
      | Unsupported => Unsupported
      end
  end
with parseAlternative (fuel : nat) (s : str) {struct fuel}
  : parsed (regex * str) :=
  match fuel with
  | O => Unsupported
  | S fuel' =>
      match s with
      | [] => Parsed (Eps, s)
      | c :: _ =>
          if eqc c "|" || eqc c ")" then Parsed (Eps, s)
          else
            match parseTerm fuel' s with
            | Parsed (r1, rest) =>
                match parseAlternative fuel' rest with
                | Parsed (r2, rest') => Parsed (Cat r1 r2, rest')
                | SyntaxError => SyntaxError
                | Unsupported => Unsupported
                end
            | SyntaxError => SyntaxError
            | Unsupported => Unsupported
            end
      end
  end
with parseTerm (fuel : nat) (s : str) {struct fuel}
  : parsed (regex * str) :=
  match fuel with
  | O => Unsupported
  | S fuel' =>
      match s with
      | [] => SyntaxError
      | c :: s' =>
          if eqc c "^" then parseAssertion Bol s'
          else if eqc c "$" then parseAssertion Eol s'
          else if isQuantifier c then SyntaxError
          else if eqc c "{" then Unsupported
          else if eqc c "." then parseQuantifier dot s'
          else if eqc c "[" then
            match parseClass s' with
            | Parsed (r, rest) => parseQuantifier r rest
            | SyntaxError => SyntaxError
            | Unsupported => Unsupported
            end
          else if eqc c "\" then
            match parseEscape s' with
            | Parsed (inl a, rest) => parseQuantifier (literalCI a) rest
            | Parsed (inr members, rest) =>
                parseQuantifier (Chr members) rest
            | SyntaxError => SyntaxError
            | Unsupported => Unsupported
            end
          else if eqc c "(" then
            match s' with
            | q :: s'' =>
                if eqc q "?" then
                  match s'' with
                  | k :: s3 =>
                      if eqc k "=" then
                        match parseDisjunction fuel' s3 with
                        | Parsed (r, close :: rest) =>
                            if eqc close ")"
                            then
                              match rest with
                              | n :: _ =>
                                  if isQuantifier n || eqc n "{"
                                  then Unsupported
                                  else Parsed (Ahead r, rest)
                              | [] => Parsed (Ahead r, rest)
                              end
                            else SyntaxError
                        | Parsed (_, []) => SyntaxError
                        | SyntaxError => SyntaxError
                        | Unsupported => Unsupported
                        end
                      else if eqc k ":" then
                        match parseDisjunction fuel' s3 with
                        | Parsed (r, close :: rest) =>
                            if eqc close ")" then parseQuantifier r rest
                            else SyntaxError
                        | Parsed (_, []) => SyntaxError
                        | SyntaxError => SyntaxError
                        | Unsupported => Unsupported
                        end
                      else Unsupported
                  | [] => SyntaxError
                  end
                else
                  match parseDisjunction fuel' s' with
                  | Parsed (r, close :: rest) =>
                      if eqc close ")" then parseQuantifier r rest
                      else SyntaxError
                  | Parsed (_, []) => SyntaxError
                  | SyntaxError => SyntaxError
                  | Unsupported => Unsupported
                  end
            | [] => SyntaxError
            end
          else parseQuantifier (literalCI c) s'
      end
  end.

(** [new RegExp(source, 'i')] for the patterns this reader covers: the
    [exec] of the pattern, or [None] for a SyntaxError.  For the others the
    answer is left to [other]. *)
Definition RegExp_ignoreCase (other : str -> option (str -> option rmatch_result))
    (source : str) : option (str -> option rmatch_result) :=
  match parseDisjunction (3 * length source + 4) source with
  | Parsed (r, []) => Some (exec r)
  | Parsed (_, _ :: _) => None
  | SyntaxError => None
  | Unsupported => other source
  end.

End RegExpSyntax.

Import RegExpSyntax.

(** ** Vocabulary of the statements *)

(** The value of the scorer past the exact-match test, as a function of
    [matchCount] and [queryTerms.length]. *)
Definition termScore (m n : nat) : Q :=
  ((if 0 <? n then nat2Q m / nat2Q n else 0) * (8 # 10)
   + (if 2 <=? m then 2 # 10 else 0))%Q.

(** A paragraph as the search meets it: its document, the title of its
    section, its text. *)
Definition Para : Type := (str * str * str)%type.

Definition paraDoc (x : Para) : str := fst (fst x).
Definition paraTitle (x : Para) : str := snd (fst x).
Definition paraText (x : Para) : str := snd x.

Definition sectionParas (docType section : str) : list Para :=
  map (fun paragraph => (docType, sectionTitle section, paragraph))
    (sectionParagraphs section).

Definition documentParas (entry : str * str) : list Para :=
  flat_map (sectionParas (fst entry)) (documentSections (snd entry)).

(** The paragraphs of a corpus in encounter order: the order of the mapping,
    then of the sections, then of the paragraphs. *)
Definition corpusParas (documents : list (str * str)) : list Para :=
  flat_map documentParas documents.

Definition paraScore (query : str) (x : Para) : Q :=
  calculateRelevanceScore query (queryTermsOf query) (paraText x).

Definition aboveThreshold (query : str) (x : Para) : bool :=
  Qltb (3 # 10)%Q (paraScore query x).

Definition paraHit (query : str) (x : Para) : SearchResult :=
  mkSearchResult (paraDoc x) (paraScore query x)
    (extractRelevantSnippet (paraText x) (queryTermsOf query) (paraTitle x)).

Definition hasScore (s : Q) (h : SearchResult) : bool :=
  Qeq_bool (relevanceScore h) s.

(** Non-increasing relevance along a list of hits. *)
Inductive descending : list SearchResult -> Prop :=
| descending_nil : descending []
| descending_cons (h : SearchResult) (l : list SearchResult) :
    Forall (fun h' => (relevanceScore h' <= relevanceScore h)%Q) l ->
    descending l -> descending (h :: l).

(** [p] is an initial segment of [l]. *)
Definition prefixOf (A : Type) (p l : list A) : Prop :=
  exists t, l = p ++ t.

(** The count of the specification: how many distinct terms occur in the
    text. *)
Definition distinctMatchCount (hay : str) (terms : list str) : nat :=
  length (nodup (list_eq_dec ascii_dec) (filter (includes hay) terms)).

(** The score of the specification for a paragraph without the exact
    phrase. *)
Definition specTermScore (terms : list str) (text : str) : Q :=
  termScore (distinctMatchCount (toLowerCase text) terms) (length terms).

(** The text of the snippet between the ellipses. *)
Definition snippetCore (text : str) (queryTerms : list str) : str :=
  let (startPos, endPos) := snippetWindow text queryTerms in
  trim (substring text startPos endPos).

Definition leadingSpaces (s : str) : nat := length s - length (trimStart s).

(** The index in the paragraph of the first character of the snippet, and
    the index just past its last character. *)
Definition coreStart (text : str) (queryTerms : list str) : nat :=
  let (startPos, endPos) := snippetWindow text queryTerms in
  startPos + leadingSpaces (substring text startPos endPos).

Definition coreEnd (text : str) (queryTerms : list str) : nat :=
  coreStart text queryTerms + length (snippetCore text queryTerms).

(** The character just before index [i]; [None] is out of the bounds. *)
Definition charBefore (text : str) (i : nat) : option ascii :=
  match i with
  | O => None
  | S j => charAt text j
  end.

Definition spaceNewlineOrOut (c : option ascii) : Prop :=
  match c with
  | Some c => c = sp \/ c = nl
  | None => True
  end.

Definition whitespaceOrOut (c : option ascii) : Prop :=
  match c with
  | Some c => is_space c = true
  | None => True
  end.

(** The boundary property as the specification words it: around a
    non-empty snippet, the neighbours in the paragraph are a space, a newline
    or out of the bounds. *)
Definition wordSafe (text : str) (queryTerms : list str) : Prop :=
  snippetCore text queryTerms <> [] ->
  spaceNewlineOrOut (charBefore text (coreStart text queryTerms))
  /\ spaceNewlineOrOut (charAt text (coreEnd text queryTerms)).

(** The state [n] code units further on. *)
Definition advance (x : mstate) (n : nat) : mstate :=
  MState (pos x + n) (skipn n (rest x)) (cap x).

(** The length of the longest prefix whose characters all satisfy [p]. *)
Fixpoint spanLen (p : ascii -> bool) (s : str) : nat :=
  match s with
  | c :: s' => if p c then S (spanLen p s') else 0
  | [] => 0
  end.

(** The states a greedy [[p]*] offers to its continuation, longest run
    first. *)
Fixpoint greedyStates (p : ascii -> bool) (i : nat) (s : str)
    (c : option str) : list mstate :=
  match s with
  | a :: s' =>
      if p a then greedyStates p (S i) s' c ++ [MState i s c]
      else [MState i s c]
  | [] => [MState i s c]
  end.

(** The states a lazy [[p]*?] offers, shortest run first. *)
Fixpoint lazyStates (p : ascii -> bool) (i : nat) (s : str)
    (c : option str) : list mstate :=
  match s with
  | a :: s' =>
      if p a then MState i s c :: lazyStates p (S i) s' c
      else [MState i s c]
  | [] => [MState i s c]
  end.

Fixpoint firstSome (k : cont) (l : list mstate) : option mstate :=
  match l with
  | [] => None
  | y :: l' => orElse (k y) (firstSome k l')
  end.

(** The length of the separator [/\n#{2,3}\s+/] finds at the head of [s]. *)
Definition headingSepLen (s : str) : option nat :=
  match s with
  | a :: b :: c :: t =>
      if eqc nl a && eqc "#" b && eqc "#" c then
        match t with
        | d :: t' =>
            if eqc "#" d then
              match t' with
              | e :: _ =>
                  if is_space e then Some (4 + spanLen is_space t') else None
              | [] => None
              end
            else if is_space d then Some (3 + spanLen is_space t)
            else None
        | [] => None
        end
      else None
  | _ => None
  end.

(** The length of the separator [/\n\n+/] finds at the head of [s]. *)
Definition blankSepLen (s : str) : option nat :=
  match s with
  | a :: b :: t =>
      if eqc nl a && eqc nl b then Some (2 + spanLen (eqc nl) t) else None
  | _ => None
  end.

(** [s] starts with a heading separator of [n] code units: a newline, two
    or three [#], and the whole run of white space that follows. *)
Definition headingSep (s : str) (n : nat) : Prop :=
  exists hashes spaces tail,
    s = nl :: hashes ++ spaces ++ tail
    /\ n = 1 + length hashes + length spaces
    /\ (hashes = lit "##" \/ hashes = lit "###")
    /\ spaces <> []
    /\ Forall (fun c => is_space c = true) spaces
    /\ (forall c t, tail = c :: t -> is_space c = false).

(** [s] starts with a run of [n] newlines, [n >= 2], not followed by a
    newline. *)
Definition blankSep (s : str) (n : nat) : Prop :=
  exists tail,
    s = repeat nl n ++ tail /\ 2 <= n
    /\ (forall c t, tail = c :: t -> c <> nl).

(** [pieces] are the pieces of [s] cut at its separators, read from the
    left: no separator starts inside a piece, and after a separator the
    cutting goes on behind it. *)
Inductive cutAt (sepAt : str -> nat -> Prop) : str -> list str -> Prop :=
| cut_last (s : str) :
    (forall k n, ~ sepAt (skipn k s) n) -> cutAt sepAt s [s]
| cut_more (p t : str) (n : nat) (pieces : list str) :
    (forall k m, k < length p -> ~ sepAt (skipn k (p ++ t)) m) ->
    sepAt t n ->
    cutAt sepAt (skipn n t) pieces ->
    cutAt sepAt (p ++ t) (p :: pieces).

(** The first line of a chunk: its text up to the first newline. *)
Definition firstLine (s : str) : str :=
  firstn (spanLen (fun c => negb (eqc c nl)) s) s.

(** [step] is a matcher for one character of the class [p]. *)
Definition stepsOver (p : ascii -> bool)
    (step : mstate -> cont -> option mstate) : Prop :=
  forall x k, step x k = rmatch (Chr p) x k.

(** The match of [n] code units at index [i] of a pattern without group. *)
Definition found (i : nat) (s : str) (n : nat) : rmatch_result :=
  MatchResult i (firstn n s) None.

(** The text of a chunk after its first line and the newline that ends
    it. *)
Fixpoint afterFirstLine (s : str) : str :=
  match s with
  | [] => []
  | c :: s' => if eqc c nl then s' else afterFirstLine s'
  end.

(** The paragraphs as the specification words them: the remainder of the
    chunk, after the title line, split on blank-line runs. *)
Definition specParagraphs (section : str) : list str :=
  split re_blank (afterFirstLine section).

(** *** A [RegExp] constructor for the examples

    The two pattern templates of the file manager, for an interpolated text
    made of letters, digits, [_] and spaces, which has no pattern syntax:
    the text stands for itself, case-insensitively.  Other sources are
    refused. *)

Definition plainText (s : str) : bool :=
  forallb (fun c => is_word c || eqc c sp) s.

(** [###\s*\d+\.\s*] *)
Definition re_numbered : regex :=
  Cat (Lit (lit "###"))
    (Cat (Star true ws)
       (Cat (Plus digit) (Cat (chr ".") (Star true ws)))).

(** [###\s*\d+\.\s*TEXT\s*\([\w\.]+\)[\s\S]*?(?=###\s*\d+\.\s*|##\s*|$)]
    under the [i] flag. *)
Definition re_section (text : str) : regex :=
  Cat re_numbered
    (Cat (LitCI text)
       (Cat (Star true ws)
          (Cat (chr "(")
             (Cat (Plus (Chr (fun c => is_word c || eqc c ".")))
                (Cat (chr ")")
                   (Cat (Star false any)
                      (Ahead
                         (Alt re_numbered
                            (Alt (Cat (Lit (lit "##")) (Star true ws))
                               Eol))))))))).

(** [##\s*TEXT] under the [i] flag. *)
Definition re_has_heading (text : str) : regex :=
  Cat (Lit (lit "##")) (Cat (Star true ws) (LitCI text)).

Fixpoint stripPrefix (p s : str) : option str :=
  match p, s with
  | [], _ => Some s
  | _ :: _, [] => None
  | b :: p', a :: s' => if eqc a b then stripPrefix p' s' else None
  end.

Definition stripSuffix (p s : str) : option str :=
  option_map (@rev ascii) (stripPrefix (rev p) (rev s)).

Definition RegExp_plain (source : str) : option (str -> option rmatch_result) :=
  match stripPrefix (lit "###\s*\d+\.\s*") source with
  | Some source' =>
      match stripSuffix
              (lit "\s*\([\w\.]+\)[\s\S]*?(?=###\s*\d+\.\s*|##\s*|$)")
              source' with
      | Some text =>
          if plainText text then Some (exec (re_section text)) else None
      | None => None
      end
  | None =>
      match stripPrefix (lit "##\s*") source with
      | Some text =>
          if plainText text then Some (exec (re_has_heading text)) else None
      | None => None
      end
  end.

(** An excerpt of the stock [.byterules] file: the entry of the progress
    document between the headings around it. *)
Definition progressRules : str :=
  lit "## Standard Document Types" ++ [nl; nl]
  ++ lit "### 6. Progress (progress.md)" ++ [nl]
  ++ lit "- **Purpose**: Documents completed work, milestones, and project history"
  ++ [nl]
  ++ lit "- **When to Use**: After completing significant work or during reviews"
  ++ [nl; nl]
  ++ lit "## Standard Workflows" ++ [nl].

(** A required section counts as missing when the pattern built from its
    name finds nothing in the document. *)
Definition sectionAbsent (RegExp_i : str -> option (str -> option rmatch_result))
    (content section : str) : bool :=
  match RegExp_i (lit "##\s*" ++ section) with
  | Some sectionRegex =>
      match sectionRegex content with
      | Some _ => false
      | None => true
      end
  | None => false
  end.

Definition isStandard (entry : str * str) : bool :=
  arrayIncludes standardDocuments (fst entry).

(** A directory for the examples: the excerpt of the rules, and a progress
    document dated the day before the clock. *)
Definition exampleDirectory : Directory :=
  mkDirectory (Some progressRules)
    (Some [(lit "progress",
            lit "# Progress" ++ [nl; nl] ++ lit "> Last Updated: 2024-01-31"
            ++ [nl; nl] ++ lit "## Done" ++ [nl]);
           (lit "notes", lit "scratch")]).

(** 2024-02-01T00:00:00Z *)
Definition exampleNow : Z := 1706745600000.

(** [s] has one character for each class of [shape], in order. *)
Fixpoint hasShape (shape : list (ascii -> bool)) (s : str) : bool :=
  match shape, s with
  | [], [] => true
  | p :: shape', c :: s' => p c && hasShape shape' s'
  | _, _ => false
  end.

(** The shape [dddd-dd-dd]. *)
Definition isDateShape (d : str) : bool :=
  hasShape [is_digit; is_digit; is_digit; is_digit; eqc "-";
            is_digit; is_digit; eqc "-"; is_digit; is_digit] d.

(** The date [/Last Updated:\s*(\d{4}-\d{2}-\d{2})/] captures at the head of
    [s]. *)
Definition markerDate (s : str) : option str :=
  if startsWith s (lit "Last Updated:") then
    let s1 := skipn 13 s in
    let s2 := skipn (spanLen is_space s1) s1 in
    if isDateShape (firstn 10 s2) then Some (firstn 10 s2) else None
  else None.

(** [s] starts with a marker [Last Updated: YYYY-MM-DD] whose date text is
    [date]. *)
Definition markerAt (s date : str) : Prop :=
  exists spaces tail,
    s = lit "Last Updated:" ++ spaces ++ date ++ tail
    /\ Forall (fun c => is_space c = true) spaces
    /\ isDateShape date = true.

(** The first marker of [content] starts at index [k] and carries [date]. *)
Definition firstMarker (content : str) (k : nat) (date : str) : Prop :=
  markerAt (skipn k content) date
  /\ forall j d, j < k -> ~ markerAt (skipn j content) d.

Definition noMarker (content : str) : Prop :=
  forall k d, ~ markerAt (skipn k content) d.

(** The staleness flag as the specification words it: set when there is no
    marker, when the date of the marker does not parse, or when the date is
    30 days or more before now. *)
Definition specNeedsUpdate (Date_fallback : str -> Date)
    (LocalTZA : Z -> bool -> Z) (now : Z) (content : str) : bool :=
  match exec re_last_updated content with
  | Some lastUpdatedMatch =>
      match Date_parse Date_fallback (group1 lastUpdatedMatch),
            Date_minusDays LocalTZA (Some now) 30 with
      | Some t, Some thirtyDaysAgo => (t <=? thirtyDaysAgo)%Z
      | _, _ => true
      end
  | None => true
  end.

(** An engine that reads the standard format only, and a host on UTC. *)
Definition Date_strict : str -> Date := fun _ => None.

Definition utcZone : Z -> bool -> Z := fun _ _ => 0%Z.

(** The hits of a list of paragraphs. *)
Definition hitsOf (query : str) (l : list Para) : list SearchResult :=
  map (paraHit query) (filter (aboveThreshold query) l).

(** What one turn of the analysis loop appends for a standard document. *)
Definition entryOf (RegExp_i : str -> option (str -> option rmatch_result))
    (Date_fallback : str -> Date) (LocalTZA : Z -> bool -> Z)
    (directory : Directory) (now : Z) (entry : str * str) : Analysis :=
  verdict (fst entry)
    (filter (sectionAbsent RegExp_i (snd entry))
       (structure (getDocumentWorkflow RegExp_i directory (fst entry))))
    (checkNeedsUpdate Date_fallback LocalTZA now (snd entry)).

(** The same arithmetic in binary64, the numbers of the program: [0.8],
    [0.2] and [0.3] are the nearest doubles, and every operation rounds. *)
Definition termScore64 (m n : nat) : float :=
  ((if (0 <? n)%nat then nat2F m / nat2F n else 0) * 0.8
   + (if (2 <=? m)%nat then 0.2 else 0))%float.

(** The length of the separator [/\s+/] finds at the head of [s]. *)
Definition spaceSepLen (s : str) : option nat :=
  match s with
  | c :: t => if is_space c then Some (1 + spanLen is_space t) else None
  | [] => None
  end.

(** [s] starts with a run of [n] white-space characters, [n >= 1], the
    whole run. *)
Definition spaceSep (s : str) (n : nat) : Prop :=
  1 <= n /\ n = spanLen is_space s.

(** [p] occurs in [s] as a contiguous piece. *)
Definition infix (p s : str) : Prop := exists a b, s = a ++ p ++ b.

(** The string made of the pieces with the separators between them. *)
Fixpoint weave (pieces seps : list str) : str :=
  match pieces, seps with
  | p :: pieces', sep :: seps' => p ++ sep ++ weave pieces' seps'
  | p :: _, [] => p
  | [], _ => []
  end.

(** The text of a heading separator: a newline, two or three [#], white
    space. *)
Definition headingSepText (sep : str) : Prop :=
  exists hashes spaces,
    sep = nl :: hashes ++ spaces
    /\ (hashes = lit "##" \/ hashes = lit "###")
    /\ spaces <> []
    /\ Forall (fun c => is_space c = true) spaces.

(** The text of a paragraph separator: two or more newlines. *)
Definition blankSepText (sep : str) : Prop :=
  exists n, sep = repeat nl n /\ 2 <= n.

(** How many terms occur in the 100 characters from offset [i] on. *)
Definition windowCount (lowerText : str) (queryTerms : list str) (i : nat)
  : nat :=
  countMatches (substring lowerText i (i + 100)) queryTerms.

(** The separator of [split('\n')] at the head of [s]. *)
Definition nlSepLen (s : str) : option nat :=
  if startsWith s [nl] then Some 1 else None.

Definition nlSep (s : str) (n : nat) : Prop :=
  n = 1 /\ startsWith s [nl] = true.

(** The matches of a compiled pattern are pieces of the text it is run
    on. *)
Definition matchesArePieces
    (RegExp_i : str -> option (str -> option rmatch_result)) : Prop :=
  forall source regex s m,
    RegExp_i source = Some regex -> regex s = Some m -> infix (m_text m) s.

(** Whether a newline is directly followed by [#] somewhere in [u];
    [prev] tells whether the character before [u] is a newline. *)
Fixpoint nlHash (prev : bool) (u : str) : bool :=
  match u with
  | [] => false
  | c :: u' => (prev && eqc c "#") || nlHash (eqc c nl) u'
  end.

(** Whether the last character of [u] is a newline ([prev] when [u] is
    empty). *)
Fixpoint lastNl (prev : bool) (u : str) : bool :=
  match u with
  | [] => prev
  | c :: u' => lastNl (eqc c nl) u'
  end.

Definition noNewline (u : str) : Prop := Forall (fun c => c <> nl) u.

(** The text of a template block after its [## ] marker, without the last
    newline. *)
Definition sectionBlock (section : str) : str :=
  section ++ [nl; nl] ++ lit "_Add content here_" ++ [nl].

Definition templateFooter (workflow : Workflow) : str :=
  lit "---" ++ [nl; nl]
  ++ lit "**Note:** This document should be updated "
  ++ toLowerCase (updateTiming workflow) ++ lit "." ++ [nl].

(** The chunks of a template: [first] is the piece read so far. *)
Fixpoint templateChunks (footer first : str) (sections : list str)
  : list str :=
  match sections with
  | [] => [first ++ [nl] ++ footer]
  | section :: sections' =>
      first :: templateChunks footer (sectionBlock section) sections'
  end.

(** The text of a template from the piece [first] on. *)
Fixpoint templateTail (footer : str) (sections : list str) : str :=
  match sections with
  | [] => footer
  | section :: sections' =>
      lit "## " ++ sectionBlock section ++ [nl]
      ++ templateTail footer sections'
  end.

(** A section name that is one clean line. *)
Definition cleanName (section : str) : Prop :=
  section <> [] /\ trim section = section /\ noNewline section.

(** The text of a template before its first section, without the last
    newline. *)
Definition templateHeader (workflow : Workflow) (today documentType : str)
  : str :=
  lit "# " ++ spacedTitle documentType ++ [nl; nl]
  ++ lit "> " ++ purpose workflow ++ [nl; nl]
  ++ lit "> Last Updated: " ++ today ++ [nl].

(** Rules with a structure list for the technical context. *)
Definition techRules : str :=
  lit "### 4. Tech Context (techContext.md)" ++ [nl]
  ++ lit "- **Purpose**: Records the stack." ++ [nl]
  ++ lit "**Structure**:" ++ [nl] ++ lit "- Stack" ++ [nl]
  ++ lit " - Tools " ++ [nl].

(** [s] starts with [p], letter case apart. *)
Fixpoint startsWithCI (s p : str) : bool :=
  match p, s with
  | [], _ => true
  | _ :: _, [] => false
  | b :: p', a :: s' => eqc (lower_char a) (lower_char b) && startsWithCI s' p'
  end.

(** The document has a heading for the section: [##], any white space, and
    the name of the section in any letter case. *)
Definition headingOccurs (section content : str) : Prop :=
  exists before spaces name after,
    content = before ++ lit "##" ++ spaces ++ name ++ after
    /\ Forall (fun c => is_space c = true) spaces
    /\ toLowerCase name = toLowerCase section.

(** What [new RegExp] makes of the pattern of a section whose name has no
    pattern syntax: a pattern that finds exactly the documents with a
    heading for the section. *)
Definition headingPatterns
    (RegExp_i : str -> option (str -> option rmatch_result)) : Prop :=
  forall section,
    plainText section = true ->
    exists sectionRegex,
      RegExp_i (lit "##\s*" ++ section) = Some sectionRegex
      /\ forall content,
           sectionRegex content <> None <-> headingOccurs section content.

(** The [RegExp] constructor of the examples with pattern syntax. *)
Definition RegExp_engine : str -> option (str -> option rmatch_result) :=
  RegExp_ignoreCase (fun _ => None).

(** Rules that require a section whose name has parentheses, and a document
    that has a heading for it, dated the day before the clock. *)
Definition goalsRules : str :=
  lit "### 4. Tech Context (techContext.md)" ++ [nl]
  ++ lit "**Structure**:" ++ [nl] ++ lit "- Goals (MVP)" ++ [nl].

Definition goalsDocument : str :=
  lit "# Tech Context" ++ [nl; nl] ++ lit "> Last Updated: 2024-01-31"
  ++ [nl; nl] ++ lit "## Goals (MVP)" ++ [nl; nl] ++ lit "Ship it." ++ [nl].

Definition goalsDirectory : Directory :=
  mkDirectory (Some goalsRules) (Some [(lit "techContext", goalsDocument)]).

(** Rules whose list of sections is written with [*] bullets. *)
Definition starRules : str :=
  lit "### 4. Tech Context (techContext.md)" ++ [nl]
  ++ lit "**Structure**:" ++ [nl] ++ lit "* Goals" ++ [nl].

Definition starDirectory : Directory :=
  mkDirectory (Some starRules) (Some [(lit "techContext", goalsDocument)]).

(** The score of a paragraph as the program computes it, the test of the
    threshold and the hit. *)
Definition paraScore64 (query : str) (x : Para) : float :=
  Binary64.calculateRelevanceScore query (queryTermsOf query) (paraText x).

Definition aboveThreshold64 (query : str) (x : Para) : bool :=
  PrimFloat.ltb 0.3%float (paraScore64 query x).

Definition paraHit64 (query : str) (x : Para) : Binary64.SearchResult :=
  Binary64.mkSearchResult (paraDoc x) (paraScore64 query x)
    (extractRelevantSnippet (paraText x) (queryTermsOf query) (paraTitle x)).

Unset Implicit Arguments.

(** * Properties *)

(** ** Rationals *)

Lemma Qltb_lt (a b : Q) : Qltb a b = true <-> (a < b)%Q.
Proof.
  unfold Qltb. rewrite negb_true_iff. split; intro H.
  - apply Qnot_le_lt. intro Hle. apply Qle_bool_iff in Hle. congruence.
  - destruct (Qle_bool b a) eqn:E; [|reflexivity].
    apply Qle_bool_iff in E. exfalso. apply (Qlt_not_le _ _ H E).
Qed.

Lemma Qltb_ge (a b : Q) : Qltb a b = false <-> (b <= a)%Q.
Proof.
  unfold Qltb. rewrite negb_false_iff. apply Qle_bool_iff.
Qed.

Lemma nat2Q_ratio (m n : nat) :
  0 < n -> (nat2Q m / nat2Q n == Z.of_nat m # Pos.of_nat n)%Q.
Proof.
  intro Hn. unfold nat2Q.
  assert (E : Z.of_nat n = Z.pos (Pos.of_nat n)) by lia.
  rewrite E. generalize (Pos.of_nat n). intro p.
  unfold Qdiv, Qinv, inject_Z, Qmult, Qeq. simpl. lia.
Qed.

(** ** The scorer *)

Section Scorer.

Lemma countMatches_from (hay : str) (terms : list str) (k : nat) :
  fold_left (fun n term => if includes hay term then S n else n) terms k
  = k + length (filter (includes hay) terms).
Proof.
  revert k. induction terms as [|t terms IH]; intro k; simpl.
  - lia.
  - rewrite IH. destruct (includes hay t); simpl; lia.
Qed.

Lemma countMatches_filter (hay : str) (terms : list str) :
  countMatches hay terms = length (filter (includes hay) terms).
Proof. unfold countMatches. now rewrite countMatches_from. Qed.

Lemma countMatches_le (hay : str) (terms : list str) :
  countMatches hay terms <= length terms.
Proof. rewrite countMatches_filter. apply filter_length_le. Qed.

Lemma filter_all_length {A : Type} (f : A -> bool) (l : list A) :
  length (filter f l) = length l <-> forall x, In x l -> f x = true.
Proof.
  induction l as [|a l IH]; simpl.
  - split; [intros _ x []|reflexivity].
  - pose proof (filter_length_le f l) as Hle.
    destruct (f a) eqn:Ea; simpl; split.
    + intros H x [<-|Hx]; [exact Ea|]. apply IH; [lia|exact Hx].
    + intro H. f_equal. apply IH. intros x Hx. apply H. now right.
    + intro H. lia.
    + intro H. specialize (H a (or_introl eq_refl)). congruence.
Qed.

Lemma countMatches_all (hay : str) (terms : list str) :
  countMatches hay terms = length terms
  <-> forall t, In t terms -> includes hay t = true.
Proof. rewrite countMatches_filter. apply filter_all_length. Qed.

Lemma score_exact (query : str) (terms : list str) (text : str) :
  includes (toLowerCase text) (toLowerCase query) = true ->
  calculateRelevanceScore query terms text = 1%Q.
Proof. unfold calculateRelevanceScore. now intros ->. Qed.

Lemma score_terms (query : str) (terms : list str) (text : str) :
  includes (toLowerCase text) (toLowerCase query) = false ->
  calculateRelevanceScore query terms text
  = termScore (countMatches (toLowerCase text) terms) (length terms).
Proof. unfold calculateRelevanceScore, termScore. now intros ->. Qed.

Lemma termScore_range (m n : nat) :
  m <= n -> (0 <= termScore m n /\ termScore m n <= 1)%Q.
Proof.
  intro Hmn. unfold termScore.
  destruct (0 <? n) eqn:En.
  - apply Nat.ltb_lt in En. rewrite (nat2Q_ratio m n En).
    assert (Hp : Z.pos (Pos.of_nat n) = Z.of_nat n) by lia.
    revert Hp. generalize (Pos.of_nat n). intros p Hp.
    destruct (2 <=? m); unfold Qle, Qplus, Qmult; simpl;
      rewrite ?Pos2Z.inj_mul; lia.
  - apply Nat.ltb_ge in En. assert (m = 0) by lia. subst m. simpl.
    split; unfold Qle; simpl; lia.
Qed.

Lemma termScore_one (m n : nat) :
  m <= n -> (termScore m n == 1)%Q <-> 2 <= n /\ m = n.
Proof.
  intro Hmn. unfold termScore.
  destruct (0 <? n) eqn:En.
  - apply Nat.ltb_lt in En. rewrite (nat2Q_ratio m n En).
    assert (Hp : Z.pos (Pos.of_nat n) = Z.of_nat n) by lia.
    revert Hp. generalize (Pos.of_nat n). intros p Hp.
    destruct (2 <=? m) eqn:Em;
      [apply Nat.leb_le in Em | apply Nat.leb_gt in Em];
      unfold Qeq, Qplus, Qmult; simpl; rewrite ?Pos2Z.inj_mul; lia.
  - apply Nat.ltb_ge in En. assert (m = 0) by lia. subst m. simpl.
    unfold Qeq; simpl. lia.
Qed.

Lemma score_range (query : str) (terms : list str) (text : str) :
  (0 <= calculateRelevanceScore query terms text
   /\ calculateRelevanceScore query terms text <= 1)%Q.
Proof.
  destruct (includes (toLowerCase text) (toLowerCase query)) eqn:E.
  - rewrite (score_exact _ _ _ E). split; unfold Qle; simpl; lia.
  - rewrite (score_terms _ _ _ E). apply termScore_range, countMatches_le.
Qed.

Lemma score_one_iff (query : str) (terms : list str) (text : str) :
  (calculateRelevanceScore query terms text == 1)%Q
  <-> includes (toLowerCase text) (toLowerCase query) = true
      \/ (2 <= length terms
          /\ forall t, In t terms -> includes (toLowerCase text) t = true).
Proof.
  destruct (includes (toLowerCase text) (toLowerCase query)) eqn:E.
  - rewrite (score_exact _ _ _ E). split; [now left|reflexivity].
  - rewrite (score_terms _ _ _ E), termScore_one by apply countMatches_le.
    rewrite countMatches_all. split.
    + intros [H1 H2]. right. now split.
    + intros [H|[H1 H2]]; [discriminate|now split].
Qed.

End Scorer.

(** ** The search pipeline *)

Section Pipeline.

Variable query : str.

Lemma fold_push {A B : Type} (p : A -> bool) (f : A -> B) (l : list A)
    (acc : list B) :
  fold_left (fun acc x => if p x then acc ++ [f x] else acc) l acc
  = acc ++ map f (filter p l).
Proof.
  revert acc. induction l as [|a l IH]; intro acc; simpl.
  - now rewrite app_nil_r.
  - rewrite IH. destruct (p a); simpl; [|reflexivity].
    now rewrite <- app_assoc.
Qed.

Lemma fold_append {A B : Type} (g : A -> list B) (step : list B -> A -> list B)
    (l : list A) (acc : list B) :
  (forall acc a, step acc a = acc ++ g a) ->
  fold_left step l acc = acc ++ flat_map g l.
Proof.
  intro Hstep. revert acc. induction l as [|a l IH]; intro acc; simpl.
  - now rewrite app_nil_r.
  - rewrite IH, Hstep. now rewrite <- app_assoc.
Qed.

Lemma filter_flat_map {A B : Type} (p : B -> bool) (g : A -> list B)
    (l : list A) :
  filter p (flat_map g l) = flat_map (fun a => filter p (g a)) l.
Proof.
  induction l as [|a l IH]; simpl; [reflexivity|].
  now rewrite filter_app, IH.
Qed.

Lemma map_flat_map {A B C : Type} (f : B -> C) (g : A -> list B)
    (l : list A) :
  map f (flat_map g l) = flat_map (fun a => map f (g a)) l.
Proof.
  induction l as [|a l IH]; simpl; [reflexivity|].
  now rewrite map_app, IH.
Qed.

Lemma searchSection_spec (docType : str) (results : list SearchResult)
    (section : str) :
  searchSection query (queryTermsOf query) docType results section
  = results ++ hitsOf query (sectionParas docType section).
Proof.
  unfold searchSection, searchParagraph, hitsOf, sectionParas.
  rewrite (fold_push
             (fun paragraph =>
                Qltb (3 # 10)
                  (calculateRelevanceScore query (queryTermsOf query) paragraph))
             (fun paragraph =>
                mkSearchResult docType
                  (calculateRelevanceScore query (queryTermsOf query) paragraph)
                  (extractRelevantSnippet paragraph (queryTermsOf query)
                     (sectionTitle section)))).
  f_equal. induction (sectionParagraphs section) as [|a l IH]; simpl.
  - reflexivity.
  - unfold aboveThreshold at 1, paraScore at 1. simpl.
    destruct (Qltb _ _); simpl; now rewrite IH.
Qed.

Lemma searchDocument_spec (results : list SearchResult) (entry : str * str) :
  searchDocument query (queryTermsOf query) results entry
  = results ++ hitsOf query (documentParas entry).
Proof.
  destruct entry as [docType content]. unfold searchDocument.
  rewrite (fold_append (fun section => hitsOf query (sectionParas docType section)))
    by (intros; apply searchSection_spec).
  f_equal. unfold hitsOf, documentParas. simpl.
  now rewrite filter_flat_map, map_flat_map.
Qed.

Lemma collectResults_spec (documents : list (str * str)) :
  collectResults query documents = hitsOf query (corpusParas documents).
Proof.
  unfold collectResults.
  rewrite (fold_append (fun entry => hitsOf query (documentParas entry)))
    by (intros; apply searchDocument_spec).
  simpl. unfold hitsOf, corpusParas.
  now rewrite filter_flat_map, map_flat_map.
Qed.

End Pipeline.

(** ** Sorting by relevance *)

Section Sorting.

Lemma byRelevance_pos (x y : SearchResult) :
  Qltb 0 (byRelevance x y) = true <-> (relevanceScore x < relevanceScore y)%Q.
Proof. rewrite Qltb_lt. unfold byRelevance. split; intro H; lra. Qed.

Lemma byRelevance_nonpos (x y : SearchResult) :
  Qltb 0 (byRelevance x y) = false <-> (relevanceScore y <= relevanceScore x)%Q.
Proof. rewrite Qltb_ge. unfold byRelevance. split; intro H; lra. Qed.

Lemma hasScore_eq (s : Q) (h : SearchResult) :
  hasScore s h = true <-> (relevanceScore h == s)%Q.
Proof. apply Qeq_bool_iff. Qed.

Lemma hasScore_lt (s : Q) (x y : SearchResult) :
  (relevanceScore x < relevanceScore y)%Q ->
  hasScore s x = false \/ hasScore s y = false.
Proof.
  intro Hlt. destruct (hasScore s x) eqn:Ex; [|now left].
  destruct (hasScore s y) eqn:Ey; [|now right].
  apply hasScore_eq in Ex, Ey. lra.
Qed.

Lemma sortInsert_hasScore (s : Q) (x : SearchResult) (l : list SearchResult) :
  filter (hasScore s) (sortInsert byRelevance x l) = filter (hasScore s) (x :: l).
Proof.
  induction l as [|y l IH]; [reflexivity|].
  cbn [sortInsert]. destruct (Qltb 0 (byRelevance x y)) eqn:E; [|reflexivity].
  apply byRelevance_pos in E.
  cbn [filter] in *. rewrite IH.
  destruct (@hasScore_lt s x y E) as [H|H]; rewrite H; reflexivity.
Qed.

Lemma sort_hasScore (s : Q) (l : list SearchResult) :
  filter (hasScore s) (Array_sort byRelevance l) = filter (hasScore s) l.
Proof.
  induction l as [|x l IH]; [reflexivity|].
  cbn [Array_sort]. rewrite sortInsert_hasScore. cbn [filter]. now rewrite IH.
Qed.

Lemma sortInsert_perm (x : SearchResult) (l : list SearchResult) :
  Permutation (sortInsert byRelevance x l) (x :: l).
Proof.
  induction l as [|y l IH]; cbn [sortInsert]; [reflexivity|].
  destruct (Qltb 0 (byRelevance x y)); [|reflexivity].
  rewrite IH. apply perm_swap.
Qed.

Lemma sort_perm (l : list SearchResult) :
  Permutation (Array_sort byRelevance l) l.
Proof.
  induction l as [|x l IH]; cbn [Array_sort]; [reflexivity|].
  rewrite sortInsert_perm. now apply perm_skip.
Qed.

Lemma sortInsert_descending (x : SearchResult) (l : list SearchResult) :
  descending l -> descending (sortInsert byRelevance x l).
Proof.
  induction 1 as [|y l Hy Hl IH]; cbn [sortInsert].
  - constructor; constructor.
  - destruct (Qltb 0 (byRelevance x y)) eqn:E.
    + apply byRelevance_pos in E. constructor; [|exact IH].
      rewrite (Forall_forall). intros h Hh.
      apply (Permutation_in _ (sortInsert_perm x l)) in Hh.
      destruct Hh as [<-|Hh]; [lra|].
      rewrite Forall_forall in Hy. now apply Hy.
    + apply byRelevance_nonpos in E. constructor; [|now constructor].
      constructor; [exact E|].
      eapply Forall_impl; [|exact Hy]. cbn. intros h Hh. lra.
Qed.

Lemma sort_descending (l : list SearchResult) :
  descending (Array_sort byRelevance l).
Proof.
  induction l as [|x l IH]; cbn [Array_sort]; [constructor|].
  now apply sortInsert_descending.
Qed.

Lemma descending_firstn (n : nat) (l : list SearchResult) :
  descending l -> descending (firstn n l).
Proof.
  intro H. revert n. induction H as [|h l Hh Hl IH]; intro n.
  - rewrite firstn_nil. constructor.
  - destruct n as [|n]; cbn [firstn]; constructor; [|apply IH].
    rewrite Forall_forall in *. intros h' Hin. apply Hh.
    rewrite <- (firstn_skipn n l). apply in_or_app. now left.
Qed.

Lemma descending_app (a b : list SearchResult) :
  descending (a ++ b) ->
  forall h d, In h a -> In d b -> (relevanceScore d <= relevanceScore h)%Q.
Proof.
  induction a as [|x a IH]; intros H h d Hh Hd; [contradiction|].
  inversion H as [|x' l' Hx Hl]; subst.
  destruct Hh as [<-|Hh].
  - rewrite Forall_forall in Hx. apply Hx, in_or_app. now right.
  - now apply IH.
Qed.

Lemma filter_firstn_prefix {A : Type} (p : A -> bool) (n : nat) (l : list A) :
  prefixOf (filter p (firstn n l)) (filter p l).
Proof.
  exists (filter p (skipn n l)).
  now rewrite <- filter_app, firstn_skipn.
Qed.

End Sorting.

(** ** The claims on the scorer and the search *)

Lemma search_hit_origin (query : str) (documents : list (str * str))
    (h : SearchResult) :
  In h (performAdvancedSearch query documents) ->
  exists x, In x (corpusParas documents)
            /\ aboveThreshold query x = true /\ h = paraHit query x.
Proof.
  unfold performAdvancedSearch, slice0. intro Hin.
  assert (Hs : In h (Array_sort byRelevance (collectResults query documents))).
  { rewrite <- (firstn_skipn 5). apply in_or_app. now left. }
  apply (Permutation_in _ (sort_perm _)) in Hs.
  rewrite collectResults_spec in Hs. unfold hitsOf in Hs.
  apply in_map_iff in Hs. destruct Hs as [x [Hx Hf]].
  apply filter_In in Hf. destruct Hf as [Hc Ha].
  exists x. now repeat split.
Qed.



(** C2, as stated, fails: the term list of "foo foo bar" holds "foo" twice,
    and the code counts both occurrences for the paragraph "foo": it scores
    2/3 * 0.8 + 0.2, where one distinct matching term gives 1/3 * 0.8. *)
Lemma repeated_term_counted_twice :
  let query := lit "foo foo bar" in
  let text := lit "foo" in
  includes (toLowerCase text) (toLowerCase query) = false
  /\ ~ (calculateRelevanceScore query (queryTermsOf query) text
        == specTermScore (queryTermsOf query) text)%Q.
Proof.
  cbv zeta. split; [vm_compute; reflexivity|].
  intro H. vm_compute in H. discriminate.
Qed.

(** C2, amended: for a paragraph whose lower-cased text does not contain the
    lower-cased query, the score is (matchCount / len(terms)) * 0.8 +
    proximityFactor, where matchCount is the number of entries of the term
    list, repetitions counted, that occur in the lower-cased paragraph; the
    ratio is 0 for an empty term list and proximityFactor is 0.2 when
    matchCount >= 2 and 0 otherwise.  For a term list without repetition
    matchCount is the number of distinct terms that occur. *)
Theorem score_formula :
  forall (query : str) (terms : list str) (text : str),
    includes (toLowerCase text) (toLowerCase query) = false ->
    let matchCount := length (filter (includes (toLowerCase text)) terms) in
    calculateRelevanceScore query terms text
    = ((if 0 <? length terms
        then nat2Q matchCount / nat2Q (length terms) else 0) * (8 # 10)
       + (if 2 <=? matchCount then 2 # 10 else 0))%Q
    /\ (NoDup terms ->
        matchCount = distinctMatchCount (toLowerCase text) terms
        /\ calculateRelevanceScore query terms text = specTermScore terms text).
Proof.
  intros query terms text Hno matchCount.
  rewrite (score_terms _ _ _ Hno), countMatches_filter.
  fold matchCount. split; [reflexivity|].
  intro Hnd. unfold specTermScore, distinctMatchCount.
  rewrite nodup_fixed_point by now apply NoDup_filter.
  now split.
Qed.

(** The formula at the query "foo bar" and a paragraph with one of its two
    terms. *)
Lemma score_formula_witness :
  includes (toLowerCase (lit "the bar is open")) (toLowerCase (lit "foo bar")) = false
  /\ calculateRelevanceScore (lit "foo bar") [lit "foo"; lit "bar"]
       (lit "the bar is open")
     = ((if 0 <? 2 then nat2Q 1 / nat2Q 2 else 0) * (8 # 10)
        + (if 2 <=? 1 then 2 # 10 else 0))%Q.
Proof.
  assert (H : includes (toLowerCase (lit "the bar is open"))
                (toLowerCase (lit "foo bar")) = false)
    by (vm_compute; reflexivity).
  split; [exact H|].
  exact (proj1 (score_formula (lit "foo bar") [lit "foo"; lit "bar"]
                  (lit "the bar is open") H)).
Defined.

Lemma filter_none {A : Type} (f : A -> bool) (l : list A) :
  (forall x, In x l -> f x = false) -> filter f l = [].
Proof.
  induction l as [|a l IH]; intro H; simpl; [reflexivity|].
  rewrite (H a (or_introl eq_refl)). apply IH. intros x Hx. apply H. now right.
Qed.

(** C10: when every whitespace token of the query has at most two
    characters the term list is empty, and a paragraph whose lower-cased text
    contains the lower-cased query still scores 1.0, which is above the
    threshold: the paragraph is pushed as a hit. *)
Theorem exact_phrase_before_empty_terms :
  forall (query text : str),
    (forall token, In token (split re_spaces (toLowerCase query)) ->
                   length token <= 2) ->
    includes (toLowerCase text) (toLowerCase query) = true ->
    queryTermsOf query = []
    /\ calculateRelevanceScore query (queryTermsOf query) text = 1%Q
    /\ forall docType title results,
         searchParagraph query (queryTermsOf query) docType title results text
         = results
           ++ [mkSearchResult docType 1%Q
                 (extractRelevantSnippet text (queryTermsOf query) title)].
Proof.
  intros query text Hshort Hin.
  assert (Ht : queryTermsOf query = []).
  { unfold queryTermsOf. apply filter_none. intros token Htok.
    apply Nat.ltb_ge. now apply Hshort. }
  split; [exact Ht|].
  split; [now apply score_exact|].
  intros docType title results. unfold searchParagraph.
  now rewrite (score_exact _ _ _ Hin).
Qed.

(** The query "to be" has no term of more than two characters. *)
Lemma exact_phrase_before_empty_terms_witness :
  queryTermsOf (lit "to be") = []
  /\ calculateRelevanceScore (lit "to be") (queryTermsOf (lit "to be"))
       (lit "To be or not") = 1%Q.
Proof.
  assert (H1 : forall token,
             In token (split re_spaces (toLowerCase (lit "to be"))) ->
             length token <= 2).
  { vm_compute. intros token [<-|[<-|[]]]; simpl; lia. }
  assert (H2 : includes (toLowerCase (lit "To be or not"))
                 (toLowerCase (lit "to be")) = true)
    by (vm_compute; reflexivity).
  destruct (exact_phrase_before_empty_terms (lit "to be") (lit "To be or not")
              H1 H2) as [Ha [Hb _]].
  split; [exact Ha|exact Hb].
Defined.


Example search_no_result :
  performAdvancedSearch (lit "kubernetes operator reconciliation")
    [(lit "projectbrief",
      lit "# Brief" ++ [nl; nl] ++ lit "Unrelated filler text.")]
  = [].
Proof. vm_compute. reflexivity. Qed.

Example search_exact_phrase :
  performAdvancedSearch (lit "PostgreSQL for storage")
    [(lit "techContext",
      lit "## Stack" ++ [nl; nl] ++ lit "We use PostgreSQL for storage.")]
  = [mkSearchResult (lit "techContext") 1%Q
       (lit "**## Stack**: We use PostgreSQL for storage.")].
Proof. vm_compute. reflexivity. Qed.

(** ** Trimming *)

Section Trim.

Lemma trimStart_split (s : str) :
  exists l, s = l ++ trimStart s /\ Forall (fun c => is_space c = true) l.
Proof.
  induction s as [|c s [l [Hs Hl]]]; [now exists []|].
  cbn [trimStart]. destruct (is_space c) eqn:E.
  - exists (c :: l). split; [cbn; now f_equal|now constructor].
  - now exists [].
Qed.

Lemma trimStart_head (s : str) (c : ascii) (t : str) :
  trimStart s = c :: t -> is_space c = false.
Proof.
  induction s as [|a s IH]; cbn [trimStart]; [discriminate|].
  destruct (is_space a) eqn:E; [exact IH|]. intro H. now inversion H; subst.
Qed.

Lemma trimEnd_split (s : str) :
  exists r, s = trimEnd s ++ r /\ Forall (fun c => is_space c = true) r.
Proof.
  unfold trimEnd. destruct (trimStart_split (rev s)) as [l [Hs Hl]].
  exists (rev l). split.
  - rewrite <- rev_app_distr, <- Hs. now rewrite rev_involutive.
  - now apply Forall_rev.
Qed.

(** A string is its trimmed text between two runs of white space, and the
    trimmed text, when not empty, starts with a character that is not white
    space. *)
Lemma trim_split (s : str) :
  exists l r,
    s = l ++ trim s ++ r
    /\ Forall (fun c => is_space c = true) l
    /\ Forall (fun c => is_space c = true) r
    /\ length l = leadingSpaces s
    /\ (forall c t, trim s = c :: t -> is_space c = false).
Proof.
  destruct (trimStart_split s) as [l [Hs Hl]].
  destruct (trimEnd_split (trimStart s)) as [r [Ht Hr]].
  exists l, r. unfold trim. repeat split; try assumption.
  - rewrite <- Ht. exact Hs.
  - unfold leadingSpaces. rewrite Hs at 1. rewrite length_app. lia.
  - intros c t Hc. rewrite Hc in Ht. cbn in Ht.
    now apply trimStart_head in Ht.
Qed.

End Trim.

(** ** The snippet window *)

Section Snippet.

Lemma isBoundaryAt_space (text : str) (i : nat) :
  isBoundaryAt text i = true ->
  exists c, charAt text i = Some c /\ (c = sp \/ c = nl) /\ is_space c = true.
Proof.
  unfold isBoundaryAt. destruct (charAt text i) as [c|]; [|discriminate].
  intro H. exists c. split; [reflexivity|].
  apply orb_true_iff in H. unfold eqc in H. rewrite !Ascii.eqb_eq in H.
  split; [exact H|]. destruct H as [-> | ->]; reflexivity.
Qed.

Lemma adjustStart_spec (text : str) (p : nat) :
  adjustStart text p <= p
  /\ (adjustStart text p = 0 \/ isBoundaryAt text (adjustStart text p) = true)
  /\ forall j, adjustStart text p < j <= p -> isBoundaryAt text j = false.
Proof.
  induction p as [|q [IH1 [IH2 IH3]]]; cbn [adjustStart].
  - split; [lia|]. split; [now left|]. intros j Hj. lia.
  - destruct (isBoundaryAt text (S q)) eqn:E.
    + split; [lia|]. split; [now right|]. intros j Hj. lia.
    + split; [lia|]. split; [exact IH2|].
      intros j Hj. destruct (Nat.eq_dec j (S q)) as [->|Hne]; [exact E|].
      apply IH3. lia.
Qed.

Lemma adjustEndLoop_spec (text : str) (turns e : nat) :
  e <= adjustEndLoop turns text e <= e + turns
  /\ (forall j, e <= j < adjustEndLoop turns text e ->
                isBoundaryAt text j = false)
  /\ (adjustEndLoop turns text e = e + turns
      \/ length text <= adjustEndLoop turns text e
      \/ isBoundaryAt text (adjustEndLoop turns text e) = true).
Proof.
  revert e. induction turns as [|n IH]; intro e; cbn [adjustEndLoop].
  - split; [lia|]. split; [intros j Hj; lia|now left].
  - destruct ((e <? length text) && negb (isBoundaryAt text e)) eqn:E.
    + apply andb_true_iff in E. destruct E as [E1 E2].
      apply negb_true_iff in E2.
      destruct (IH (S e)) as [H1 [H2 H3]]. split; [lia|]. split.
      * intros j Hj. destruct (Nat.eq_dec j e) as [->|Hne]; [exact E2|].
        apply H2. lia.
      * destruct H3 as [H3|H3]; [left; lia|now right].
    + split; [lia|]. split; [intros j Hj; lia|]. right.
      apply andb_false_iff in E. destruct E as [E|E].
      * left. apply Nat.ltb_ge in E. exact E.
      * right. now apply negb_false_iff in E.
Qed.

Lemma adjustEnd_spec (text : str) (e : nat) :
  e <= length text ->
  e <= adjustEnd text e <= length text
  /\ (forall j, e <= j < adjustEnd text e -> isBoundaryAt text j = false)
  /\ (adjustEnd text e = length text
      \/ isBoundaryAt text (adjustEnd text e) = true).
Proof.
  intro He. unfold adjustEnd.
  destruct (adjustEndLoop_spec text (length text - e) e) as [H1 [H2 H3]].
  split; [lia|]. split; [exact H2|].
  destruct H3 as [H3|[H3|H3]]; [left; lia|left; lia|now right].
Qed.

Lemma bestMatch_from (lowerText : str) (queryTerms : list str) (n : nat)
    (l : list nat) (best : nat * nat) :
  (forall i, In i l -> i <= n) -> fst best <= n ->
  fst (fold_left (scanStep lowerText queryTerms) l best) <= n.
Proof.
  revert best. induction l as [|i l IH]; intros best Hl Hb; [exact Hb|].
  cbn [fold_left]. apply IH.
  - intros j Hj. apply Hl. now right.
  - unfold scanStep. destruct (snd best <? _); [|exact Hb].
    cbn. apply Hl. now left.
Qed.

Lemma bestMatch_bound (lowerText : str) (queryTerms : list str) :
  fst (bestMatch lowerText queryTerms) <= length lowerText.
Proof.
  unfold bestMatch. apply bestMatch_from; [|cbn; lia].
  intros i Hi. apply in_seq in Hi. lia.
Qed.

Lemma toLowerCase_length (s : str) : length (toLowerCase s) = length s.
Proof. apply length_map. Qed.

Lemma charAt_split (text x y : str) (c : ascii) (n : nat) :
  text = x ++ c :: y -> n = length x -> charAt text n = Some c.
Proof.
  intros -> ->. unfold charAt. rewrite nth_error_app2 by lia.
  now rewrite Nat.sub_diag.
Qed.

(** What trimming does to a window [a, b) whose two ends stand on a space,
    a newline or an end of the text. *)
Lemma trimmed_window (text : str) (a b : nat) :
  a <= b <= length text ->
  a = 0 \/ isBoundaryAt text a = true ->
  b = length text \/ isBoundaryAt text b = true ->
  let w := substring text a b in
  let core := trim w in
  let s := a + leadingSpaces w in
  core = substring text s (s + length core)
  /\ a <= s /\ s + length core <= b
  /\ (core <> [] ->
      whitespaceOrOut (charBefore text s)
      /\ whitespaceOrOut (charAt text (s + length core))).
Proof.
  intros Hab Ha Hb w core s.
  assert (Htext : text = firstn a text ++ w ++ skipn b text).
  { unfold w, substring.
    rewrite <- (firstn_skipn a text) at 1. f_equal.
    rewrite <- (firstn_skipn (b - a) (skipn a text)) at 1. f_equal.
    rewrite skipn_skipn. f_equal. lia. }
  assert (Hpre : length (firstn a text) = a) by (apply firstn_length_le; lia).
  assert (Hw : length w = b - a).
  { unfold w, substring. rewrite firstn_length_le; [lia|].
    rewrite length_skipn. lia. }
  destruct (trim_split w) as [l [r [Ew [Hl [Hr [Hlen Hhead]]]]]].
  fold core in Ew, Hhead.
  assert (Hs : s = a + length l) by (unfold s; lia).
  assert (Hlens : length l + length core + length r = b - a).
  { rewrite <- Hw, Ew. rewrite !length_app. lia. }
  set (pre := firstn a text) in *. set (post := skipn b text) in *.
  assert (Et : text = (pre ++ l) ++ core ++ r ++ post).
  { rewrite Htext at 1. rewrite Ew. now rewrite <- !app_assoc. }
  split.
  { unfold substring. rewrite Et at 1.
    rewrite skipn_app, skipn_all2 by (rewrite length_app; lia).
    rewrite length_app. replace (s - (length pre + length l)) with 0 by lia.
    cbn [app skipn]. replace (s + length core - s) with (length core) by lia.
    now rewrite firstn_app, firstn_all, Nat.sub_diag, firstn_O, app_nil_r. }
  split; [lia|]. split; [lia|].
  intro Hne. split.
  - destruct l as [|c0 l0] using rev_ind.
    + replace s with a by (cbn in Hs; lia).
      destruct Ha as [->|Ha]; [exact I|].
      exfalso. apply isBoundaryAt_space in Ha.
      destruct Ha as [c [Hc [_ Hsp]]].
      destruct core as [|c' core']; [now apply Hne|].
      rewrite (@charAt_split text (pre ++ []) (core' ++ r ++ post) c' a) in Hc;
        [|exact Et|rewrite app_nil_r; lia].
      inversion Hc; subst c'.
      specialize (Hhead c core' eq_refl). congruence.
    + clear IHl0. rewrite length_app in Hs. cbn in Hs.
      replace s with (S (a + length l0)) by lia. cbn [charBefore].
      rewrite (@charAt_split text (pre ++ l0) (core ++ r ++ post) c0
                 (a + length l0)).
      * cbn. apply Forall_app in Hl. destruct Hl as [_ Hl]. now inversion Hl.
      * rewrite Et at 1. now rewrite <- !app_assoc.
      * rewrite length_app. lia.
  - destruct r as [|c r'].
    + cbn in Hlens. replace (s + length core) with b by lia.
      destruct Hb as [->|Hb].
      * unfold charAt. now rewrite (proj2 (nth_error_None text (length text))).
      * apply isBoundaryAt_space in Hb. destruct Hb as [c [-> [_ Hsp]]].
        exact Hsp.
    + rewrite (@charAt_split text ((pre ++ l) ++ core) (r' ++ post) c
                 (s + length core)).
      * cbn. now inversion Hr.
      * rewrite Et at 1. now rewrite <- !app_assoc.
      * rewrite !length_app. lia.
Qed.

End Snippet.

(** ** The claim on the snippet *)

(** C8, as stated, fails: the paragraph TAB "npm install" with the term
    "install" gives the window [0, 12), which [trim] cuts down to
    "npm install"; the character of the paragraph before the "n" is the TAB,
    in bounds and neither a space nor a newline. *)
Lemma snippet_after_tab :
  let text := tab :: lit "npm install" in
  extractRelevantSnippet text [lit "install"] [] = lit "npm install"
  /\ charBefore text (coreStart text [lit "install"]) = Some tab
  /\ ~ wordSafe text [lit "install"].
Proof.
  cbv zeta. split; [vm_compute; reflexivity|].
  split; [vm_compute; reflexivity|].
  intro H. destruct H as [H _]; [vm_compute; discriminate|].
  vm_compute in H. destruct H as [H|H]; discriminate.
Qed.

(** C8, amended: the window starts at most 30 characters before the best
    offset and reaches 120 characters past it (or the end of the paragraph),
    each end moved outwards to the nearest space or newline, or to the end of
    the paragraph; the snippet is the trimmed text of that window between the
    optional ellipses, after the optional bold title; and the character of
    the paragraph just before its first character, and just after its last
    one, is a white-space character (a space, a newline, or another character
    that [trim] removes, such as a tab) or out of the bounds of the
    paragraph. *)
Theorem snippet_word_boundaries :
  forall (text : str) (queryTerms : list str) (title : str),
    let best := fst (bestMatch (toLowerCase text) queryTerms) in
    let startPos := fst (snippetWindow text queryTerms) in
    let endPos := snd (snippetWindow text queryTerms) in
    let core := snippetCore text queryTerms in
    let first := coreStart text queryTerms in
    let last := coreEnd text queryTerms in
    startPos <= best - 30
    /\ Nat.min (length text) (best + 120) <= endPos <= length text
    /\ (startPos = 0 \/ isBoundaryAt text startPos = true)
    /\ (endPos = length text \/ isBoundaryAt text endPos = true)
    /\ (forall j, startPos < j <= best - 30 -> isBoundaryAt text j = false)
    /\ (forall j, Nat.min (length text) (best + 120) <= j < endPos ->
                  isBoundaryAt text j = false)
    /\ extractRelevantSnippet text queryTerms title
       = (if nonEmpty title then lit "**" ++ title ++ lit "**: " else [])
         ++ (if 0 <? startPos then lit "..." else [])
         ++ core
         ++ (if endPos <? length text then lit "..." else [])
    /\ core = substring text first last
    /\ startPos <= first /\ last <= endPos
    /\ (core <> [] ->
        whitespaceOrOut (charBefore text first)
        /\ whitespaceOrOut (charAt text last)).
Proof.
  intros text queryTerms title best startPos endPos core first last.
  pose proof (bestMatch_bound (toLowerCase text) queryTerms) as Hbest.
  rewrite toLowerCase_length in Hbest. fold best in Hbest.
  assert (Ew : snippetWindow text queryTerms
               = (adjustStart text (best - 30),
                  adjustEnd text (Nat.min (length text) (best + 120)))).
  { unfold snippetWindow, MAX_SNIPPET_LENGTH. fold best.
    rewrite Nat.max_0_l. do 3 f_equal. lia. }
  destruct (adjustStart_spec text (best - 30)) as [S1 [S2 S3]].
  destruct (adjustEnd_spec text (Nat.min (length text) (best + 120)))
    as [E1 [E2 E3]]; [lia|].
  unfold startPos, endPos, core, first, last, coreEnd, coreStart, snippetCore,
    extractRelevantSnippet.
  rewrite Ew. cbn [fst snd].
  set (a := adjustStart text (best - 30)) in *.
  set (b := adjustEnd text (Nat.min (length text) (best + 120))) in *.
  destruct (@trimmed_window text a b) as [T1 [T2 [T3 T4]]];
    [lia|exact S2|exact E3|].
  split; [exact S1|]. split; [exact E1|]. split; [exact S2|].
  split; [exact E3|]. split; [exact S3|]. split; [exact E2|].
  split.
  { destruct (nonEmpty title), (0 <? a), (b <? length text);
      cbn [app]; rewrite <- ?app_assoc, ?app_nil_r; reflexivity. }
  split; [exact T1|]. split; [exact T2|]. split; [exact T3|exact T4].
Qed.

(** ** The matcher *)

Section Matcher.

Lemma advance_0 (x : mstate) : advance x 0 = x.
Proof. destruct x as [i s c]. unfold advance. cbn. now rewrite Nat.add_0_r. Qed.

Lemma orElse_None (a : option mstate) : orElse a None = a.
Proof. now destruct a. Qed.

Lemma firstSome_app (k : cont) (l1 l2 : list mstate) :
  firstSome k (l1 ++ l2) = orElse (firstSome k l1) (firstSome k l2).
Proof.
  induction l1 as [|y l1 IH]; cbn; [reflexivity|].
  rewrite IH. now destruct (k y).
Qed.

Lemma rmatch_Lit (l : str) (x : mstate) (k : cont) :
  rmatch (Lit l) x k
  = if startsWith (rest x) l then k (advance x (length l)) else None.
Proof.
  revert x. induction l as [|b l IH]; intro x.
  - cbn [Lit rmatch length]. rewrite advance_0. now destruct (rest x).
  - destruct x as [i s c]. cbn [Lit rmatch rest pos cap].
    destruct s as [|a s]; [reflexivity|].
    cbn [startsWith]. unfold eqc at 1. rewrite Ascii.eqb_sym. fold (eqc a b).
    destruct (eqc a b); [|reflexivity]. cbn [andb].
    rewrite IH. cbn [rest]. destruct (startsWith s l); [|reflexivity].
    unfold advance. cbn. now rewrite Nat.add_succ_r.
Qed.

Lemma starLoop_greedy (p : ascii -> bool)
    (step : mstate -> cont -> option mstate) (k : cont) (fuel : nat) :
  stepsOver p step ->
  forall (i : nat) (s : str) (c : option str),
    length s <= fuel ->
    starLoop step true k fuel (MState i s c)
    = firstSome k (greedyStates p i s c).
Proof.
  intro Hstep. induction fuel as [|fuel IH]; intros i s c Hlen.
  - destruct s; [|cbn in Hlen; lia]. cbn. now rewrite orElse_None.
  - cbn [starLoop]. rewrite Hstep. cbn [rmatch rest pos cap].
    destruct s as [|a s].
    + cbn. now rewrite orElse_None.
    + cbn [greedyStates]. destruct (p a).
      * replace (S i =? i) with false by (symmetry; apply Nat.eqb_neq; lia).
        rewrite IH by (cbn in Hlen; lia).
        rewrite firstSome_app. cbn. now rewrite orElse_None.
      * cbn. now rewrite orElse_None.
Qed.

Lemma starLoop_lazy (p : ascii -> bool)
    (step : mstate -> cont -> option mstate) (k : cont) (fuel : nat) :
  stepsOver p step ->
  forall (i : nat) (s : str) (c : option str),
    length s <= fuel ->
    starLoop step false k fuel (MState i s c)
    = firstSome k (lazyStates p i s c).
Proof.
  intro Hstep. induction fuel as [|fuel IH]; intros i s c Hlen.
  - destruct s; [|cbn in Hlen; lia]. cbn. now rewrite orElse_None.
  - cbn [starLoop]. rewrite Hstep. cbn [rmatch rest pos cap].
    destruct s as [|a s].
    + cbn. now rewrite orElse_None.
    + cbn [lazyStates]. destruct (p a).
      * replace (S i =? i) with false by (symmetry; apply Nat.eqb_neq; lia).
        rewrite IH by (cbn in Hlen; lia). reflexivity.
      * cbn. now rewrite orElse_None.
Qed.

(** The first state a greedy star offers is the one past the longest run;
    every other one stands before a character of the class. *)
Lemma greedyStates_shape (p : ascii -> bool) (s : str) :
  forall (i : nat) (c : option str),
  exists others,
    greedyStates p i s c
    = MState (i + spanLen p s) (skipn (spanLen p s) s) c :: others
    /\ Forall (fun y => exists a t, rest y = a :: t /\ p a = true) others.
Proof.
  induction s as [|a s IH]; intros i c.
  - exists []. cbn. rewrite Nat.add_0_r. now split.
  - cbn [greedyStates spanLen]. destruct (p a) eqn:E.
    + destruct (IH (S i) c) as [others [Ho Hf]]. rewrite Ho.
      exists (others ++ [MState i (a :: s) c]). split.
      * cbn. now rewrite Nat.add_succ_r.
      * apply Forall_app. split; [exact Hf|].
        constructor; [|constructor]. now exists a, s.
    + exists []. cbn. rewrite Nat.add_0_r. now split.
Qed.

Lemma firstSome_none (k : cont) (l : list mstate) :
  Forall (fun y => k y = None) l -> firstSome k l = None.
Proof.
  induction 1 as [|y l Hy Hl IH]; cbn; [reflexivity|]. now rewrite Hy.
Qed.

(** A greedy star over a class runs to the end of the longest run when its
    continuation accepts there, or when it refuses every state that stands
    before a character of the class. *)
Lemma starLoop_run (p : ascii -> bool)
    (step : mstate -> cont -> option mstate) (k : cont) (i : nat) (s : str)
    (c : option str) :
  stepsOver p step ->
  k (MState (i + spanLen p s) (skipn (spanLen p s) s) c) <> None
  \/ (forall y a t, rest y = a :: t -> p a = true -> k y = None) ->
  starLoop step true k (length s) (MState i s c)
  = k (MState (i + spanLen p s) (skipn (spanLen p s) s) c).
Proof.
  intros Hstep Hk. rewrite (starLoop_greedy p) by (trivial; lia).
  destruct (greedyStates_shape p s i c) as [others [-> Hf]].
  cbn [firstSome].
  destruct Hk as [Hk|Hk].
  - destruct (k _); [reflexivity|congruence].
  - rewrite (firstSome_none k others), orElse_None; [reflexivity|].
    eapply Forall_impl; [|exact Hf]. cbn.
    intros y [a [t [Hy Hp]]]. now apply (Hk y a t).
Qed.

Lemma spanLen_le (p : ascii -> bool) (s : str) : spanLen p s <= length s.
Proof. induction s as [|a s IH]; cbn; [lia|]. destruct (p a); cbn; lia. Qed.

Lemma spanLen_split (p : ascii -> bool) (s : str) :
  Forall (fun c => p c = true) (firstn (spanLen p s) s)
  /\ forall c t, skipn (spanLen p s) s = c :: t -> p c = false.
Proof.
  induction s as [|a s [IH1 IH2]]; cbn [spanLen].
  - split; [constructor|]. intros c t H. discriminate.
  - destruct (p a) eqn:E; cbn [firstn skipn].
    + split; [now constructor|exact IH2].
    + split; [constructor|]. intros c t H. now inversion H; subst.
Qed.

(** A run of [p] followed by a character outside [p], or by the end, is the
    longest run. *)
Lemma spanLen_unique (p : ascii -> bool) (run tail : str) :
  Forall (fun c => p c = true) run ->
  (forall c t, tail = c :: t -> p c = false) ->
  spanLen p (run ++ tail) = length run.
Proof.
  intros Hrun Htail. induction Hrun as [|a run Ha Hrun IH]; cbn.
  - destruct tail as [|c t]; [reflexivity|]. cbn.
    now rewrite (Htail c t eq_refl).
  - now rewrite Ha, IH.
Qed.

Lemma firstSome_some (k : cont) (l : list mstate) (z : mstate) :
  firstSome k l = Some z -> exists y, In y l /\ k y = Some z.
Proof.
  induction l as [|y l IH]; cbn [firstSome]; [discriminate|].
  destruct (k y) as [z'|] eqn:E; cbn [orElse].
  - intros [= <-]. exists y. split; [now left|exact E].
  - intro H. destruct (IH H) as [y' [Hin Hy]]. exists y'.
    split; [now right|exact Hy].
Qed.

(** Every state a lazy star offers lies behind a run of the class. *)
Lemma lazyStates_shape (p : ascii -> bool) (s : str) :
  forall (i : nat) (c : option str) (y : mstate),
    In y (lazyStates p i s c) ->
    exists n, pos y = i + n /\ Forall (fun a => p a = true) (firstn n s).
Proof.
  induction s as [|a s IH]; intros i c y Hin.
  - destruct Hin as [<-|[]]. exists 0. cbn. split; [lia|constructor].
  - cbn [lazyStates] in Hin. destruct (p a) eqn:E.
    + destruct Hin as [<-|Hin].
      * exists 0. cbn. split; [lia|constructor].
      * destruct (IH (S i) c y Hin) as [n [Hn Hf]]. exists (S n).
        split; [lia|]. cbn [firstn]. now constructor.
    + destruct Hin as [<-|[]]. exists 0. cbn. split; [lia|constructor].
Qed.

Lemma greedyStates_form (p : ascii -> bool) (s : str) :
  forall (i : nat) (c : option str) (y : mstate),
    In y (greedyStates p i s c) -> exists j t, y = MState j t c.
Proof.
  induction s as [|a s IH]; intros i c y Hin.
  - destruct Hin as [<-|[]]. now exists i, [].
  - cbn [greedyStates] in Hin. destruct (p a).
    + apply in_app_or in Hin. destruct Hin as [Hin|[<-|[]]].
      * now apply (IH (S i)).
      * now exists i, (a :: s).
    + destruct Hin as [<-|[]]. now exists i, (a :: s).
Qed.

End Matcher.

Ltac run_star p :=
  rewrite (starLoop_run p);
  [ | intros ? ?; reflexivity | left; discriminate ].

(** ** The separators of the section splitter *)

Section Separators.

Lemma matchAt_heading (i : nat) (s : str) :
  matchAt re_heading i s = option_map (found i s) (headingSepLen s).
Proof.
  unfold matchAt, re_heading, Plus, Opt, headingSepLen, found.
  cbn [rmatch rest pos cap orElse].
  destruct s as [|a s]; [reflexivity|].
  destruct (eqc nl a); [|now destruct s as [|b [|c t]]].
  destruct s as [|b s]; [reflexivity|].
  destruct (eqc "#" b); [|now destruct s as [|c t]].
  destruct s as [|c t]; [reflexivity|].
  destruct (eqc "#" c); [|reflexivity]. cbn [andb].
  destruct t as [|d t']; [reflexivity|].
  destruct (eqc "#" d) eqn:Ed.
  - assert (Hd : is_space d = false).
    { unfold eqc in Ed. apply Ascii.eqb_eq in Ed. now subst d. }
    rewrite Hd. rewrite orElse_None.
    destruct t' as [|e t'']; [reflexivity|].
    destruct (is_space e) eqn:Ee; [|reflexivity].
    run_star is_space.
    cbn [option_map pos cap spanLen]. rewrite Ee.
    do 2 f_equal. f_equal. lia.
  - cbn [orElse]. destruct (is_space d) eqn:Esp; [|reflexivity].
    run_star is_space.
    cbn [option_map pos cap spanLen]. rewrite Esp.
    do 2 f_equal. f_equal. lia.
Qed.

Lemma matchAt_blank (i : nat) (s : str) :
  matchAt re_blank i s = option_map (found i s) (blankSepLen s).
Proof.
  unfold matchAt, re_blank, Plus, blankSepLen, found.
  cbn [rmatch rest pos cap].
  destruct s as [|a s]; [reflexivity|].
  destruct (eqc nl a); [|now destruct s as [|b t]].
  destruct s as [|b t]; [reflexivity|].
  destruct (eqc nl b); [|reflexivity]. cbn [andb].
  run_star (eqc nl).
  cbn [option_map pos cap]. do 2 f_equal. f_equal. lia.
Qed.

End Separators.

Section SeparatorShapes.

Lemma eqc_eq (a b : ascii) : eqc a b = true <-> a = b.
Proof. apply Ascii.eqb_eq. Qed.

Lemma headingSepLen_spec (s : str) (n : nat) :
  headingSepLen s = Some n <-> headingSep s n.
Proof.
  split.
  - unfold headingSepLen.
    destruct s as [|a [|b [|c t]]]; try discriminate.
    destruct (eqc nl a) eqn:Ea; [|discriminate].
    destruct (eqc "#" b) eqn:Eb; [|discriminate].
    destruct (eqc "#" c) eqn:Ec; [|discriminate]. cbn [andb].
    apply eqc_eq in Ea, Eb, Ec. subst a b c.
    destruct t as [|d t']; [discriminate|].
    destruct (spanLen_split is_space (d :: t')) as [R1 R2].
    destruct (eqc "#" d) eqn:Ed.
    + apply eqc_eq in Ed. subst d.
      destruct t' as [|e t'']; [discriminate|].
      destruct (spanLen_split is_space (e :: t'')) as [Q1 Q2].
      destruct (is_space e) eqn:Ee; [|discriminate].
      intro H. inversion H; subst n. clear H.
      exists (lit "###"), (firstn (spanLen is_space (e :: t'')) (e :: t'')),
        (skipn (spanLen is_space (e :: t'')) (e :: t'')).
      split; [cbn [lit list_ascii_of_string app]; now rewrite firstn_skipn|].
      split.
      { rewrite firstn_length_le by apply spanLen_le. reflexivity. }
      split; [now right|]. split; [cbn; rewrite Ee; discriminate|].
      split; assumption.
    + destruct (is_space d) eqn:Esp; [|discriminate].
      intro H. inversion H; subst n. clear H.
      exists (lit "##"), (firstn (spanLen is_space (d :: t')) (d :: t')),
        (skipn (spanLen is_space (d :: t')) (d :: t')).
      split; [cbn [lit list_ascii_of_string app]; now rewrite firstn_skipn|].
      split.
      { rewrite firstn_length_le by apply spanLen_le. reflexivity. }
      split; [now left|]. split; [cbn; rewrite Esp; discriminate|].
      split; assumption.
  - intros [hashes [spaces [tail [Hs [Hn [Hh [Hne [Hsp Htail]]]]]]]].
    pose proof (spanLen_unique is_space spaces tail Hsp Htail) as Hrun.
    destruct spaces as [|d spaces']; [now contradiction Hne|].
    assert (Hd : is_space d = true) by now inversion Hsp.
    assert (Ed : eqc "#" d = false).
    { destruct (eqc "#" d) eqn:E; [|reflexivity].
      apply eqc_eq in E. subst d. discriminate. }
    destruct Hh as [-> | ->]; subst s n;
      cbn [lit list_ascii_of_string app headingSepLen length].
    + unfold eqc at 1 2 3. rewrite !Ascii.eqb_refl. cbn [andb].
      rewrite Ed, Hd. cbn [app] in Hrun. rewrite Hrun. reflexivity.
    + unfold eqc at 1 2 3 4. rewrite !Ascii.eqb_refl. cbn [andb].
      rewrite Hd. cbn [app] in Hrun. rewrite Hrun. reflexivity.
Qed.

Lemma repeat_nl_run (n : nat) :
  Forall (fun c => eqc nl c = true) (repeat nl n).
Proof. induction n; cbn; constructor; [reflexivity|assumption]. Qed.

Lemma run_is_repeat (l : str) :
  Forall (fun c => eqc nl c = true) l -> l = repeat nl (length l).
Proof.
  induction 1 as [|a l Ha Hl IH]; cbn; [reflexivity|].
  apply eqc_eq in Ha. subst a. now f_equal.
Qed.

Lemma blankSepLen_spec (s : str) (n : nat) :
  blankSepLen s = Some n <-> blankSep s n.
Proof.
  split.
  - unfold blankSepLen. destruct s as [|a [|b t]]; try discriminate.
    destruct (eqc nl a) eqn:Ea; [|discriminate].
    destruct (eqc nl b) eqn:Eb; [|discriminate]. cbn [andb].
    apply eqc_eq in Ea, Eb. subst a b.
    intro H. inversion H; subst n. clear H.
    destruct (spanLen_split (eqc nl) t) as [R1 R2].
    exists (skipn (spanLen (eqc nl) t) t). split.
    + cbn [repeat Nat.add app]. do 2 f_equal.
      rewrite <- (firstn_skipn (spanLen (eqc nl) t) t) at 1. f_equal.
      rewrite (run_is_repeat _ R1) at 1.
      now rewrite firstn_length_le by apply spanLen_le.
    + split; [lia|]. intros c u Hc Hnl. subst c.
      pose proof (R2 _ _ Hc) as F. unfold eqc in F.
      rewrite Ascii.eqb_refl in F. discriminate.
  - intros [tail [Hs [Hn Htail]]].
    destruct n as [|[|n]]; try lia. subst s.
    cbn [repeat app blankSepLen]. unfold eqc at 1 2.
    rewrite !Ascii.eqb_refl. cbn [andb].
    rewrite (spanLen_unique (eqc nl) (repeat nl n) tail).
    + now rewrite repeat_length.
    + apply repeat_nl_run.
    + intros c u Hc. destruct (eqc nl c) eqn:E; [|reflexivity].
      apply eqc_eq in E. symmetry in E. now apply (Htail c u) in E.
Qed.

End SeparatorShapes.

(** ** [split] cuts at the separators *)

Section SplitSpec.

Variable r : regex.
Variable sepLen : str -> option nat.
Variable sepAt : str -> nat -> Prop.
Hypothesis Hmatch :
  forall i s, matchAt r i s = option_map (found i s) (sepLen s).
Hypothesis Hsep : forall s n, sepLen s = Some n <-> sepAt s n.
Hypothesis Hpos : forall s n, sepLen s = Some n -> 1 <= n <= length s.

Lemma splitFrom_skip (k : nat) :
  forall (s : str) (i : nat) (acc : str),
    k <= length s ->
    splitFrom r i k acc s = splitFrom r (i + k) 0 acc (skipn k s).
Proof.
  induction k as [|k IH]; intros s i acc Hk.
  - now rewrite Nat.add_0_r.
  - destruct s as [|c s]; [cbn in Hk; lia|].
    cbn [splitFrom skipn]. rewrite IH by (cbn in Hk; lia).
    now rewrite Nat.add_succ_r.
Qed.

Lemma sepAt_nil (n : nat) : ~ sepAt [] n.
Proof. intro H. apply Hsep, Hpos in H. cbn in H. lia. Qed.

Lemma splitFrom_cut (m : nat) :
  forall (s : str) (i : nat) (acc : str),
    length s <= m ->
    (forall k n, k < length acc -> ~ sepAt (skipn k (rev acc ++ s)) n) ->
    cutAt sepAt (rev acc ++ s) (splitFrom r i 0 acc s).
Proof.
  induction m as [|m IH]; intros s i acc Hlen Hacc.
  - destruct s; [|cbn in Hlen; lia]. cbn [splitFrom].
    rewrite app_nil_r in *. apply cut_last. intros k n.
    destruct (Nat.lt_ge_cases k (length acc)) as [Hk|Hk]; [now apply Hacc|].
    rewrite skipn_all2 by (rewrite length_rev; lia). apply sepAt_nil.
  - destruct s as [|c s].
    + cbn [splitFrom]. rewrite app_nil_r in *. apply cut_last. intros k n.
      destruct (Nat.lt_ge_cases k (length acc)) as [Hk|Hk]; [now apply Hacc|].
      rewrite skipn_all2 by (rewrite length_rev; lia). apply sepAt_nil.
    + cbn [splitFrom]. rewrite Hmatch.
      destruct (sepLen (c :: s)) as [n|] eqn:E; cbn [option_map].
      * pose proof (Hpos _ _ E) as Hn.
        cbn [found m_text]. rewrite firstn_length_le by lia.
        rewrite splitFrom_skip by (cbn in Hn; lia).
        apply cut_more with (n := n).
        -- intros k j Hk. apply Hacc. now rewrite length_rev in Hk.
        -- now apply Hsep.
        -- replace (skipn (n - 1) s) with (skipn n (c :: s))
             by (destruct n; [lia|cbn; now rewrite Nat.sub_0_r]).
           apply (IH (skipn n (c :: s)) (S i + (n - 1)) []).
           ++ rewrite length_skipn. cbn [length] in *. lia.
           ++ intros k j Hk. cbn in Hk. lia.
      * replace (rev acc ++ c :: s) with (rev (c :: acc) ++ s)
          by (cbn; now rewrite <- app_assoc).
        apply IH; [cbn in Hlen; lia|].
        intros k n Hk. cbn [length] in Hk.
        destruct (Nat.eq_dec k (length acc)) as [->|Hne].
        -- cbn [rev]. rewrite <- app_assoc. cbn [app].
           rewrite skipn_app, skipn_all2 by (rewrite length_rev; lia).
           rewrite length_rev, Nat.sub_diag. cbn [skipn app].
           intro H. apply Hsep in H. congruence.
        -- cbn [rev]. rewrite <- app_assoc. cbn [app]. apply Hacc. lia.
Qed.

Lemma split_cut (s : str) : cutAt sepAt s (split r s).
Proof.
  unfold split. apply (splitFrom_cut (length s) s 0 []); [lia|].
  intros k n Hk. cbn in Hk. lia.
Qed.

End SplitSpec.

Section CutUnique.

Variable sepAt : str -> nat -> Prop.
Hypothesis sepAt_fun : forall s n m, sepAt s n -> sepAt s m -> n = m.

Lemma skipn_app_here (p t : str) : skipn (length p) (p ++ t) = t.
Proof. now rewrite skipn_app, skipn_all, Nat.sub_diag. Qed.

Lemma app_same_length (p1 t1 p2 t2 : str) :
  p1 ++ t1 = p2 ++ t2 -> length p1 = length p2 -> p1 = p2 /\ t1 = t2.
Proof.
  revert p2. induction p1 as [|a p1 IH]; intros [|b p2] H Hl;
    cbn in *; try lia; [now split|].
  inversion H; subst. destruct (IH p2) as [-> ->]; [assumption|lia|].
  now split.
Qed.

(** The pieces of a string are determined by its separators. *)
Lemma cutAt_unique (s : str) (l1 l2 : list str) :
  cutAt sepAt s l1 -> cutAt sepAt s l2 -> l1 = l2.
Proof.
  intro H1. revert l2.
  induction H1 as [s Hnone|p t n pieces Hp Ht Hrest IH]; intros l2 H2.
  - inversion H2 as [s' Hnone'|p' t' n' pieces' Hp' Ht' Hrest']; subst.
    + reflexivity.
    + exfalso. apply (Hnone (length p') n').
      now rewrite skipn_app_here.
  - inversion H2 as [s' Hnone'|p' t' n' pieces' Hp' Ht' Hrest' Es];
      subst.
    + exfalso. apply (Hnone' (length p) n). now rewrite skipn_app_here.
    + assert (Hlen : length p = length p').
      { destruct (Nat.lt_trichotomy (length p) (length p')) as [Hl|[Hl|Hl]].
        - exfalso. apply (Hp' (length p) n Hl).
          rewrite Es. now rewrite skipn_app_here.
        - exact Hl.
        - exfalso. apply (Hp (length p') n' Hl).
          rewrite <- Es. now rewrite skipn_app_here. }
      destruct (app_same_length _ _ _ _ Es (eq_sym Hlen)) as [-> ->].
      assert (n' = n) by now apply (sepAt_fun t). subst n'.
      f_equal. now apply IH.
Qed.

End CutUnique.

(** ** The title of a chunk *)

Section Title.

Lemma matchAt_first_line_later (i : nat) (s : str) :
  matchAt re_first_line (S i) s = None.
Proof. reflexivity. Qed.

Lemma execFrom_first_line_later (s : str) :
  forall i, execFrom re_first_line (S i) s = None.
Proof.
  induction s as [|c s IH]; intro i; cbn [execFrom];
    rewrite matchAt_first_line_later; [reflexivity|apply IH].
Qed.

Lemma matchAt_first_line (s : str) :
  matchAt re_first_line 0 s
  = match s with
    | c :: _ =>
        if negb (eqc c nl)
        then Some (MatchResult 0 (firstLine s) (Some (firstLine s)))
        else None
    | [] => None
    end.
Proof.
  unfold matchAt, re_first_line, Plus, firstLine.
  cbn [rmatch rest pos cap Nat.eqb].
  destruct s as [|c s]; [reflexivity|].
  destruct (negb (eqc c nl)) eqn:E; [|reflexivity].
  run_star (fun c => negb (eqc c nl)).
  cbn [pos rest cap spanLen]. rewrite E.
  rewrite Nat.sub_0_r. reflexivity.
Qed.

Lemma sectionTitle_spec (section : str) :
  sectionTitle section = trim (firstLine section).
Proof.
  unfold sectionTitle, exec. destruct section as [|c s]; [reflexivity|].
  cbn [execFrom]. rewrite matchAt_first_line.
  destruct (negb (eqc c nl)) eqn:E; [reflexivity|].
  rewrite execFrom_first_line_later.
  unfold firstLine. cbn [spanLen]. now rewrite E.
Qed.

End Title.

(** ** The claim on the section splitter *)

(** C9, as stated, fails: the paragraphs are cut from the whole chunk, not
    from what follows its title line.  The chunk "Stack", newline, "We use
    PostgreSQL." is one paragraph that starts with the title line. *)
Lemma title_line_in_first_paragraph :
  let section := lit "Stack" ++ [nl] ++ lit "We use PostgreSQL." in
  documentSections (lit "# Doc" ++ [nl] ++ lit "## " ++ section)
  = [lit "# Doc"; section]
  /\ sectionParagraphs section = [section]
  /\ specParagraphs section = [lit "We use PostgreSQL."]
  /\ sectionParagraphs section <> specParagraphs section.
Proof.
  cbv zeta. repeat split; try (vm_compute; reflexivity).
  vm_compute. discriminate.
Qed.

Lemma headingSep_fun (s : str) (n m : nat) :
  headingSep s n -> headingSep s m -> n = m.
Proof.
  rewrite <- !headingSepLen_spec. congruence.
Qed.

Lemma blankSep_fun (s : str) (n m : nat) :
  blankSep s n -> blankSep s m -> n = m.
Proof.
  rewrite <- !blankSepLen_spec. congruence.
Qed.

Lemma headingSepLen_bounds (s : str) (n : nat) :
  headingSepLen s = Some n -> 1 <= n <= length s.
Proof.
  intro H. apply headingSepLen_spec in H.
  destruct H as [hashes [spaces [tail [-> [-> _]]]]].
  cbn [length]. rewrite !length_app. lia.
Qed.

Lemma blankSepLen_bounds (s : str) (n : nat) :
  blankSepLen s = Some n -> 1 <= n <= length s.
Proof.
  intro H. apply blankSepLen_spec in H.
  destruct H as [tail [-> [Hn _]]].
  rewrite length_app, repeat_length. lia.
Qed.

(** C9, amended: the splitter cuts the body at each occurrence, read from
    the left, of a newline followed directly by two or three [#] and the
    whole run of white space after them (so a heading on the first line of
    the document, which no newline precedes, is not a cut); the pieces that
    are not empty are the chunks, in document order, the text before the
    first cut being the first of them; the title of a chunk is its first
    line, trimmed; and the paragraphs of a chunk are the pieces of the whole
    chunk, its first line included, cut at the runs of two or more
    newlines. *)
Theorem section_splitter_cuts :
  forall content : str,
    exists pieces,
      cutAt headingSep content pieces
      /\ (forall other, cutAt headingSep content other -> other = pieces)
      /\ documentSections content = filter nonEmpty pieces
      /\ forall section,
           In section (documentSections content) ->
           section <> []
           /\ sectionTitle section = trim (firstLine section)
           /\ cutAt blankSep section (sectionParagraphs section)
           /\ (forall other, cutAt blankSep section other ->
                             other = sectionParagraphs section).
Proof.
  intro content. exists (split re_heading content).
  assert (Hcut : cutAt headingSep content (split re_heading content)).
  { apply (split_cut re_heading headingSepLen headingSep).
    - apply matchAt_heading.
    - apply headingSepLen_spec.
    - apply headingSepLen_bounds. }
  split; [exact Hcut|]. split.
  { intros other Ho.
    apply (cutAt_unique headingSep headingSep_fun content); assumption. }
  split; [reflexivity|].
  intros section Hin.
  assert (Hpar : cutAt blankSep section (sectionParagraphs section)).
  { apply (split_cut re_blank blankSepLen blankSep).
    - apply matchAt_blank.
    - apply blankSepLen_spec.
    - apply blankSepLen_bounds. }
  split.
  { unfold documentSections in Hin. apply filter_In in Hin.
    destruct Hin as [_ Hne]. intros ->. discriminate. }
  split; [apply sectionTitle_spec|]. split; [exact Hpar|].
  intros other Ho.
  apply (cutAt_unique blankSep blankSep_fun section); assumption.
Qed.

(** ** The search in binary64 *)

Section Pipeline64.

Variable query : str.

Lemma searchSection64_spec (docType : str)
    (results : list Binary64.SearchResult) (section : str) :
  Binary64.searchSection query (queryTermsOf query) docType results section
  = results
    ++ map (paraHit64 query)
         (filter (aboveThreshold64 query) (sectionParas docType section)).
Proof.
  unfold Binary64.searchSection, Binary64.searchParagraph, sectionParas.
  rewrite (fold_push
             (fun paragraph =>
                PrimFloat.ltb 0.3%float
                  (Binary64.calculateRelevanceScore query (queryTermsOf query)
                     paragraph))
             (fun paragraph =>
                Binary64.mkSearchResult docType
                  (Binary64.calculateRelevanceScore query (queryTermsOf query)
                     paragraph)
                  (extractRelevantSnippet paragraph (queryTermsOf query)
                     (sectionTitle section)))).
  f_equal. induction (sectionParagraphs section) as [|a l IH]; cbn [map filter].
  - reflexivity.
  - unfold aboveThreshold64 at 1, paraScore64 at 1. cbn [paraText snd].
    destruct (PrimFloat.ltb _ _); cbn [map]; now rewrite IH.
Qed.

Lemma searchDocument64_spec (results : list Binary64.SearchResult)
    (entry : str * str) :
  Binary64.searchDocument query (queryTermsOf query) results entry
  = results
    ++ map (paraHit64 query)
         (filter (aboveThreshold64 query) (documentParas entry)).
Proof.
  destruct entry as [docType content]. unfold Binary64.searchDocument.
  rewrite (fold_append
             (fun section =>
                map (paraHit64 query)
                  (filter (aboveThreshold64 query)
                     (sectionParas docType section))))
    by (intros; apply searchSection64_spec).
  unfold documentParas. cbn [fst snd].
  now rewrite filter_flat_map, map_flat_map.
Qed.

Lemma collectResults64_spec (documents : list (str * str)) :
  Binary64.collectResults query documents
  = map (paraHit64 query)
      (filter (aboveThreshold64 query) (corpusParas documents)).
Proof.
  unfold Binary64.collectResults.
  rewrite (fold_append
             (fun entry =>
                map (paraHit64 query)
                  (filter (aboveThreshold64 query) (documentParas entry))))
    by (intros; apply searchDocument64_spec).
  cbn [app]. unfold corpusParas.
  now rewrite filter_flat_map, map_flat_map.
Qed.

End Pipeline64.

Lemma heading_cut (content : str) :
  cutAt headingSep content (split re_heading content).
Proof.
  apply (split_cut re_heading headingSepLen headingSep).
  - apply matchAt_heading.
  - apply headingSepLen_spec.
  - apply headingSepLen_bounds.
Qed.

Lemma blank_cut (section : str) :
  cutAt blankSep section (sectionParagraphs section).
Proof.
  apply (split_cut re_blank blankSepLen blankSep).
  - apply matchAt_blank.
  - apply blankSepLen_spec.
  - apply blankSepLen_bounds.
Qed.

Lemma corpusParas_origin (documents : list (str * str)) (x : Para) :
  In x (corpusParas documents) ->
  exists name content section,
    In (name, content) documents
    /\ In section (documentSections content)
    /\ In (paraText x) (sectionParagraphs section)
    /\ paraDoc x = name
    /\ paraTitle x = sectionTitle section.
Proof.
  unfold corpusParas. intro H. apply in_flat_map in H.
  destruct H as [[name content] [Hd H]].
  unfold documentParas in H. cbn [fst snd] in H. apply in_flat_map in H.
  destruct H as [section [Hs H]].
  unfold sectionParas in H. apply in_map_iff in H.
  destruct H as [paragraph [<- Hp]].
  exists name, content, section. now repeat split.
Qed.

(** The paragraphs the search meets are the pieces of the chunks of the
    documents. *)
Lemma corpusParas_pieces (documents : list (str * str)) (x : Para) :
  In x (corpusParas documents)
  <-> exists content chunks section paragraphs,
        In (paraDoc x, content) documents
        /\ cutAt headingSep content chunks
        /\ In section chunks /\ section <> []
        /\ cutAt blankSep section paragraphs
        /\ In (paraText x) paragraphs
        /\ paraTitle x = sectionTitle section.
Proof.
  split.
  - intro H. apply corpusParas_origin in H.
    destruct H as [name [content [section [Hd [Hs [Hp [Hn Ht]]]]]]].
    unfold documentSections in Hs. apply filter_In in Hs.
    destruct Hs as [Hs Hne].
    exists content, (split re_heading content), section,
      (sectionParagraphs section).
    rewrite Hn. split; [exact Hd|]. split; [apply heading_cut|].
    split; [exact Hs|]. split; [now destruct section|].
    split; [apply blank_cut|]. now split.
  - intros [content [chunks [section [paragraphs
             [Hd [Hc [Hs [Hne [Hb [Hp Ht]]]]]]]]]].
    rewrite (cutAt_unique headingSep headingSep_fun _ _ _ Hc
               (heading_cut content)) in Hs.
    rewrite (cutAt_unique blankSep blankSep_fun _ _ _ Hb
               (blank_cut section)) in Hp.
    unfold corpusParas. apply in_flat_map.
    exists (paraDoc x, content). split; [exact Hd|].
    unfold documentParas. cbn [fst snd]. apply in_flat_map.
    exists section. split.
    + unfold documentSections. apply filter_In. split; [exact Hs|].
      now destruct section.
    + unfold sectionParas. apply in_map_iff. exists (paraText x).
      split; [|exact Hp]. rewrite <- Ht.
      now destruct x as [[d t] p].
Qed.

(** C4: before the cut to 5, the hits are, in encounter order, exactly the
    paragraphs whose score, as the program computes it in binary64, is
    strictly greater than 0.3: a paragraph of a chunk of a document has its
    hit in the results exactly when its score is above the threshold, and
    every hit scores above it.  When no paragraph of the corpus scores above
    0.3 the search returns the empty array. *)
Theorem hits_above_threshold :
  forall (query : str) (documents : list (str * str)),
    let results := Binary64.collectResults query documents in
    let score paragraph :=
      Binary64.calculateRelevanceScore query (queryTermsOf query) paragraph in
    results
    = map (paraHit64 query)
        (filter (aboveThreshold64 query) (corpusParas documents))
    /\ (forall docType content chunks section paragraphs paragraph,
          In (docType, content) documents ->
          cutAt headingSep content chunks ->
          In section chunks -> section <> [] ->
          cutAt blankSep section paragraphs ->
          In paragraph paragraphs ->
          (PrimFloat.ltb 0.3%float (score paragraph) = true
           <-> In (Binary64.mkSearchResult docType (score paragraph)
                     (extractRelevantSnippet paragraph (queryTermsOf query)
                        (sectionTitle section)))
                  results))
    /\ (forall h,
          In h results ->
          PrimFloat.ltb 0.3%float (Binary64.relevanceScore h) = true)
    /\ ((forall docType content chunks section paragraphs paragraph,
           In (docType, content) documents ->
           cutAt headingSep content chunks ->
           In section chunks -> section <> [] ->
           cutAt blankSep section paragraphs ->
           In paragraph paragraphs ->
           PrimFloat.ltb 0.3%float (score paragraph) = false) ->
        Binary64.performAdvancedSearch query documents = []).
Proof.
  intros query documents results score.
  assert (Er : results
               = map (paraHit64 query)
                   (filter (aboveThreshold64 query) (corpusParas documents)))
    by apply collectResults64_spec.
  split; [exact Er|]. split; [|split].
  - intros docType content chunks section paragraphs paragraph
      Hd Hc Hs Hne Hb Hp.
    assert (Hx : In (docType, sectionTitle section, paragraph)
                   (corpusParas documents)).
    { apply corpusParas_pieces.
      exists content, chunks, section, paragraphs. now repeat split. }
    rewrite Er. split.
    + intro Habove.
      apply (in_map (paraHit64 query)
               (filter (aboveThreshold64 query) (corpusParas documents))
               (docType, sectionTitle section, paragraph)).
      apply filter_In. split; [exact Hx|exact Habove].
    + intro Hin. apply in_map_iff in Hin. destruct Hin as [x' [Hh Hf]].
      apply filter_In in Hf. destruct Hf as [_ Ha].
      apply (f_equal Binary64.relevanceScore) in Hh.
      cbn [Binary64.relevanceScore paraHit64] in Hh.
      unfold aboveThreshold64 in Ha. now rewrite Hh in Ha.
  - intros h Hin. rewrite Er in Hin. apply in_map_iff in Hin.
    destruct Hin as [x [<- Hf]]. apply filter_In in Hf.
    now destruct Hf as [_ Ha].
  - intro Hnone. unfold Binary64.performAdvancedSearch. fold results.
    rewrite Er, filter_none; [reflexivity|].
    intros x Hx. apply corpusParas_pieces in Hx.
    destruct Hx as [content [chunks [section [paragraphs
                     [Hd [Hc [Hs [Hne [Hb [Hp _]]]]]]]]]].
    exact (Hnone (paraDoc x) content chunks section paragraphs (paraText x)
             Hd Hc Hs Hne Hb Hp).
Qed.

Example search64_threshold :
  let terms := lit "alpha bravo charlie delta echoes foxtrot golfer hotels india juliet kilos limas mikes november oscar papas" in
  map Binary64.documentType
    (Binary64.performAdvancedSearch terms
       [(lit "notes", lit "alpha and bravo only")])
  = [lit "notes"]
  /\ performAdvancedSearch terms [(lit "notes", lit "alpha and bravo only")]
     = [].
Proof. split; vm_compute; reflexivity. Qed.

(** ** The file manager: the fallback workflow *)

Section Labels.

Lemma matchAt_label_absent (l : str) (r' : regex) (i : nat) (s : str) :
  startsWith s l = false -> matchAt (Cat (Lit l) r') i s = None.
Proof.
  intro H. unfold matchAt. cbn [rmatch]. rewrite rmatch_Lit. cbn [rest].
  now rewrite H.
Qed.

Lemma execFrom_label_absent (l : str) (r' : regex) (s : str) :
  includes s l = false -> forall i, execFrom (Cat (Lit l) r') i s = None.
Proof.
  induction s as [|c s IH]; intros H i; cbn [includes] in H;
    apply orb_false_iff in H; destruct H as [H1 H2]; cbn [execFrom];
    rewrite (matchAt_label_absent l r' i _ H1); [reflexivity|now apply IH].
Qed.

Lemma exec_label_absent (l : str) (r' : regex) (s : str) :
  includes s l = false -> exec (Cat (Lit l) r') s = None.
Proof. intro H. now apply execFrom_label_absent. Qed.

End Labels.

(** C5: [getDocumentWorkflow] always returns a workflow.  When the rules
    file cannot be read, the pattern cannot be built or no section matches
    the type, it is the fixed fallback: a generic purpose, "As needed", the
    placeholder section and one synthesized [update_document] command
    (["update_document progress"] for the type "progress").  When a section
    matches, each field whose label does not occur in it takes the same
    default (the purpose being the generic "Information about <type>"). *)
Theorem workflow_fallback :
  forall (RegExp_i : str -> option (str -> option rmatch_result))
         (directory : Directory) (documentType : str),
    let workflow := getDocumentWorkflow RegExp_i directory documentType in
    (byterules directory = None
     \/ (exists rules,
           byterules directory = Some rules
           /\ (RegExp_i (sectionPattern documentType) = None
               \/ exists regex,
                    RegExp_i (sectionPattern documentType) = Some regex
                    /\ regex rules = None)) ->
     workflow
     = mkWorkflow (lit "Information about " ++ documentType ++ lit " document")
         (lit "As needed") [lit "No specific structure defined"]
         [lit "update_document " ++ toLowerCase documentType])
    /\ (forall rules regex m,
          byterules directory = Some rules ->
          RegExp_i (sectionPattern documentType) = Some regex ->
          regex rules = Some m ->
          (includes (m_text m) (lit "**Purpose**:") = false ->
           purpose workflow = lit "Information about " ++ documentType)
          /\ (includes (m_text m) (lit "**When to Update**:") = false ->
              updateTiming workflow = lit "As needed")
          /\ (includes (m_text m) (lit "**Structure**:") = false ->
              structure workflow = [lit "No specific structure defined"])
          /\ (includes (m_text m) (lit "**Commands**:") = false ->
              commands workflow
              = [lit "update_document " ++ toLowerCase documentType]))
    /\ (documentType = lit "progress" ->
        commands (fallbackWorkflow documentType)
        = [lit "update_document progress"]).
Proof.
  intros RegExp_i directory documentType workflow.
  unfold workflow, getDocumentWorkflow. split; [|split].
  - intros [H|[rules [Hr [H|[regex [Hre Hm]]]]]].
    + now rewrite H.
    + now rewrite Hr, H.
    + now rewrite Hr, Hre, Hm.
  - intros rules regex m Hr Hre Hm. rewrite Hr, Hre, Hm.
    unfold parseWorkflow, re_line_field, re_block_field.
    repeat split; intro H; cbn [purpose updateTiming structure commands];
      now rewrite (exec_label_absent _ _ _ H).
  - intros ->. reflexivity.
Qed.

(** The stock rules describe the progress document and no document named
    "tech Context". *)
Lemma workflow_fallback_witness :
  getDocumentWorkflow RegExp_plain (mkDirectory (Some progressRules) None)
    (lit "techContext")
  = mkWorkflow (lit "Information about techContext document")
      (lit "As needed") [lit "No specific structure defined"]
      [lit "update_document techcontext"]
  /\ structure
       (getDocumentWorkflow RegExp_plain
          (mkDirectory (Some progressRules) None) (lit "progress"))
     = [lit "No specific structure defined"].
Proof.
  pose proof (workflow_fallback RegExp_plain
                (mkDirectory (Some progressRules) None) (lit "techContext"))
    as [H1 _].
  pose proof (workflow_fallback RegExp_plain
                (mkDirectory (Some progressRules) None) (lit "progress"))
    as [_ [H2 _]].
  split.
  - apply H1. right. exists progressRules. split; [reflexivity|].
    right. exists (exec (re_section (lit "tech Context"))).
    split; vm_compute; reflexivity.
  - destruct (exec (re_section (lit "progress")) progressRules) as [m|] eqn:E;
      [|vm_compute in E; discriminate].
    apply (H2 progressRules (exec (re_section (lit "progress"))) m);
      [reflexivity|vm_compute; reflexivity|exact E|].
    vm_compute in E. injection E as <-. vm_compute. reflexivity.
Defined.

Example fallback_progress :
  getDocumentWorkflow RegExp_plain (mkDirectory (Some (lit "# Rules")) None)
    (lit "progress")
  = mkWorkflow (lit "Information about progress document") (lit "As needed")
      [lit "No specific structure defined"] [lit "update_document progress"].
Proof. vm_compute. reflexivity. Qed.

(** ** The file manager: the consistency analysis *)

Section Analysis.

Variable RegExp_i : str -> option (str -> option rmatch_result).
Variable Date_fallback : str -> Date.
Variable LocalTZA : Z -> bool -> Z.

Lemma checkSection_thrown (content : str) (l : list str) :
  fold_left (checkSection RegExp_i content) l Thrown = Thrown.
Proof. induction l as [|a l IH]; cbn; [reflexivity|exact IH]. Qed.

Lemma checkSection_ok (content : str) (acc : list str) (section : str) :
  checkSection RegExp_i content (Ok acc) section
  = if sectionAbsent RegExp_i content section then Ok (acc ++ [section])
    else match RegExp_i (lit "##\s*" ++ section) with
         | Some _ => Ok acc
         | None => Thrown
         end.
Proof.
  unfold checkSection, sectionAbsent. cbn [bind].
  destruct (RegExp_i _) as [sectionRegex|]; [|reflexivity].
  now destruct (sectionRegex content).
Qed.

Lemma findMissing_from (content : str) (l : list str) :
  forall acc missing,
    fold_left (checkSection RegExp_i content) l (Ok acc) = Ok missing ->
    missing = acc ++ filter (sectionAbsent RegExp_i content) l.
Proof.
  induction l as [|section l IH]; intros acc missing H; cbn [fold_left] in H.
  - injection H as <-. now rewrite app_nil_r.
  - rewrite checkSection_ok in H. cbn [filter].
    destruct (sectionAbsent RegExp_i content section).
    + apply IH in H. rewrite H. now rewrite <- app_assoc.
    + destruct (RegExp_i _); [now apply IH|].
      rewrite checkSection_thrown in H. discriminate.
Qed.

Lemma findMissingSections_spec (structure : list str) (content : str)
    (missing : list str) :
  findMissingSections RegExp_i structure content = Ok missing ->
  missing = filter (sectionAbsent RegExp_i content) structure.
Proof. intro H. now apply findMissing_from in H. Qed.

Lemma analyzeDocument_thrown (directory : Directory) (now : Z)
    (l : list (str * str)) :
  fold_left (analyzeDocument RegExp_i Date_fallback LocalTZA directory now) l Thrown = Thrown.
Proof. induction l as [|a l IH]; cbn; [reflexivity|exact IH]. Qed.

Lemma analyzeDocument_ok (directory : Directory) (now : Z)
    (acc : list Analysis) (entry : str * str) :
  analyzeDocument RegExp_i Date_fallback LocalTZA directory now (Ok acc) entry
  = if isStandard entry
    then match findMissingSections RegExp_i
                 (structure (getDocumentWorkflow RegExp_i directory (fst entry)))
                 (snd entry) with
         | Ok missingSections =>
             Ok (acc ++ [verdict (fst entry) missingSections
                           (checkNeedsUpdate Date_fallback LocalTZA now (snd entry))])
         | Thrown => Thrown
         end
    else Ok acc.
Proof.
  destruct entry as [docName content].
  unfold analyzeDocument, isStandard. cbn [bind fst snd].
  now destruct (arrayIncludes standardDocuments docName).
Qed.

Lemma analyze_from (directory : Directory) (now : Z) (l : list (str * str)) :
  forall acc entries,
    fold_left (analyzeDocument RegExp_i Date_fallback LocalTZA directory now) l (Ok acc) = Ok entries ->
    entries = acc ++ map (entryOf RegExp_i Date_fallback LocalTZA directory now) (filter isStandard l).
Proof.
  induction l as [|entry l IH]; intros acc entries H; cbn [fold_left] in H.
  - injection H as <-. now rewrite app_nil_r.
  - rewrite analyzeDocument_ok in H. cbn [filter].
    destruct (isStandard entry); [|now apply IH].
    destruct (findMissingSections _ _ _) as [missing|] eqn:E.
    + apply IH in H. rewrite H, <- app_assoc. cbn [map app].
      do 2 f_equal. unfold entryOf.
      now rewrite (findMissingSections_spec _ _ _ E).
    + rewrite analyzeDocument_thrown in H. discriminate.
Qed.

Lemma verdict_policy (docName : str) (missing : list str) (stale : bool) :
  a_documentType (verdict docName missing stale) = docName
  /\ (missing <> [] ->
      a_status (verdict docName missing stale) = needs_update
      /\ a_recommendation (verdict docName missing stale)
         = lit "Missing sections: " ++ join (lit ", ") missing)
  /\ (missing = [] -> stale = true ->
      a_status (verdict docName missing stale) = needs_update
      /\ a_recommendation (verdict docName missing stale)
         = lit "Document may need updating (last update over 30 days ago)")
  /\ (missing = [] -> stale = false ->
      a_status (verdict docName missing stale) = good
      /\ a_recommendation (verdict docName missing stale)
         = lit "Document follows the structure defined in ByteRules").
Proof.
  unfold verdict. destruct missing as [|x missing]; cbn [length Nat.ltb Nat.leb].
  - destruct stale; repeat split; try congruence; try discriminate.
  - repeat split; try congruence; try discriminate.
Qed.

End Analysis.

Lemma Forall2_map_right {A B : Type} (P : A -> B -> Prop) (f : A -> B)
    (l : list A) :
  (forall a, P a (f a)) -> Forall2 P l (map f l).
Proof.
  intro H. induction l as [|a l IH]; cbn; constructor; [apply H|exact IH].
Qed.

(** ** The marker of the last update *)

Ltac next_char s c :=
  destruct s as [|c s]; [reflexivity|]; cbn [firstn skipn hasShape].

Ltac test_char p :=
  destruct p; cbn [andb]; [|reflexivity].

Section Marker.

Lemma space_not_digit (a : ascii) : is_space a = true -> is_digit a = false.
Proof.
  unfold is_space, is_digit. intro H.
  destruct (48 <=? code a) eqn:E1; [|reflexivity].
  destruct (code a <=? 57) eqn:E2; [|reflexivity].
  apply Nat.leb_le in E1, E2.
  apply orb_true_iff in H. destruct H as [H|H].
  - apply orb_true_iff in H. destruct H as [H|H].
    + apply andb_true_iff in H. destruct H as [_ H]. apply Nat.leb_le in H. lia.
    + apply Nat.eqb_eq in H. lia.
  - apply Nat.eqb_eq in H. lia.
Qed.

Lemma rmatch_iso_date (y : mstate) :
  rmatch re_iso_date y (fun z => Some z)
  = if isDateShape (firstn 10 (rest y))
    then Some (MState (pos y + 10) (skipn 10 (rest y))
                 (Some (firstn 10 (rest y))))
    else None.
Proof.
  destruct y as [i s c]. unfold re_iso_date, digit, chr, Times, isDateShape.
  cbn [rmatch rest pos cap].
  next_char s y1. test_char (is_digit y1).
  next_char s y2. test_char (is_digit y2).
  next_char s y3. test_char (is_digit y3).
  next_char s y4. test_char (is_digit y4).
  next_char s h1. test_char (eqc "-" h1).
  next_char s m1. test_char (is_digit m1).
  next_char s m2. test_char (is_digit m2).
  next_char s h2. test_char (eqc "-" h2).
  next_char s d1. test_char (is_digit d1).
  next_char s d2. test_char (is_digit d2).
  replace (S (S (S (S (S (S (S (S (S (S i))))))))) - i) with 10 by lia.
  replace (S (S (S (S (S (S (S (S (S (S i)))))))))) with (i + 10) by lia.
  reflexivity.
Qed.

(** A date does not start with a white-space character. *)
Lemma isDateShape_head (a : ascii) (t : str) :
  is_space a = true -> isDateShape (firstn 10 (a :: t)) = false.
Proof.
  intro H. unfold isDateShape. cbn [firstn hasShape].
  now rewrite (space_not_digit a H).
Qed.

Lemma matchAt_last_updated (i : nat) (s : str) :
  matchAt re_last_updated i s
  = option_map
      (fun d => MatchResult i
                  (firstn (13 + spanLen is_space (skipn 13 s) + 10) s) (Some d))
      (markerDate s).
Proof.
  unfold matchAt, re_last_updated, markerDate.
  cbn [rmatch]. rewrite rmatch_Lit. cbn [rest].
  destruct (startsWith s (lit "Last Updated:")); [|reflexivity].
  unfold advance. cbn [pos rest cap length lit list_ascii_of_string].
  rewrite (starLoop_run is_space).
  - rewrite rmatch_iso_date. cbn [rest pos cap]. cbv zeta.
    destruct (isDateShape _); [|reflexivity].
    cbn [option_map pos cap]. do 3 f_equal. lia.
  - intros x k. reflexivity.
  - right. intros y a t Hy Ha. rewrite rmatch_iso_date, Hy.
    now rewrite isDateShape_head.
Qed.

Lemma startsWith_app (s p : str) :
  startsWith s p = true <-> s = p ++ skipn (length p) s.
Proof.
  revert s. induction p as [|b p IH]; intro s; cbn [startsWith].
  - destruct s; cbn; now split.
  - destruct s as [|a s]; [split; discriminate|].
    cbn [length skipn app startsWith]. rewrite andb_true_iff, eqc_eq, IH.
    split; [intros [-> H]; now f_equal|].
    intro H. injection H as -> H. now split.
Qed.

Lemma hasShape_length (shape : list (ascii -> bool)) (s : str) :
  hasShape shape s = true -> length s = length shape.
Proof.
  revert s. induction shape as [|p shape IH]; intros [|c s] H;
    cbn in *; try discriminate; [reflexivity|].
  apply andb_true_iff in H. destruct H as [_ H]. f_equal. now apply IH.
Qed.

Lemma isDateShape_digit (d : str) :
  isDateShape d = true ->
  length d = 10 /\ exists c t, d = c :: t /\ is_digit c = true.
Proof.
  intro H. split; [now apply hasShape_length in H|].
  destruct d as [|c t]; [discriminate|]. exists c, t. split; [reflexivity|].
  unfold isDateShape in H. cbn [hasShape] in H.
  now apply andb_true_iff in H.
Qed.

Lemma markerDate_spec (s d : str) :
  markerDate s = Some d <-> markerAt s d.
Proof.
  unfold markerDate, markerAt. split.
  - destruct (startsWith s (lit "Last Updated:")) eqn:E; [|discriminate].
    apply startsWith_app in E. cbv zeta.
    set (s1 := skipn 13 s) in *.
    destruct (isDateShape _) eqn:Ed; [|discriminate].
    intro H.
    assert (Hd : d = firstn 10 (skipn (spanLen is_space s1) s1))
      by congruence.
    subst d. clear H.
    exists (firstn (spanLen is_space s1) s1),
      (skipn 10 (skipn (spanLen is_space s1) s1)).
    split; [|split; [apply spanLen_split|exact Ed]].
    rewrite firstn_skipn, firstn_skipn. exact E.
  - intros [spaces [tail [-> [Hsp Hd]]]].
    destruct (isDateShape_digit d Hd) as [Hlen [c [t [-> Hc]]]].
    assert (E : startsWith (lit "Last Updated:" ++ spaces ++ (c :: t) ++ tail)
                  (lit "Last Updated:") = true).
    { apply startsWith_app. now rewrite skipn_app_here. }
    rewrite E. cbv zeta.
    change 13 with (length (lit "Last Updated:")).
    rewrite skipn_app_here.
    rewrite (spanLen_unique is_space spaces ((c :: t) ++ tail)); [|exact Hsp|].
    + rewrite skipn_app_here.
      rewrite <- Hlen, firstn_app, firstn_all, Nat.sub_diag, firstn_O, app_nil_r.
      now rewrite Hd.
    + intros c' t' H. cbn [app] in H. injection H as <- _.
      destruct (is_space c) eqn:Es; [|reflexivity].
      apply space_not_digit in Es. congruence.
Qed.

Lemma markerAt_nil (d : str) : ~ markerAt [] d.
Proof. intros [spaces [tail [H _]]]. discriminate. Qed.

(** [exec] returns the match at the first index where one begins. *)
Lemma execFrom_last_updated (s : str) :
  forall i,
    match execFrom re_last_updated i s with
    | Some m =>
        exists k d,
          m_group m = Some d
          /\ markerAt (skipn k s) d
          /\ forall j d', j < k -> ~ markerAt (skipn j s) d'
    | None => forall k d, ~ markerAt (skipn k s) d
    end.
Proof.
  induction s as [|c s IH]; intro i; cbn [execFrom];
    rewrite matchAt_last_updated.
  - cbn. intros k d. rewrite skipn_nil. apply markerAt_nil.
  - destruct (markerDate (c :: s)) as [d|] eqn:E; cbn [option_map].
    + exists 0, d. cbn [m_group skipn]. split; [reflexivity|].
      split; [now apply markerDate_spec|]. intros j d' Hj. lia.
    + specialize (IH (S i)).
      assert (Hhere : forall d, ~ markerAt (c :: s) d).
      { intros d H. apply markerDate_spec in H. congruence. }
      destruct (execFrom re_last_updated (S i) s) as [m|].
      * destruct IH as [k [d [Hg [Hm Hfirst]]]].
        exists (S k), d. split; [exact Hg|]. split; [exact Hm|].
        intros [|j] d' Hj; [apply Hhere|]. apply Hfirst. lia.
      * intros [|k] d; [apply Hhere|apply IH].
Qed.

Lemma firstMarker_unique (content : str) (k k' : nat) (d d' : str) :
  firstMarker content k d -> firstMarker content k' d' -> k = k' /\ d = d'.
Proof.
  intros [Hm Hf] [Hm' Hf'].
  assert (k = k').
  { destruct (Nat.lt_trichotomy k k') as [H|[H|H]]; [|exact H|].
    - now apply (Hf' k d) in H.
    - now apply (Hf k' d') in H. }
  subst k'. split; [reflexivity|].
  apply markerDate_spec in Hm, Hm'. congruence.
Qed.

End Marker.

(** ** The calendar *)

(** The count of days steps by the length of each year, and the epoch is
    day 0: [DayFromYear y] is the number of days from 1 January 1970 to
    1 January of the year [y]. *)
Lemma quotient_4 (y : Z) :
  ((y - 1968) / 4 = (y - 1969) / 4 + (if y mod 4 =? 0 then 1 else 0))%Z.
Proof.
  destruct (y mod 4 =? 0)%Z eqn:E; rewrite ?Z.eqb_eq, ?Z.eqb_neq in E;
    Z.div_mod_to_equations; lia.
Qed.

Lemma quotient_100 (y : Z) :
  ((y - 1900) / 100 = (y - 1901) / 100 + (if y mod 100 =? 0 then 1 else 0))%Z.
Proof.
  destruct (y mod 100 =? 0)%Z eqn:E; rewrite ?Z.eqb_eq, ?Z.eqb_neq in E;
    Z.div_mod_to_equations; lia.
Qed.

Lemma quotient_400 (y : Z) :
  ((y - 1600) / 400 = (y - 1601) / 400 + (if y mod 400 =? 0 then 1 else 0))%Z.
Proof.
  destruct (y mod 400 =? 0)%Z eqn:E; rewrite ?Z.eqb_eq, ?Z.eqb_neq in E;
    Z.div_mod_to_equations; lia.
Qed.

Lemma DayFromYear_step (y : Z) :
  DayFromYear (y + 1) = (DayFromYear y + if isLeap y then 366 else 365)%Z.
Proof.
  unfold DayFromYear, isLeap.
  replace (y + 1 - 1970)%Z with (y - 1969)%Z by lia.
  replace (y + 1 - 1969)%Z with (y - 1968)%Z by lia.
  replace (y + 1 - 1901)%Z with (y - 1900)%Z by lia.
  replace (y + 1 - 1601)%Z with (y - 1600)%Z by lia.
  rewrite quotient_4, quotient_100, quotient_400.
  assert (H100 : (y mod 100 = 0 -> y mod 4 = 0)%Z)
    by (intro H; Z.div_mod_to_equations; lia).
  assert (H400 : (y mod 400 = 0 -> y mod 100 = 0)%Z)
    by (intro H; Z.div_mod_to_equations; lia).
  destruct (y mod 4 =? 0)%Z eqn:E4;
    destruct (y mod 100 =? 0)%Z eqn:E100;
    destruct (y mod 400 =? 0)%Z eqn:E400;
    cbn [andb orb negb];
    rewrite ?Z.eqb_eq, ?Z.eqb_neq in *; lia.
Qed.

Lemma daysBeforeMonth_step (y m : Z) :
  (1 <= m <= 11)%Z ->
  daysBeforeMonth y (m + 1) = (daysBeforeMonth y m + daysInMonth y m)%Z.
Proof.
  intro Hm. unfold daysBeforeMonth, daysInMonth.
  assert (Hcases : (m = 1 \/ m = 2 \/ m = 3 \/ m = 4 \/ m = 5 \/ m = 6
                    \/ m = 7 \/ m = 8 \/ m = 9 \/ m = 10 \/ m = 11)%Z)
    by lia.
  destruct (isLeap y);
    repeat (destruct Hcases as [->|Hcases]; [reflexivity|]);
    subst m; reflexivity.
Qed.

Example Date_parse_epoch :
  forall Date_fallback,
    Date_parse Date_fallback (lit "1970-01-01") = Some 0%Z
    /\ Date_parse Date_fallback (lit "1969-12-31") = Some (- 86400000)%Z
    /\ Date_parse Date_fallback (lit "2000-03-01") = Some 951868800000%Z
    /\ Date_parse Date_fallback (lit "2024-02-29") = Some 1709164800000%Z
    /\ Date_parse Date_fallback (lit "0001-01-01") = Some (- 62135596800000)%Z
    /\ Date_parse Date_fallback (lit "2023-02-29")
       = Date_fallback (lit "2023-02-29").
Proof.
  intro f. repeat (split; [vm_compute; reflexivity|]). vm_compute.
  reflexivity.
Qed.

(** ** The claim on the staleness flag *)



(** ** Headings *)

Section Headings.

Lemma firstSome_found (k : cont) (l : list mstate) (y : mstate) :
  In y l -> k y <> None -> firstSome k l <> None.
Proof.
  induction l as [|a l IH]; intros Hin Hk; [contradiction|].
  cbn [firstSome]. destruct Hin as [->|Hin].
  - destruct (k y); [discriminate|contradiction].
  - destruct (k a); [discriminate|]. cbn [orElse]. now apply IH.
Qed.

Lemma firstSome_iff (k : cont) (l : list mstate) :
  firstSome k l <> None <-> exists y, In y l /\ k y <> None.
Proof.
  split.
  - destruct (firstSome k l) as [z|] eqn:E; [|contradiction].
    intros _. apply firstSome_some in E. destruct E as [y [Hin Hy]].
    exists y. split; [exact Hin|congruence].
  - intros [y [Hin Hy]]. now apply (firstSome_found k l y).
Qed.

(** The states a greedy star offers: one behind each initial part of the
    run. *)
Lemma greedyStates_mem (p : ascii -> bool) (s : str) :
  forall (i : nat) (c : option str) (y : mstate),
    In y (greedyStates p i s c)
    <-> exists j,
          Forall (fun a => p a = true) (firstn j s)
          /\ j <= length s
          /\ y = MState (i + j) (skipn j s) c.
Proof.
  induction s as [|a s IH]; intros i c y.
  - cbn [greedyStates In]. split.
    + intros [<-|[]]. exists 0. cbn. rewrite Nat.add_0_r.
      split; [constructor|]. split; [lia|reflexivity].
    + intros [j [_ [Hj ->]]]. left. cbn in Hj.
      replace j with 0 by lia. cbn. now rewrite Nat.add_0_r.
  - cbn [greedyStates]. destruct (p a) eqn:E.
    + rewrite in_app_iff, IH. cbn [In]. split.
      * intros [[j [Hf [Hj ->]]]|[<-|[]]].
        -- exists (S j). cbn [firstn skipn length].
           split; [now constructor|]. split; [lia|]. f_equal. lia.
        -- exists 0. cbn. rewrite Nat.add_0_r.
           split; [constructor|]. split; [lia|reflexivity].
      * intros [[|j] [Hf [Hj ->]]].
        -- right. left. cbn. now rewrite Nat.add_0_r.
        -- left. exists j. cbn [firstn skipn length] in *.
           split; [now inversion Hf|]. split; [lia|]. f_equal. lia.
    + cbn [In]. split.
      * intros [<-|[]]. exists 0. cbn. rewrite Nat.add_0_r.
        split; [constructor|]. split; [lia|reflexivity].
      * intros [[|j] [Hf [Hj ->]]].
        -- left. cbn. now rewrite Nat.add_0_r.
        -- cbn [firstn] in Hf. inversion Hf; subst. congruence.
Qed.

Lemma rmatch_LitCI (l : str) (x : mstate) (k : cont) :
  rmatch (LitCI l) x k
  = if startsWithCI (rest x) l then k (advance x (length l)) else None.
Proof.
  revert x. induction l as [|b l IH]; intro x.
  - cbn [LitCI rmatch length]. rewrite advance_0. now destruct (rest x).
  - destruct x as [i s c]. cbn [LitCI rmatch rest pos cap].
    destruct s as [|a s]; [reflexivity|].
    cbn [startsWithCI].
    destruct (eqc (lower_char a) (lower_char b)); [|reflexivity].
    cbn [andb]. rewrite IH. cbn [rest].
    destruct (startsWithCI s l); [|reflexivity].
    unfold advance. cbn. now rewrite Nat.add_succ_r.
Qed.

Lemma startsWithCI_spec (p : str) :
  forall s,
    startsWithCI s p = true
    <-> exists name after,
          s = name ++ after /\ toLowerCase name = toLowerCase p.
Proof.
  unfold toLowerCase. induction p as [|b p IH]; intro s.
  - split; [intros _; now exists [], s|]. intros _. now destruct s.
  - destruct s as [|a s]; cbn [startsWithCI].
    + split; [discriminate|]. intros [name [after [H1 H2]]].
      symmetry in H1. apply app_eq_nil in H1. destruct H1 as [-> _].
      discriminate.
    + rewrite andb_true_iff, eqc_eq, IH. split.
      * intros [Hc [name [after [-> Hn]]]]. exists (a :: name), after.
        split; [reflexivity|]. cbn [map]. now rewrite Hc, Hn.
      * intros [[|a' name] [after [H1 H2]]]; [discriminate|].
        cbn [app map] in H1, H2. injection H1 as <- ->.
        injection H2 as Hc Hn.
        split; [exact Hc|]. now exists name, after.
Qed.

Lemma matchAt_has_heading (text : str) (i : nat) (s : str) :
  matchAt (re_has_heading text) i s <> None
  <-> exists spaces name after,
        s = lit "##" ++ spaces ++ name ++ after
        /\ Forall (fun c => is_space c = true) spaces
        /\ toLowerCase name = toLowerCase text.
Proof.
  unfold matchAt, re_has_heading. cbn [rmatch]. rewrite rmatch_Lit.
  cbn [rest]. destruct (startsWith s (lit "##")) eqn:E.
  - apply startsWith_app in E. cbn [length lit list_ascii_of_string] in E.
    unfold advance. cbn [pos rest cap length lit list_ascii_of_string].
    rewrite (starLoop_greedy is_space)
      by (try (intros ? ?; reflexivity); cbn [rest]; lia).
    set (k := fun y : mstate => rmatch (LitCI text) y (fun z => Some z)).
    assert (Hk : forall y, k y <> None <-> startsWithCI (rest y) text = true).
    { intro y. unfold k. rewrite rmatch_LitCI.
      destruct (startsWithCI (rest y) text); split; congruence. }
    assert (Hsome : forall o : option mstate,
               match o with
               | Some y => Some (MatchResult i (firstn (pos y - i) s) (cap y))
               | None => None
               end <> None <-> o <> None).
    { intros [y|]; split; congruence. }
    rewrite Hsome, firstSome_iff. split.
    + intros [y [Hin Hy]]. apply greedyStates_mem in Hin.
      destruct Hin as [j [Hf [Hj ->]]]. apply Hk in Hy. cbn [rest] in Hy.
      apply startsWithCI_spec in Hy. destruct Hy as [name [after [Hs Hn]]].
      exists (firstn j (skipn 2 s)), name, after.
      split; [|split; assumption].
      rewrite <- Hs, firstn_skipn. exact E.
    + intros [spaces [name [after [-> [Hsp Hn]]]]].
      exists (MState (i + 2 + length spaces) (name ++ after) None). split.
      * apply greedyStates_mem. exists (length spaces).
        cbn [skipn app lit list_ascii_of_string].
        rewrite firstn_app, firstn_all, Nat.sub_diag, firstn_O, app_nil_r.
        split; [exact Hsp|]. split; [rewrite length_app; lia|].
        now rewrite skipn_app_here.
      * apply Hk. cbn [rest]. apply startsWithCI_spec. now exists name, after.
  - split; [congruence|]. intros [spaces [name [after [-> _]]]].
    cbn [lit list_ascii_of_string app] in E.
    destruct (spaces ++ name ++ after); vm_compute in E; discriminate E.
Qed.

Lemma execFrom_found (r : regex) (s : str) :
  forall i,
    execFrom r i s <> None
    <-> exists k, k <= length s /\ matchAt r (i + k) (skipn k s) <> None.
Proof.
  induction s as [|c s IH]; intro i; cbn [execFrom].
  - split.
    + intro H. exists 0. rewrite Nat.add_0_r. split; [lia|].
      cbn [skipn]. now destruct (matchAt r i []).
    + intros [k [Hk H]]. cbn in Hk. replace k with 0 in H by lia.
      rewrite Nat.add_0_r in H. cbn [skipn] in H.
      now destruct (matchAt r i []).
  - destruct (matchAt r i (c :: s)) as [m|] eqn:E.
    + split; [|discriminate]. intros _. exists 0. rewrite Nat.add_0_r.
      cbn [skipn]. split; [cbn; lia|]. rewrite E. discriminate.
    + rewrite IH. split.
      * intros [k [Hk H]]. exists (S k). cbn [skipn length].
        split; [lia|]. now rewrite Nat.add_succ_r.
      * intros [[|k] [Hk H]].
        -- rewrite Nat.add_0_r in H. cbn [skipn] in H. congruence.
        -- exists k. cbn [skipn length] in *. split; [lia|].
           now rewrite Nat.add_succ_r in H.
Qed.

(** The pattern of a plain section name finds the documents with a heading
    for the section, and no others. *)
Lemma has_heading_spec (text content : str) :
  exec (re_has_heading text) content <> None <-> headingOccurs text content.
Proof.
  unfold exec, headingOccurs. rewrite execFrom_found. split.
  - intros [k [Hk H]]. apply matchAt_has_heading in H.
    destruct H as [spaces [name [after [Hs [Hsp Hn]]]]].
    exists (firstn k content), spaces, name, after.
    split; [|split; assumption].
    now rewrite <- Hs, firstn_skipn.
  - intros [before [spaces [name [after [-> [Hsp Hn]]]]]].
    exists (length before). split; [rewrite length_app; lia|].
    rewrite skipn_app_here. apply matchAt_has_heading.
    now exists spaces, name, after.
Qed.

Lemma RegExp_plain_headings : headingPatterns RegExp_plain.
Proof.
  intros section Hplain. exists (exec (re_has_heading section)).
  split; [|intro content; apply has_heading_spec].
  unfold RegExp_plain.
  change (lit "##\s*" ++ section)
    with ("#"%char :: "#"%char :: "\"%char :: "s"%char :: "*"%char :: section).
  cbn [lit list_ascii_of_string stripPrefix].
  replace (eqc "#" "#") with true by reflexivity.
  replace (eqc "\" "#") with false by reflexivity.
  replace (eqc "\" "\") with true by reflexivity.
  replace (eqc "s" "s") with true by reflexivity.
  replace (eqc "*" "*") with true by reflexivity.
  cbn [andb]. now rewrite Hplain.
Qed.

End Headings.

(** ** The outcome of the analysis *)

Section Outcome.

Variable RegExp_i : str -> option (str -> option rmatch_result).
Variable Date_fallback : str -> Date.
Variable LocalTZA : Z -> bool -> Z.

Lemma findMissing_thrown (content : str) (l : list str) :
  (exists section,
     In section l /\ RegExp_i (lit "##\s*" ++ section) = None) ->
  forall acc, fold_left (checkSection RegExp_i content) l (Ok acc) = Thrown.
Proof.
  induction l as [|s l IH]; intros [section [Hin Hnone]] acc;
    [contradiction|].
  cbn [fold_left]. rewrite checkSection_ok.
  destruct Hin as [->|Hin].
  - unfold sectionAbsent. rewrite Hnone. apply checkSection_thrown.
  - destruct (sectionAbsent RegExp_i content s); [apply IH; eauto|].
    destruct (RegExp_i (lit "##\s*" ++ s));
      [apply IH; eauto|apply checkSection_thrown].
Qed.

Lemma findMissing_returns (content : str) (l : list str) :
  (forall section, In section l -> RegExp_i (lit "##\s*" ++ section) <> None) ->
  forall acc,
    exists missing,
      fold_left (checkSection RegExp_i content) l (Ok acc) = Ok missing.
Proof.
  induction l as [|s l IH]; intros Hvalid acc; cbn [fold_left];
    [now exists acc|].
  rewrite checkSection_ok.
  assert (Hl : forall section,
             In section l -> RegExp_i (lit "##\s*" ++ section) <> None)
    by (intros section Hin; apply Hvalid; now right).
  destruct (sectionAbsent RegExp_i content s); [now apply IH|].
  destruct (RegExp_i (lit "##\s*" ++ s)) eqn:E; [now apply IH|].
  exfalso. apply (Hvalid s); [now left|exact E].
Qed.

Lemma analyze_thrown (directory : Directory) (now : Z)
    (l : list (str * str)) :
  (exists entry section,
     In entry (filter isStandard l)
     /\ In section
          (structure (getDocumentWorkflow RegExp_i directory (fst entry)))
     /\ RegExp_i (lit "##\s*" ++ section) = None) ->
  forall acc,
    fold_left (analyzeDocument RegExp_i Date_fallback LocalTZA directory now)
      l (Ok acc) = Thrown.
Proof.
  induction l as [|e l IH]; intros [entry [section [Hin [Hsec Hnone]]]] acc;
    [contradiction|].
  cbn [fold_left]. rewrite analyzeDocument_ok. cbn [filter] in Hin.
  destruct (isStandard e).
  - destruct Hin as [->|Hin].
    + unfold findMissingSections.
      rewrite findMissing_thrown by (exists section; now split).
      apply analyzeDocument_thrown.
    + destruct (findMissingSections _ _ _);
        [apply IH; eauto|apply analyzeDocument_thrown].
  - apply IH; eauto.
Qed.

Lemma analyze_returns (directory : Directory) (now : Z)
    (l : list (str * str)) :
  (forall entry section,
     In entry (filter isStandard l) ->
     In section
       (structure (getDocumentWorkflow RegExp_i directory (fst entry))) ->
     RegExp_i (lit "##\s*" ++ section) <> None) ->
  forall acc,
    exists entries,
      fold_left (analyzeDocument RegExp_i Date_fallback LocalTZA directory now)
        l (Ok acc) = Ok entries.
Proof.
  induction l as [|e l IH]; intros Hvalid acc; cbn [fold_left];
    [now exists acc|].
  rewrite analyzeDocument_ok. cbn [filter] in Hvalid.
  destruct (isStandard e).
  - destruct (findMissing_returns (snd e)
                (structure (getDocumentWorkflow RegExp_i directory (fst e)))
                (fun section Hs => Hvalid e section (or_introl eq_refl) Hs)
                []) as [missing Hm].
    unfold findMissingSections. rewrite Hm. apply IH.
    intros entry section Hin. apply Hvalid. now right.
  - now apply IH.
Qed.

End Outcome.

(** ** The claim on the analysis policy *)




(** ** Rounding

    The counterexamples above stand in binary64: two terms out of two give
    exactly 1.0, and two matches out of three differ from one out of three.
    The rationals and the doubles part at one point: for two matches out of
    sixteen terms (one eighth, with the bonus) the rational score is 3/10,
    not above the threshold, while the double 0.1 + 0.2 is
    0.30000000000000004, above the double 0.3.  For queries of up to 200
    terms that is the only kind of disagreement on the threshold. *)

Lemma score64_terms (query : str) (terms : list str) (text : str) :
  includes (toLowerCase text) (toLowerCase query) = false ->
  Binary64.calculateRelevanceScore query terms text
  = termScore64 (countMatches (toLowerCase text) terms) (length terms).
Proof. unfold Binary64.calculateRelevanceScore, termScore64. now intros ->. Qed.

Example binary64_threshold_agreement :
  forallb
    (fun n =>
       forallb
         (fun m =>
            Bool.eqb (PrimFloat.ltb 0.3%float (termScore64 m n))
              (Qltb (3 # 10) (termScore m n) || (2 <=? m) && (n =? 8 * m)))
         (seq 0 (S n)))
    (seq 0 201)
  = true.
Proof. vm_compute. reflexivity. Qed.

Example binary64_full_score :
  PrimFloat.eqb (termScore64 2 2) 1 = true
  /\ (termScore 2 2 == 1)%Q.
Proof. split; vm_compute; reflexivity. Qed.

Example binary64_repeated_term :
  PrimFloat.eqb (termScore64 2 3) (termScore64 1 3) = false.
Proof. vm_compute. reflexivity. Qed.

Example binary64_threshold :
  PrimFloat.ltb 0.3 (termScore64 2 16) = true
  /\ Qltb (3 # 10) (termScore 2 16) = false.
Proof. split; vm_compute; reflexivity. Qed.

(** * Further properties of the search engine *)

(** ** The scorer at its edges *)

Lemma termScore_above (m n : nat) :
  m <= n -> 0 < n ->
  Qltb (3 # 10) (termScore m n) = true
  <-> (m = 1 /\ n <= 2) \/ (2 <= m /\ n < 8 * m).
Proof.
  intros Hmn Hn. rewrite Qltb_lt. unfold termScore.
  apply Nat.ltb_lt in Hn as En. rewrite En. apply Nat.ltb_lt in En.
  rewrite (nat2Q_ratio m n Hn).
  assert (Hp : Z.pos (Pos.of_nat n) = Z.of_nat n) by lia.
  revert Hp. generalize (Pos.of_nat n). intros p Hp.
  destruct (2 <=? m) eqn:Em;
    [apply Nat.leb_le in Em | apply Nat.leb_gt in Em];
    unfold Qlt, Qplus, Qmult; simpl; rewrite ?Pos2Z.inj_mul; lia.
Qed.

(** X1: a paragraph that holds neither the phrase nor any of the terms
    scores 0 (also for an empty term list and for an empty paragraph) and
    leaves the results as they are. *)
Theorem no_term_no_score :
  forall (query : str) (terms : list str) (text : str),
    includes (toLowerCase text) (toLowerCase query) = false ->
    (forall t, In t terms -> includes (toLowerCase text) t = false) ->
    (calculateRelevanceScore query terms text == 0)%Q
    /\ forall docType title results,
         searchParagraph query terms docType title results text = results.
Proof.
  intros query terms text Hno Hnone.
  assert (Hm : countMatches (toLowerCase text) terms = 0).
  { rewrite countMatches_filter, filter_none; [reflexivity|exact Hnone]. }
  assert (Hs : (calculateRelevanceScore query terms text == 0)%Q).
  { rewrite (score_terms _ _ _ Hno), Hm. unfold termScore.
    destruct (0 <? length terms); cbn [Nat.leb]; [|reflexivity].
    unfold nat2Q. cbn [Z.of_nat]. unfold Qdiv. ring. }
  split; [exact Hs|].
  intros docType title results. unfold searchParagraph.
  destruct (Qltb _ _) eqn:E; [|reflexivity].
  apply Qltb_lt in E. rewrite Hs in E. discriminate.
Qed.

(** The query "kubernetes operator" against a paragraph about something
    else. *)
Lemma no_term_no_score_witness :
  (calculateRelevanceScore (lit "kubernetes operator")
     [lit "kubernetes"; lit "operator"] (lit "Unrelated filler text.") == 0)%Q.
Proof.
  apply (no_term_no_score (lit "kubernetes operator")
           [lit "kubernetes"; lit "operator"] (lit "Unrelated filler text.")).
  - vm_compute. reflexivity.
  - intros t [<-|[<-|[]]]; vm_compute; reflexivity.
Defined.



(** ** Letter case and the empty query *)

Lemma lower_char_idem (c : ascii) : lower_char (lower_char c) = lower_char c.
Proof. destruct c as [[] [] [] [] [] [] [] []]; reflexivity. Qed.

Lemma toLowerCase_idem (s : str) : toLowerCase (toLowerCase s) = toLowerCase s.
Proof.
  unfold toLowerCase. rewrite map_map. apply map_ext. apply lower_char_idem.
Qed.

Lemma score_by_lower_case (q q' : str) (terms : list str) (text text' : str) :
  toLowerCase q = toLowerCase q' ->
  toLowerCase text = toLowerCase text' ->
  calculateRelevanceScore q terms text = calculateRelevanceScore q' terms text'.
Proof. intros Hq Ht. unfold calculateRelevanceScore. now rewrite Hq, Ht. Qed.

Lemma search_by_lower_case (q q' : str) (documents : list (str * str)) :
  toLowerCase q = toLowerCase q' ->
  performAdvancedSearch q documents = performAdvancedSearch q' documents.
Proof.
  intro Hq. unfold performAdvancedSearch. rewrite !collectResults_spec.
  assert (Ht : queryTermsOf q = queryTermsOf q')
    by (unfold queryTermsOf; now rewrite Hq).
  assert (Hs : forall x, paraScore q x = paraScore q' x).
  { intro x. unfold paraScore. rewrite Ht.
    now apply score_by_lower_case. }
  unfold hitsOf. do 2 f_equal.
  rewrite (filter_ext (aboveThreshold q) (aboveThreshold q'))
    by (intro x; unfold aboveThreshold; now rewrite Hs).
  apply map_ext. intro x. unfold paraHit. now rewrite Hs, Ht.
Qed.

(** X3: the search does not depend on the letter case of the query: two
    queries with the same lower-cased text give the same hits, scores and
    snippets, and a query gives what its lower-cased text gives.  The score
    of a paragraph depends on the paragraph through its lower-cased text
    only. *)
Theorem search_ignores_case :
  forall (q q' : str) (documents : list (str * str)),
    toLowerCase q = toLowerCase q' ->
    performAdvancedSearch q documents = performAdvancedSearch q' documents
    /\ performAdvancedSearch (toLowerCase q) documents
       = performAdvancedSearch q documents
    /\ forall terms text text',
         toLowerCase text = toLowerCase text' ->
         calculateRelevanceScore q terms text
         = calculateRelevanceScore q' terms text'.
Proof.
  intros q q' documents Hq. split; [now apply search_by_lower_case|].
  split; [apply search_by_lower_case, toLowerCase_idem|].
  intros terms text text' Ht. now apply score_by_lower_case.
Qed.

(** "POSTGRESQL" and "PostgreSQL" find the same. *)
Lemma search_ignores_case_witness :
  performAdvancedSearch (lit "POSTGRESQL")
    [(lit "techContext", lit "We use PostgreSQL for storage.")]
  = performAdvancedSearch (lit "PostgreSQL")
      [(lit "techContext", lit "We use PostgreSQL for storage.")].
Proof.
  apply (search_ignores_case (lit "POSTGRESQL") (lit "PostgreSQL")).
  vm_compute. reflexivity.
Defined.

Lemma includes_nil (s : str) : includes s [] = true.
Proof. destruct s; reflexivity. Qed.

Lemma sort_length (l : list SearchResult) :
  length (Array_sort byRelevance l) = length l.
Proof. apply Permutation_length, sort_perm. Qed.

(** X4: the engine does not refuse the empty query: it has no term, every
    paragraph of every chunk contains it and scores 1.0, so the hits are the
    first five paragraphs the search meets, whatever they say. *)
Theorem empty_query_matches_all :
  forall documents : list (str * str),
    collectResults [] documents
    = map (fun x => mkSearchResult (paraDoc x) 1%Q
                      (extractRelevantSnippet (paraText x) [] (paraTitle x)))
        (corpusParas documents)
    /\ length (performAdvancedSearch [] documents)
       = Nat.min 5 (length (corpusParas documents)).
Proof.
  intro documents.
  assert (Hs : forall x, paraScore [] x = 1%Q).
  { intro x. unfold paraScore. apply score_exact. apply includes_nil. }
  assert (Hc : collectResults [] documents
               = map (fun x => mkSearchResult (paraDoc x) 1%Q
                                 (extractRelevantSnippet (paraText x) []
                                    (paraTitle x)))
                   (corpusParas documents)).
  { rewrite collectResults_spec. unfold hitsOf.
    rewrite (filter_ext (aboveThreshold []) (fun _ => true)).
    - rewrite forallb_filter_id by (now apply forallb_forall).
      apply map_ext. intro x. unfold paraHit. now rewrite Hs.
    - intro x. unfold aboveThreshold. now rewrite Hs. }
  split; [exact Hc|].
  unfold performAdvancedSearch, slice0.
  rewrite length_firstn, sort_length, Hc, length_map. reflexivity.
Qed.

(** ** Pieces of a split *)

Section Pieces.

Lemma startsWith_prefix (p b : str) : startsWith (p ++ b) p = true.
Proof.
  induction p as [|c p IH]; [now destruct b|].
  cbn [app startsWith]. unfold eqc. now rewrite Ascii.eqb_refl, IH.
Qed.

Lemma includes_infix (s p : str) : includes s p = true <-> infix p s.
Proof.
  split.
  - induction s as [|c s IH]; cbn [includes]; intro H;
      apply orb_true_iff in H; destruct H as [H|H]; try discriminate.
    + apply startsWith_app in H. exists [], (skipn (length p) []). exact H.
    + apply startsWith_app in H. exists [], (skipn (length p) (c :: s)).
      exact H.
    + destruct (IH H) as [a [b ->]]. now exists (c :: a), b.
  - intros [a [b ->]]. induction a as [|c a IH].
    + cbn [app]. destruct (p ++ b) eqn:E; cbn [includes];
        rewrite <- E, startsWith_prefix; reflexivity.
    + cbn [app includes]. rewrite IH. apply orb_true_r.
Qed.

Lemma infix_trans (p q s : str) : infix p q -> infix q s -> infix p s.
Proof.
  intros [a [b ->]] [c [d ->]]. exists (c ++ a), (b ++ d).
  now rewrite <- !app_assoc.
Qed.

Variable sepAt : str -> nat -> Prop.

(** Every piece of a cut stands in the string, and no separator starts
    inside it. *)
Lemma cutAt_piece (s : str) (pieces : list str) :
  cutAt sepAt s pieces ->
  forall p, In p pieces ->
    exists a b,
      s = a ++ p ++ b
      /\ forall k m, k < length p -> ~ sepAt (skipn k (p ++ b)) m.
Proof.
  induction 1 as [s Hnone|p t n pieces Hp Ht Hrest IH]; intros q Hq.
  - destruct Hq as [<-|[]]. exists [], []. split; [now rewrite app_nil_r|].
    intros k m _. rewrite app_nil_r. apply Hnone.
  - destruct Hq as [<-|Hq].
    + exists [], t. split; [reflexivity|exact Hp].
    + destruct (IH q Hq) as [a [b [E Hin]]].
      exists (p ++ firstn n t ++ a), b. split; [|exact Hin].
      rewrite <- !app_assoc. f_equal.
      rewrite <- (firstn_skipn n t) at 1. f_equal. exact E.
Qed.

Lemma cutAt_nonempty (s : str) (pieces : list str) :
  cutAt sepAt s pieces -> pieces <> [].
Proof. destruct 1; discriminate. Qed.

End Pieces.

(** ** The terms of a query *)

Lemma matchAt_spaces (i : nat) (s : str) :
  matchAt re_spaces i s = option_map (found i s) (spaceSepLen s).
Proof.
  unfold matchAt, re_spaces, Plus, spaceSepLen, found.
  cbn [rmatch rest pos cap].
  destruct s as [|c t]; [reflexivity|].
  destruct (is_space c); [|reflexivity].
  run_star is_space.
  cbn [option_map pos cap]. do 3 f_equal. lia.
Qed.

Lemma spaceSepLen_spec (s : str) (n : nat) :
  spaceSepLen s = Some n <-> spaceSep s n.
Proof.
  unfold spaceSepLen, spaceSep. destruct s as [|c t]; cbn [spanLen].
  - split; [discriminate|]. intros [H ->]. lia.
  - destruct (is_space c).
    + split; [intros [= <-]; split; [lia|reflexivity]|].
      intros [_ ->]. reflexivity.
    + split; [discriminate|]. intros [H ->]. lia.
Qed.

Lemma spaceSepLen_bounds (s : str) (n : nat) :
  spaceSepLen s = Some n -> 1 <= n <= length s.
Proof.
  intro H. apply spaceSepLen_spec in H. destruct H as [H ->].
  split; [exact H|apply spanLen_le].
Qed.

Lemma no_space_in_piece (p b : str) :
  (forall k m, k < length p -> ~ spaceSep (skipn k (p ++ b)) m) ->
  Forall (fun c => is_space c = false) p.
Proof.
  intro H. induction p as [|c p IH]; [constructor|].
  constructor.
  - destruct (is_space c) eqn:E; [|reflexivity]. exfalso.
    apply (H 0 (spanLen is_space ((c :: p) ++ b))); [cbn; lia|].
    split; [|reflexivity]. cbn [app spanLen]. rewrite E. lia.
  - apply IH. intros k m Hk. apply (H (S k) m). cbn [length]. lia.
Qed.

Lemma lower_piece (s a p b : str) :
  toLowerCase s = a ++ p ++ b -> toLowerCase p = p.
Proof.
  unfold toLowerCase. intro H.
  apply map_eq_app in H. destruct H as [sa [s' [_ [_ H]]]].
  apply map_eq_app in H. destruct H as [sp [sb [_ [H _]]]].
  rewrite <- H, map_map. apply map_ext. apply lower_char_idem.
Qed.

(** X5: every term derived from a query has at least three characters,
    holds no white-space character, is in lower case and occurs in the
    lower-cased query. *)
Theorem query_terms_shape :
  forall (query term : str),
    In term (queryTermsOf query) ->
    3 <= length term
    /\ Forall (fun c => is_space c = false) term
    /\ toLowerCase term = term
    /\ includes (toLowerCase query) term = true.
Proof.
  intros query term Hin. unfold queryTermsOf in Hin.
  apply filter_In in Hin. destruct Hin as [Hin Hlen].
  apply Nat.ltb_lt in Hlen.
  pose proof (split_cut re_spaces spaceSepLen spaceSep matchAt_spaces
                spaceSepLen_spec spaceSepLen_bounds (toLowerCase query))
    as Hcut.
  destruct (cutAt_piece spaceSep _ _ Hcut term Hin) as [a [b [E Hno]]].
  split; [lia|]. split; [now apply (no_space_in_piece term b)|].
  split; [now apply (lower_piece query a term b)|].
  apply includes_infix. now exists a, b.
Qed.

(** The terms of "Deploy the API to staging". *)
Lemma query_terms_shape_witness :
  queryTermsOf (lit "Deploy the API to staging")
  = [lit "deploy"; lit "the"; lit "api"; lit "staging"]
  /\ includes (toLowerCase (lit "Deploy the API to staging")) (lit "api") = true.
Proof.
  split; [vm_compute; reflexivity|].
  apply (query_terms_shape (lit "Deploy the API to staging") (lit "api")).
  vm_compute. right. right. left. reflexivity.
Defined.

(** ** Chunks and paragraphs *)

Section Weave.

Variable sepAt : str -> nat -> Prop.
Variable sepText : str -> Prop.
Hypothesis sepAt_text : forall t n, sepAt t n -> sepText (firstn n t).

Lemma cutAt_weave (s : str) (pieces : list str) :
  cutAt sepAt s pieces ->
  exists seps,
    length pieces = S (length seps)
    /\ weave pieces seps = s
    /\ Forall sepText seps.
Proof.
  induction 1 as [s Hnone|p t n pieces Hp Ht Hrest [seps [Hl [Hw Hf]]]].
  - exists []. now repeat split.
  - exists (firstn n t :: seps). split; [cbn; lia|]. split.
    + destruct pieces as [|q pieces]; [discriminate|].
      cbn [weave]. cbn [weave] in Hw. rewrite Hw.
      now rewrite firstn_skipn.
    + constructor; [now apply sepAt_text|exact Hf].
Qed.

End Weave.

Lemma headingSep_text (t : str) (n : nat) :
  headingSep t n -> headingSepText (firstn n t).
Proof.
  intros [hashes [spaces [tail [-> [-> [Hh [Hne Hsp]]]]]]].
  exists hashes, spaces. split; [|now repeat split].
  cbn [Nat.add firstn]. f_equal.
  rewrite app_assoc, firstn_app, firstn_all2 by (rewrite length_app; lia).
  rewrite length_app, Nat.sub_diag, firstn_O. now rewrite app_nil_r.
Qed.

Lemma blankSep_text (t : str) (n : nat) :
  blankSep t n -> blankSepText (firstn n t).
Proof.
  intros [tail [-> [Hn _]]]. exists n. split; [|exact Hn].
  rewrite firstn_app, firstn_all2 by (rewrite repeat_length; lia).
  rewrite repeat_length, Nat.sub_diag, firstn_O. now rewrite app_nil_r.
Qed.

(** X6: splitting loses nothing but the separators: the pieces of a
    document, with a heading separator (newline, two or three [#], white
    space) between each two, give the document back; and the paragraphs of a
    chunk, with a run of two or more newlines between each two, give the
    chunk back.  There is always at least one piece. *)
Theorem split_round_trip :
  forall s : str,
    (exists seps,
       length (split re_heading s) = S (length seps)
       /\ weave (split re_heading s) seps = s
       /\ Forall headingSepText seps)
    /\ (exists seps,
          length (sectionParagraphs s) = S (length seps)
          /\ weave (sectionParagraphs s) seps = s
          /\ Forall blankSepText seps).
Proof.
  intro s. split.
  - apply (cutAt_weave headingSep headingSepText headingSep_text).
    apply heading_cut.
  - apply (cutAt_weave blankSep blankSepText blankSep_text).
    apply blank_cut.
Qed.

Lemma headingSepLen_extend (s b : str) (n : nat) :
  headingSepLen s = Some n -> exists n', headingSepLen (s ++ b) = Some n'.
Proof.
  unfold headingSepLen.
  destruct s as [|a0 [|b0 [|c0 t]]]; try discriminate. cbn [app].
  destruct (eqc nl a0 && eqc "#" b0 && eqc "#" c0); [|discriminate].
  destruct t as [|d t']; [discriminate|]. cbn [app].
  destruct (eqc "#" d).
  - destruct t' as [|e t'']; [discriminate|]. cbn [app].
    destruct (is_space e); [|discriminate]. intros _. now eexists.
  - destruct (is_space d); [|discriminate]. intros _. now eexists.
Qed.

Lemma skipn_nonempty_lt {A : Type} (k : nat) (l : list A) :
  skipn k l <> [] -> k < length l.
Proof.
  intro H. destruct (Nat.lt_ge_cases k (length l)) as [Hk|Hk]; [exact Hk|].
  now rewrite skipn_all2 in H.
Qed.

Lemma no_heading_in_piece (p b : str) :
  (forall k m, k < length p -> ~ headingSep (skipn k (p ++ b)) m) ->
  forall k n, ~ headingSep (skipn k p) n.
Proof.
  intros H k n Hs.
  assert (Hk : k < length p).
  { apply skipn_nonempty_lt. destruct Hs as [h [sp0 [tl [-> _]]]].
    discriminate. }
  apply headingSepLen_spec in Hs.
  destruct (headingSepLen_extend _ b _ Hs) as [n' Hn'].
  apply (H k n' Hk). apply headingSepLen_spec.
  rewrite skipn_app. replace (k - length p) with 0 by lia. exact Hn'.
Qed.

Lemma no_blank_in_piece (p b : str) :
  (forall k m, k < length p -> ~ blankSep (skipn k (p ++ b)) m) ->
  includes p [nl; nl] = false.
Proof.
  intro H. destruct (includes p [nl; nl]) eqn:E; [|reflexivity]. exfalso.
  apply includes_infix in E. destruct E as [a [c ->]].
  apply (H (length a) (2 + spanLen (eqc nl) (c ++ b))).
  - rewrite !length_app. cbn. lia.
  - apply blankSepLen_spec. rewrite <- !app_assoc, skipn_app_here.
    reflexivity.
Qed.

Lemma section_in_document (content section : str) :
  In section (documentSections content) ->
  infix section content /\ forall k n, ~ headingSep (skipn k section) n.
Proof.
  intro Hin. unfold documentSections in Hin. apply filter_In in Hin.
  destruct Hin as [Hin _].
  destruct (cutAt_piece headingSep _ _ (heading_cut content) section Hin)
    as [a [b [E Hno]]].
  split; [now exists a, b|]. now apply (no_heading_in_piece section b).
Qed.

Lemma paragraph_in_section (section paragraph : str) :
  In paragraph (sectionParagraphs section) ->
  infix paragraph section /\ includes paragraph [nl; nl] = false.
Proof.
  intro Hin.
  destruct (cutAt_piece blankSep _ _ (blank_cut section) paragraph Hin)
    as [a [b [E Hno]]].
  split; [now exists a, b|]. now apply (no_blank_in_piece paragraph b).
Qed.

(** X7: every chunk is a contiguous piece of its document in which no
    heading separator is left, and every paragraph is a contiguous piece of
    its chunk in which no two newlines follow each other: a scored paragraph
    never spans a blank line or a [##] heading that starts a line. *)
Theorem chunks_and_paragraphs :
  forall (content section paragraph : str),
    In section (documentSections content) ->
    In paragraph (sectionParagraphs section) ->
    infix section content
    /\ (forall k n, ~ headingSep (skipn k section) n)
    /\ infix paragraph section
    /\ includes paragraph [nl; nl] = false.
Proof.
  intros content section paragraph Hs Hp.
  destruct (section_in_document content section Hs) as [H1 H2].
  destruct (paragraph_in_section section paragraph Hp) as [H3 H4].
  now repeat split.
Qed.

(** A document with one heading and two paragraphs. *)
Lemma chunks_and_paragraphs_witness :
  includes (lit "We use PostgreSQL.") [nl; nl] = false
  /\ infix (lit "We use PostgreSQL.")
       (lit "Stack" ++ [nl; nl] ++ lit "We use PostgreSQL.").
Proof.
  destruct (chunks_and_paragraphs
              (lit "# Tech" ++ [nl] ++ lit "## Stack" ++ [nl; nl]
               ++ lit "We use PostgreSQL.")
              (lit "Stack" ++ [nl; nl] ++ lit "We use PostgreSQL.")
              (lit "We use PostgreSQL."))
    as [_ [_ [H3 H4]]].
  - vm_compute. right. left. reflexivity.
  - vm_compute. right. left. reflexivity.
  - split; [exact H4|exact H3].
Defined.

(** ** What a snippet shows *)

Lemma substring_infix (s : str) (a b : nat) : infix (substring s a b) s.
Proof.
  unfold substring. exists (firstn a s), (skipn (b - a) (skipn a s)).
  now rewrite firstn_skipn, firstn_skipn.
Qed.

Lemma trim_infix (s : str) : infix (trim s) s.
Proof. destruct (trim_split s) as [l [r [E _]]]. now exists l, r. Qed.

Lemma firstLine_infix (s : str) : infix (firstLine s) s.
Proof.
  unfold firstLine. exists [], (skipn (spanLen (fun c => negb (eqc c nl)) s) s).
  cbn [app]. now rewrite firstn_skipn.
Qed.

(** X8: a hit quotes its document: the name of the hit is the name of an
    entry of the corpus, and the snippet is made of an optional label, the
    trimmed first line of a chunk of that document between [**] and [**: ],
    an optional leading ellipsis, a contiguous piece of the body of that
    document, and an optional trailing ellipsis. *)
Theorem snippet_quotes_document :
  forall (query : str) (documents : list (str * str)) (h : SearchResult),
    In h (performAdvancedSearch query documents) ->
    exists content title core (before after : bool),
      In (documentType h, content) documents
      /\ infix title content
      /\ infix core content
      /\ snippet h
         = (if nonEmpty title then lit "**" ++ title ++ lit "**: " else [])
           ++ (if before then lit "..." else [])
           ++ core
           ++ (if after then lit "..." else []).
Proof.
  intros query documents h Hin.
  destruct (search_hit_origin query documents h Hin) as [x [Hx [_ ->]]].
  destruct (corpusParas_origin documents x Hx)
    as [name [content [section [Hd [Hs [Hp [Hn Ht]]]]]]].
  destruct (section_in_document content section Hs) as [Hsec _].
  destruct (paragraph_in_section section (paraText x) Hp) as [Hpar _].
  cbn [paraHit documentType snippet]. rewrite Hn, Ht.
  unfold extractRelevantSnippet.
  destruct (snippetWindow (paraText x) (queryTermsOf query)) as [a b].
  exists content, (sectionTitle section),
    (trim (substring (paraText x) a b)), (0 <? a),
    (b <? length (paraText x)).
  split; [exact Hd|]. split.
  { rewrite sectionTitle_spec.
    eapply infix_trans; [apply trim_infix|].
    eapply infix_trans; [apply firstLine_infix|exact Hsec]. }
  split.
  { eapply infix_trans; [apply trim_infix|].
    eapply infix_trans; [apply substring_infix|].
    eapply infix_trans; [exact Hpar|exact Hsec]. }
  destruct (nonEmpty (sectionTitle section)), (0 <? a),
    (b <? length (paraText x));
    cbn [app]; rewrite <- ?app_assoc, ?app_nil_r; reflexivity.
Qed.

(** The hit of the query "PostgreSQL" in a one-line document. *)
Lemma snippet_quotes_document_witness :
  exists content,
    In (lit "techContext", content)
      [(lit "techContext", lit "We use PostgreSQL for storage.")].
Proof.
  destruct (snippet_quotes_document (lit "PostgreSQL")
              [(lit "techContext", lit "We use PostgreSQL for storage.")]
              (mkSearchResult (lit "techContext") 1%Q
                 (lit "**We use PostgreSQL for storage.**: We use PostgreSQL for storage.")))
    as [content [_ [_ [_ [_ [H _]]]]]].
  - vm_compute. left. reflexivity.
  - exists content. exact H.
Defined.

(** ** The best offset *)

Lemma bestMatch_upto (lowerText : str) (queryTerms : list str) (n : nat) :
  let best := fold_left (scanStep lowerText queryTerms) (seq 0 n) (0, 0) in
  (forall i, i < n -> windowCount lowerText queryTerms i <= snd best)
  /\ (snd best = 0 -> fst best = 0)
  /\ (0 < snd best ->
      fst best < n
      /\ windowCount lowerText queryTerms (fst best) = snd best
      /\ forall j, j < fst best ->
                   windowCount lowerText queryTerms j < snd best).
Proof.
  induction n as [|n IH]; cbv zeta.
  - cbn. split; [intros i Hi; lia|]. split; [reflexivity|lia].
  - rewrite seq_S, fold_left_app. cbn [fold_left Nat.add].
    cbv zeta in IH.
    destruct (fold_left (scanStep lowerText queryTerms) (seq 0 n) (0, 0))
      as [bp bc].
    cbn [fst snd] in IH. destruct IH as [H1 [H2 H3]].
    unfold scanStep. cbn [snd]. fold (windowCount lowerText queryTerms n).
    destruct (bc <? windowCount lowerText queryTerms n) eqn:E;
      [apply Nat.ltb_lt in E | apply Nat.ltb_ge in E]; cbn [fst snd].
    + split; [|split].
      * intros i Hi. destruct (Nat.eq_dec i n) as [->|Hne]; [lia|].
        specialize (H1 i). lia.
      * lia.
      * intros _. split; [lia|]. split; [reflexivity|].
        intros j Hj. specialize (H1 j). lia.
    + split; [|split].
      * intros i Hi. destruct (Nat.eq_dec i n) as [->|Hne]; [lia|].
        apply H1. lia.
      * exact H2.
      * intro Hpos. destruct (H3 Hpos) as [Ha [Hb Hc]].
        split; [lia|]. now split.
Qed.

(** X9: the scan keeps the first offset of the largest count: no offset of
    the paragraph has more terms in its 100-character window than the best
    one, every earlier offset has fewer, and the best offset is 0 when no
    window holds a term. *)
Theorem best_offset_first_maximum :
  forall (text : str) (queryTerms : list str),
    let lowerText := toLowerCase text in
    let bestPosition := fst (bestMatch lowerText queryTerms) in
    let bestTermCount := snd (bestMatch lowerText queryTerms) in
    (forall i, i < length text ->
               windowCount lowerText queryTerms i <= bestTermCount)
    /\ (forall j, j < bestPosition ->
                  windowCount lowerText queryTerms j < bestTermCount)
    /\ (bestTermCount = 0 -> bestPosition = 0)
    /\ (0 < bestTermCount ->
        bestPosition < length text
        /\ windowCount lowerText queryTerms bestPosition = bestTermCount).
Proof.
  intros text queryTerms lowerText bestPosition bestTermCount.
  pose proof (bestMatch_upto lowerText queryTerms (length lowerText)) as H.
  cbv zeta in H. fold (bestMatch lowerText queryTerms) in H.
  fold bestPosition in H. fold bestTermCount in H.
  unfold lowerText in H at 1 3. rewrite toLowerCase_length in H.
  destruct H as [H1 [H2 H3]].
  split; [exact H1|]. split.
  - intros j Hj. destruct (Nat.eq_dec bestTermCount 0) as [Hz|Hnz].
    + rewrite (H2 Hz) in Hj. lia.
    + apply H3; lia.
  - split; [exact H2|]. intro Hpos. destruct (H3 Hpos) as [Ha [Hb _]].
    now split.
Qed.

Lemma countMatches_mono (a b : str) (terms : list str) :
  (forall t, includes a t = true -> includes b t = true) ->
  countMatches a terms <= countMatches b terms.
Proof.
  intro H. rewrite !countMatches_filter.
  induction terms as [|t terms IH]; cbn [filter]; [lia|].
  destruct (includes a t) eqn:Ea.
  - rewrite (H t Ea). cbn [length]. lia.
  - destruct (includes b t); cbn [length]; lia.
Qed.

Lemma windowCount_short (lowerText : str) (queryTerms : list str) (i : nat) :
  length lowerText <= 100 ->
  windowCount lowerText queryTerms i <= windowCount lowerText queryTerms 0.
Proof.
  intro Hlen. unfold windowCount. apply countMatches_mono. intros t Ht.
  apply includes_infix. apply includes_infix in Ht.
  eapply infix_trans; [exact Ht|].
  eapply infix_trans; [apply substring_infix|].
  unfold substring. cbn [skipn Nat.add]. rewrite Nat.sub_0_r.
  rewrite firstn_all2 by exact Hlen. exists [], []. now rewrite app_nil_r.
Qed.

Lemma bestMatch_short (text : str) (queryTerms : list str) :
  length text <= 100 -> fst (bestMatch (toLowerCase text) queryTerms) = 0.
Proof.
  intro Hlen.
  pose proof (bestMatch_upto (toLowerCase text) queryTerms
                (length (toLowerCase text))) as H.
  cbv zeta in H. fold (bestMatch (toLowerCase text) queryTerms) in H.
  destruct H as [_ [H2 H3]].
  destruct (Nat.eq_dec (snd (bestMatch (toLowerCase text) queryTerms)) 0)
    as [Hz|Hnz]; [now apply H2|].
  destruct H3 as [_ [Hb Hc]]; [lia|].
  destruct (Nat.eq_dec (fst (bestMatch (toLowerCase text) queryTerms)) 0)
    as [Hp|Hp]; [exact Hp|].
  specialize (Hc 0). 
  pose proof (windowCount_short (toLowerCase text) queryTerms
                (fst (bestMatch (toLowerCase text) queryTerms))) as Hm.
  rewrite toLowerCase_length in Hm. specialize (Hm Hlen). lia.
Qed.

Lemma adjustEnd_at_end (text : str) : adjustEnd text (length text) = length text.
Proof. unfold adjustEnd. now rewrite Nat.sub_diag. Qed.

(** X10: a paragraph of at most 100 characters, all of them below U+0100
    (the strings of this embedding, whose lower-case text has the length of
    the text), is shown whole: the snippet is the trimmed paragraph, without
    ellipsis, after the label when the title is not empty, whatever the
    terms are. *)
Theorem short_paragraph_shown_whole :
  forall (text : str) (queryTerms : list str) (title : str),
    length text <= 100 ->
    extractRelevantSnippet text queryTerms title
    = (if nonEmpty title then lit "**" ++ title ++ lit "**: " else [])
      ++ trim text.
Proof.
  intros text queryTerms title Hlen.
  unfold extractRelevantSnippet, snippetWindow, MAX_SNIPPET_LENGTH.
  rewrite (bestMatch_short text queryTerms Hlen).
  cbn [Nat.sub Nat.max Nat.add adjustStart].
  rewrite Nat.min_l by lia. rewrite adjustEnd_at_end.
  rewrite !Nat.ltb_irrefl.
  unfold substring. cbn [skipn]. rewrite Nat.sub_0_r, firstn_all.
  destruct (nonEmpty title); cbn [app]; rewrite <- ?app_assoc; reflexivity.
Qed.

(** A short paragraph with spaces around it. *)
Lemma short_paragraph_shown_whole_witness :
  extractRelevantSnippet (lit "  We use PostgreSQL. ") [lit "postgresql"]
    (lit "Stack")
  = lit "**Stack**: We use PostgreSQL.".
Proof.
  rewrite (short_paragraph_shown_whole (lit "  We use PostgreSQL. ")
             [lit "postgresql"] (lit "Stack")); [|vm_compute; lia].
  vm_compute. reflexivity.
Defined.

(** * Further properties of the file manager *)

(** ** The staleness flag and the clock *)

(** X11: in a time zone of constant offset the staleness flag is monotone
    in time: a document flagged at some instant is flagged at every later
    instant, and a document not flagged was not flagged before, whatever
    the engine makes of the date. *)
Theorem staleness_monotone :
  forall (Date_fallback : str -> Date) (LocalTZA : Z -> bool -> Z)
         (offset now later : Z) (content : str),
    (forall t isUTC, LocalTZA t isUTC = offset) ->
    (now <= later)%Z ->
    (checkNeedsUpdate Date_fallback LocalTZA now content = true ->
     checkNeedsUpdate Date_fallback LocalTZA later content = true)
    /\ (checkNeedsUpdate Date_fallback LocalTZA later content = false ->
        checkNeedsUpdate Date_fallback LocalTZA now content = false).
Proof.
  intros Date_fallback LocalTZA offset now later content Hoff Hle.
  assert (H : checkNeedsUpdate Date_fallback LocalTZA now content = true ->
              checkNeedsUpdate Date_fallback LocalTZA later content = true).
  { unfold checkNeedsUpdate. destruct (exec re_last_updated content) as [m|];
      [|reflexivity].
    cbn [Date_minusDays].
    destruct (Date_parse Date_fallback (group1 m)) as [t|];
      cbn [Date_lt]; [|discriminate].
    unfold UTC, LocalTime. rewrite !Hoff, !Z.ltb_lt. unfold msPerDay. lia. }
  split; [exact H|].
  intro Hl. apply Bool.not_true_is_false. intro Hn. apply H in Hn. congruence.
Qed.

(** A document dated 2023-12-01, on 2024-02-01 and a day later, on a host
    on UTC. *)
Lemma staleness_monotone_witness :
  checkNeedsUpdate Date_strict utcZone (exampleNow + msPerDay)
    (lit "Last Updated: 2023-12-01")
  = true.
Proof.
  apply (staleness_monotone Date_strict utcZone 0%Z exampleNow
           (exampleNow + msPerDay) (lit "Last Updated: 2023-12-01")).
  - intros t isUTC. reflexivity.
  - vm_compute. discriminate.
  - vm_compute. reflexivity.
Defined.

(** ** The names of the required sections *)

Section Clean.

Lemma trimStart_fixed (s : str) :
  (forall c t, s = c :: t -> is_space c = false) -> trimStart s = s.
Proof.
  destruct s as [|c t]; [reflexivity|]. intro H. cbn [trimStart].
  now rewrite (H c t eq_refl).
Qed.

Lemma trimStart_idem (s : str) : trimStart (trimStart s) = trimStart s.
Proof.
  apply trimStart_fixed. intros c t H. now apply trimStart_head in H.
Qed.

Lemma trimEnd_idem (s : str) : trimEnd (trimEnd s) = trimEnd s.
Proof.
  unfold trimEnd. now rewrite rev_involutive, trimStart_idem.
Qed.

Lemma trimEnd_keeps_head (s : str) (c : ascii) (t : str) :
  trimEnd s = c :: t -> exists t', s = c :: t'.
Proof.
  intro H. destruct (trimEnd_split s) as [r [E _]]. rewrite H in E.
  now exists (t ++ r).
Qed.

Lemma trim_idem (s : str) : trim (trim s) = trim s.
Proof.
  unfold trim at 1.
  rewrite (trimStart_fixed (trim s)).
  - unfold trim. apply trimEnd_idem.
  - intros c t H. unfold trim in H. apply trimEnd_keeps_head in H.
    destruct H as [t' H]. now apply trimStart_head in H.
Qed.

Lemma infix_Forall (P : ascii -> Prop) (p s : str) :
  infix p s -> Forall P s -> Forall P p.
Proof.
  intros [a [b ->]] H. apply Forall_app in H. destruct H as [_ H].
  apply Forall_app in H. now destruct H.
Qed.

Lemma replaceFirst_erase (P : ascii -> Prop) (r : regex) (s : str) :
  Forall P s -> Forall P (replaceFirst r (fun _ => []) s).
Proof.
  intro H. unfold replaceFirst. destruct (exec r s) as [m|]; [|exact H].
  cbn [app]. apply Forall_app. split.
  - rewrite <- (firstn_skipn (m_index m) s) in H.
    apply Forall_app in H. now destruct H.
  - rewrite <- (firstn_skipn (m_index m + length (m_text m)) s) in H.
    apply Forall_app in H. now destruct H.
Qed.

Lemma matchAt_newline (i : nat) (s : str) :
  matchAt (Lit [nl]) i s = option_map (found i s) (nlSepLen s).
Proof.
  unfold matchAt, nlSepLen, found. rewrite rmatch_Lit. cbn [rest].
  destruct (startsWith s [nl]); [|reflexivity].
  unfold advance. cbn [pos rest cap length option_map].
  do 3 f_equal. lia.
Qed.

Lemma nlSepLen_spec (s : str) (n : nat) : nlSepLen s = Some n <-> nlSep s n.
Proof.
  unfold nlSepLen, nlSep. destruct (startsWith s [nl]).
  - split; [intros [= <-]; now split|intros [-> _]; reflexivity].
  - split; [discriminate|intros [_ H]; discriminate].
Qed.

Lemma nlSepLen_bounds (s : str) (n : nat) :
  nlSepLen s = Some n -> 1 <= n <= length s.
Proof.
  unfold nlSepLen. destruct s as [|c t]; [discriminate|].
  destruct (startsWith (c :: t) [nl]); [|discriminate].
  intros [= <-]. cbn. lia.
Qed.

Lemma no_newline_in_piece (p b : str) :
  (forall k m, k < length p -> ~ nlSep (skipn k (p ++ b)) m) ->
  Forall (fun c => c <> nl) p.
Proof.
  intro H. induction p as [|c p IH]; [constructor|].
  constructor.
  - intros ->. apply (H 0 1); [cbn; lia|]. split; [reflexivity|].
    cbn. now destruct (p ++ b).
  - apply IH. intros k m Hk. apply (H (S k) m). cbn [length]. lia.
Qed.

Lemma splitLines_no_newline (s line : str) :
  In line (splitLines s) -> Forall (fun c => c <> nl) line.
Proof.
  intro Hin.
  pose proof (split_cut (Lit [nl]) nlSepLen nlSep matchAt_newline
                nlSepLen_spec nlSepLen_bounds s) as Hcut.
  destruct (cutAt_piece nlSep _ _ Hcut line Hin) as [a [b [_ Hno]]].
  now apply (no_newline_in_piece line b).
Qed.

(** Every workflow is the fallback or the parse of some text. *)
Lemma workflow_cases (P : Workflow -> Prop)
    (RegExp_i : str -> option (str -> option rmatch_result))
    (directory : Directory) (documentType : str) :
  P (fallbackWorkflow documentType) ->
  (forall sectionContent, P (parseWorkflow documentType sectionContent)) ->
  P (getDocumentWorkflow RegExp_i directory documentType).
Proof.
  intros Hfallback Hparse. unfold getDocumentWorkflow.
  destruct (byterules directory) as [rules|]; [|exact Hfallback].
  destruct (RegExp_i (sectionPattern documentType)) as [regex|];
    [|exact Hfallback].
  destruct (regex rules) as [m|]; [|exact Hfallback].
  apply Hparse.
Qed.

Lemma parsed_sections_clean (documentType sectionContent section : str) :
  In section (structure (parseWorkflow documentType sectionContent)) ->
  section <> []
  /\ trim section = section
  /\ Forall (fun c => c <> nl) section.
Proof.
  unfold parseWorkflow. cbn [structure].
  destruct (exec (re_block_field "**Structure**:") sectionContent) as [sm|].
  - intro Hin. apply filter_In in Hin. destruct Hin as [Hin Hlen].
    apply in_map_iff in Hin. destruct Hin as [line [<- Hline]].
    split; [|split].
    + intro E. rewrite E in Hlen. discriminate.
    + apply trim_idem.
    + eapply infix_Forall; [apply trim_infix|].
      apply replaceFirst_erase. now apply splitLines_no_newline in Hline.
  - intros [<-|[]]. split; [discriminate|]. split; [reflexivity|].
    repeat constructor; discriminate.
Qed.

End Clean.

(** X12: whatever the rules say, every name in the list of required
    sections of a workflow is a clean single line: it is not empty, it
    neither starts nor ends with white space ([trim] leaves it as it is) and
    it holds no newline. *)
Theorem required_sections_clean :
  forall (RegExp_i : str -> option (str -> option rmatch_result))
         (directory : Directory) (documentType section : str),
    In section (structure (getDocumentWorkflow RegExp_i directory documentType)) ->
    section <> []
    /\ trim section = section
    /\ Forall (fun c => c <> nl) section.
Proof.
  intros RegExp_i directory documentType section.
  apply (workflow_cases
           (fun w => In section (structure w) ->
                     section <> [] /\ trim section = section
                     /\ Forall (fun c => c <> nl) section)).
  - intros [<-|[]]. split; [discriminate|]. split; [reflexivity|].
    repeat constructor; discriminate.
  - intro sectionContent. apply parsed_sections_clean.
Qed.

(** The required sections of a rules text with a structure list. *)
Lemma required_sections_clean_witness :
  trim (lit "Tools") = lit "Tools".
Proof.
  apply (required_sections_clean RegExp_plain
           (mkDirectory
              (Some (lit "### 4. Tech Context (techContext.md)" ++ [nl]
                     ++ lit "**Structure**:" ++ [nl] ++ lit "- Stack" ++ [nl]
                     ++ lit " - Tools " ++ [nl])) None)
           (lit "techContext") (lit "Tools")).
  vm_compute. right. left. reflexivity.
Defined.

(** ** Rules without a structure list *)

Lemma execFrom_infix (r : regex) (s : str) :
  forall i m, execFrom r i s = Some m -> infix (m_text m) s.
Proof.
  induction s as [|c s IH]; intros i m; cbn [execFrom]; unfold matchAt.
  - destruct (rmatch r _ _) as [y|]; [|discriminate].
    intros [= <-]. cbn [m_text]. rewrite firstn_nil. now exists [], [].
  - destruct (rmatch r _ _) as [y|].
    + intros [= <-]. cbn [m_text].
      exists [], (skipn (pos y - i) (c :: s)). cbn [app].
      now rewrite firstn_skipn.
    + intro H. apply IH in H. destruct H as [a [b ->]].
      now exists (c :: a), b.
Qed.

Lemma exec_infix (r : regex) (s : str) (m : rmatch_result) :
  exec r s = Some m -> infix (m_text m) s.
Proof. apply execFrom_infix. Qed.

Lemma RegExp_plain_pieces : matchesArePieces RegExp_plain.
Proof.
  intros source regex s m Hre Hm. unfold RegExp_plain in Hre.
  destruct (stripPrefix _ source) as [source'|].
  - destruct (stripSuffix _ source') as [text|]; [|discriminate].
    destruct (plainText text); [|discriminate].
    injection Hre as <-. now apply exec_infix in Hm.
  - destruct (stripPrefix _ source) as [text|]; [|discriminate].
    destruct (plainText text); [|discriminate].
    injection Hre as <-. now apply exec_infix in Hm.
Qed.

Lemma includes_false_infix (a b p : str) :
  infix a b -> includes b p = false -> includes a p = false.
Proof.
  intros Hab Hb. apply Bool.not_true_is_false. intro Ha.
  apply includes_infix in Ha.
  assert (Hp : includes b p = true)
    by (apply includes_infix; eapply infix_trans; eassumption).
  congruence.
Qed.

(** X13: when the rules text has no [**Structure**:] label anywhere, the
    one required section of every document type is the placeholder "No
    specific structure defined", and the analysis reports every standard
    document as missing that section unless the pattern built from the
    placeholder finds something in its body. *)
Theorem rules_without_structure :
  forall (RegExp_i : str -> option (str -> option rmatch_result))
         (directory : Directory),
    matchesArePieces RegExp_i ->
    (forall rules, byterules directory = Some rules ->
                   includes rules (lit "**Structure**:") = false) ->
    (forall documentType,
       structure (getDocumentWorkflow RegExp_i directory documentType)
       = [lit "No specific structure defined"])
    /\ forall (Date_fallback : str -> Date) (LocalTZA : Z -> bool -> Z)
              (now : Z) (entries : list Analysis),
         analyzeDocumentConsistency RegExp_i Date_fallback LocalTZA
           directory now = Ok entries ->
         exists documents,
           markdown directory = Some documents
           /\ Forall2
                (fun entry e =>
                   sectionAbsent RegExp_i (snd entry)
                     (lit "No specific structure defined") = true ->
                   e = mkAnalysis (fst entry) needs_update
                         (lit "Missing sections: No specific structure defined"))
                (filter isStandard documents) entries.
Proof.
  intros RegExp_i directory Hpieces Hrules.
  assert (Hs : forall documentType,
             structure (getDocumentWorkflow RegExp_i directory documentType)
             = [lit "No specific structure defined"]).
  { intro documentType. unfold getDocumentWorkflow.
    destruct (byterules directory) as [rules|] eqn:Er; [|reflexivity].
    destruct (RegExp_i (sectionPattern documentType)) as [regex|] eqn:Ere;
      [|reflexivity].
    destruct (regex rules) as [m|] eqn:Em; [|reflexivity].
    unfold parseWorkflow, re_block_field. cbn [structure].
    rewrite exec_label_absent; [reflexivity|].
    apply (includes_false_infix (m_text m) rules).
    - exact (Hpieces (sectionPattern documentType) regex rules m Ere Em).
    - now apply Hrules. }
  split; [exact Hs|].
  intros Date_fallback LocalTZA now entries H.
  unfold analyzeDocumentConsistency in H.
  destruct (markdown directory) as [documents|]; [|discriminate].
  exists documents. split; [reflexivity|].
  apply analyze_from in H. cbn [app] in H. subst entries.
  apply Forall2_map_right. intros entry Habs.
  unfold entryOf. rewrite Hs. cbn [filter]. rewrite Habs.
  reflexivity.
Qed.

(** The rules of the examples, which have no such label, and the example
    directory. *)
Lemma rules_without_structure_witness :
  structure (getDocumentWorkflow RegExp_plain exampleDirectory (lit "progress"))
  = [lit "No specific structure defined"].
Proof.
  apply (rules_without_structure RegExp_plain exampleDirectory).
  - exact RegExp_plain_pieces.
  - intros rules H. cbn in H. injection H as <-. vm_compute. reflexivity.
Defined.

(** ** Templates *)

Section TemplateShape.

Lemma nlHash_app (a b : str) :
  forall prev, nlHash prev (a ++ b) = nlHash prev a || nlHash (lastNl prev a) b.
Proof.
  induction a as [|c a IH]; intro prev; cbn [app nlHash lastNl];
    [reflexivity|].
  rewrite IH. now rewrite orb_assoc.
Qed.

Lemma lastNl_app (a b : str) :
  forall prev, lastNl prev (a ++ b) = lastNl (lastNl prev a) b.
Proof. induction a as [|c a IH]; intro prev; cbn; [reflexivity|apply IH]. Qed.

Lemma noNewline_eqc (c : ascii) : c <> nl -> eqc c nl = false.
Proof.
  intro H. destruct (eqc c nl) eqn:E; [|reflexivity].
  apply eqc_eq in E. contradiction.
Qed.

Lemma nlHash_line (s : str) : noNewline s -> nlHash false s = false.
Proof.
  induction 1 as [|c s Hc Hs IH]; cbn [nlHash andb orb]; [reflexivity|].
  now rewrite (noNewline_eqc _ Hc).
Qed.

Lemma lastNl_line (s : str) : noNewline s -> lastNl false s = false.
Proof.
  induction 1 as [|c s Hc Hs IH]; cbn [lastNl]; [reflexivity|].
  now rewrite (noNewline_eqc _ Hc).
Qed.

(** A heading separator starts with a newline and a [#]. *)
Lemma headingSep_head (s : str) (n : nat) :
  headingSep s n -> exists r, s = nl :: "#"%char :: r.
Proof.
  intros [hashes [spaces [tail [-> [_ [[-> | ->] _]]]]]]; eexists; reflexivity.
Qed.

Lemma nlHash_none (w : str) :
  forall prev k r,
    nlHash prev w = false -> skipn k w <> nl :: "#"%char :: r.
Proof.
  induction w as [|c w IH]; intros prev k r H.
  - now destruct k.
  - cbn [nlHash] in H. apply orb_false_elim in H. destruct H as [_ H].
    destruct k as [|k]; [|cbn [skipn]; now apply (IH (eqc c nl))].
    cbn [skipn]. intro E. inversion E; subst c w.
    cbn in H. discriminate.
Qed.

Lemma nlHash_inside (p t : str) :
  forall prev k r,
    nlHash prev (p ++ [nl]) = false -> k < length p ->
    skipn k (p ++ nl :: t) <> nl :: "#"%char :: r.
Proof.
  induction p as [|c p IH]; intros prev k r H Hk; [cbn in Hk; lia|].
  cbn [app nlHash] in H. apply orb_false_elim in H. destruct H as [_ H].
  destruct k as [|k].
  - cbn [skipn app]. intro E. inversion E as [[Ec Ep]]. subst c.
    destruct p as [|d p]; [discriminate|].
    cbn [app] in Ep. inversion Ep; subst d.
    cbn in H. discriminate.
  - cbn [skipn app]. apply (IH (eqc c nl)); [exact H|cbn in Hk; lia].
Qed.

End TemplateShape.

Ltac scan_text :=
  repeat (cbn;
          rewrite ?nlHash_app, ?lastNl_app, ?nlHash_line, ?lastNl_line
            by assumption);
  try reflexivity.

Section TemplateCut.

Variable footer : str.
Hypothesis footer_plain : nlHash true footer = false.

Lemma cleanName_head (section : str) :
  cleanName section ->
  exists c t, section = c :: t /\ is_space c = false.
Proof.
  intros [Hne [Htrim _]]. destruct section as [|c t]; [contradiction|].
  exists c, t. split; [reflexivity|].
  destruct (trim_split (c :: t)) as [l [r [_ [_ [_ [_ H]]]]]].
  now apply (H c t).
Qed.

Lemma sectionBlock_plain (section : str) :
  cleanName section -> nlHash false (sectionBlock section) = false.
Proof.
  intros [_ [_ Hline]]. unfold sectionBlock. scan_text.
Qed.

Lemma template_cut (sections : list str) :
  Forall cleanName sections ->
  forall first,
    nlHash false first = false ->
    cutAt headingSep (first ++ [nl] ++ templateTail footer sections)
      (templateChunks footer first sections).
Proof.
  induction 1 as [|section sections Hs Hrest IH]; intros first Hfirst.
  - cbn [templateTail templateChunks]. apply cut_last.
    intros k n Hsep. apply headingSep_head in Hsep. destruct Hsep as [r Hr].
    revert Hr. apply (nlHash_none _ false).
    rewrite nlHash_app, Hfirst. cbn [orb app nlHash].
    now rewrite andb_false_r.
  - cbn [templateTail templateChunks].
    destruct (cleanName_head _ Hs) as [c [t [Ec Hc]]].
    apply (@cut_more headingSep first
             ([nl] ++ lit "## " ++ sectionBlock section ++ [nl]
              ++ templateTail footer sections) 4).
    + intros k m Hk Hsep. apply headingSep_head in Hsep.
      destruct Hsep as [r Hr]. revert Hr.
      apply (nlHash_inside first _ false); [|exact Hk].
      rewrite nlHash_app, Hfirst. cbn [orb nlHash].
      now rewrite andb_false_r.
    + exists (lit "##"), [sp],
        (sectionBlock section ++ [nl] ++ templateTail footer sections).
      split; [reflexivity|]. split; [reflexivity|]. split; [now left|].
      split; [discriminate|]. split; [now repeat constructor|].
      intros c' t' E. unfold sectionBlock in E. rewrite Ec in E.
      cbn [app] in E. inversion E. now subst c'.
    + cbn [skipn app lit list_ascii_of_string]. apply IH.
      now apply sectionBlock_plain.
Qed.

Lemma firstLine_line (line tail : str) :
  noNewline line -> firstLine (line ++ nl :: tail) = line.
Proof.
  intro H. unfold firstLine.
  rewrite (spanLen_unique (fun c => negb (eqc c nl)) line (nl :: tail)).
  - now rewrite firstn_app, firstn_all, Nat.sub_diag, app_nil_r.
  - eapply Forall_impl; [|exact H]. cbv beta. intros c Hc.
    now rewrite (noNewline_eqc _ Hc).
  - intros c t [= <- _]. reflexivity.
Qed.

Lemma block_title (section tail : str) :
  cleanName section -> sectionTitle (sectionBlock section ++ tail) = section.
Proof.
  intros [_ [Htrim Hline]]. rewrite sectionTitle_spec.
  unfold sectionBlock. cbn [app]. rewrite <- app_assoc. cbn [app].
  now rewrite firstLine_line.
Qed.

Lemma chunk_titles (sections : list str) :
  Forall cleanName sections ->
  forall section,
    cleanName section ->
    map sectionTitle (templateChunks footer (sectionBlock section) sections)
    = section :: sections.
Proof.
  induction 1 as [|s sections Hs Hrest IH]; intros section Hsection;
    cbn [templateChunks map].
  - now rewrite block_title.
  - rewrite IH by assumption.
    rewrite <- (app_nil_r (sectionBlock section)).
    now rewrite block_title.
Qed.

Lemma chunks_nonempty (sections : list str) :
  forall first,
    first <> [] -> forallb nonEmpty (templateChunks footer first sections) = true.
Proof.
  induction sections as [|s sections IH]; intros first Hfirst;
    cbn [templateChunks forallb].
  - destruct first; [contradiction|reflexivity].
  - rewrite IH; [|unfold sectionBlock; now destruct s].
    destruct first; [contradiction|reflexivity].
Qed.

End TemplateCut.

Section LineFields.

Lemma dot_not_newline (g : str) :
  Forall (fun a => negb (eqc a nl) && negb (code a =? 13) = true) g ->
  noNewline g.
Proof.
  intro H. eapply Forall_impl; [|exact H]. cbv beta. intros a Ha ->.
  discriminate.
Qed.

(** The group of a line field holds no newline. *)
Lemma matchAt_line_field (label : string) (i : nat) (s : str)
    (m : rmatch_result) :
  matchAt (re_line_field label) i s = Some m ->
  exists g, m_group m = Some g /\ noNewline g.
Proof.
  unfold matchAt, re_line_field.
  cbn [rmatch]. rewrite rmatch_Lit. cbn [rest].
  destruct (startsWith s (lit label)); [|discriminate].
  unfold advance. cbn [pos rest cap].
  rewrite (starLoop_greedy is_space)
    by (try (intros ? ?; reflexivity); cbn [rest]; lia).
  destruct (firstSome _ _) as [z|] eqn:Ez; [|discriminate].
  intros [= <-]. cbn [m_group].
  apply firstSome_some in Ez. destruct Ez as [y [Hy Ez]].
  apply greedyStates_form in Hy. destruct Hy as [j [t ->]].
  cbn [rest pos cap] in Ez.
  rewrite (starLoop_lazy (fun c => negb (eqc c nl) && negb (code c =? 13)))
    in Ez by (try (intros ? ?; reflexivity); cbn [rest]; lia).
  apply firstSome_some in Ez. destruct Ez as [y2 [Hy2 Ez]].
  apply lazyStates_shape in Hy2. destruct Hy2 as [n [Hn Hrun]].
  cbn [rest pos cap] in Ez. revert Ez.
  destruct (rest y2) as [|a r]; [discriminate|].
  unfold chr. cbn [rmatch rest pos cap].
  destruct (eqc nl a); [|discriminate].
  intros [= <-]. cbn [cap].
  exists (firstn (pos y2 - j) t). split; [reflexivity|].
  apply dot_not_newline. replace (pos y2 - j) with n by lia. exact Hrun.
Qed.

Lemma execFrom_line_field (label : string) (s : str) :
  forall (i : nat) (m : rmatch_result),
    execFrom (re_line_field label) i s = Some m ->
    exists g, m_group m = Some g /\ noNewline g.
Proof.
  induction s as [|c s IH]; intros i m; cbn [execFrom];
    destruct (matchAt (re_line_field label) i _) as [m'|] eqn:E;
    try discriminate.
  - intros [= <-]. now apply matchAt_line_field in E.
  - intros [= <-]. now apply matchAt_line_field in E.
  - apply IH.
Qed.

Lemma line_field_clean (label : string) (s fallback : str) :
  noNewline fallback ->
  noNewline match exec (re_line_field label) s with
            | Some m => trim (group1 m)
            | None => fallback
            end.
Proof.
  intro Hf. unfold exec.
  destruct (execFrom (re_line_field label) 0 s) as [m|] eqn:E; [|exact Hf].
  apply execFrom_line_field in E. destruct E as [g [Eg Hg]].
  unfold group1. rewrite Eg.
  eapply infix_Forall; [apply trim_infix|exact Hg].
Qed.

Lemma noNewline_lit_app (l : string) (s : str) :
  forallb (fun c => negb (eqc c nl)) (lit l) = true ->
  noNewline s -> noNewline (lit l ++ s).
Proof.
  intros Hl Hs. apply Forall_app. split; [|exact Hs].
  rewrite forallb_forall in Hl. apply Forall_forall. intros c Hc ->.
  now apply Hl in Hc.
Qed.

(** The purpose and the timing of a workflow are single lines when the
    document type is. *)
Lemma workflow_lines_clean
    (RegExp_i : str -> option (str -> option rmatch_result))
    (directory : Directory) (documentType : str) :
  noNewline documentType ->
  noNewline (purpose (getDocumentWorkflow RegExp_i directory documentType))
  /\ noNewline
       (updateTiming (getDocumentWorkflow RegExp_i directory documentType)).
Proof.
  intro Hd.
  apply (workflow_cases
           (fun w => noNewline (purpose w) /\ noNewline (updateTiming w))).
  - cbn [fallbackWorkflow purpose updateTiming]. split.
    + apply noNewline_lit_app; [reflexivity|].
      apply Forall_app. split; [exact Hd|].
      repeat constructor; discriminate.
    + repeat constructor; discriminate.
  - intro sectionContent. unfold parseWorkflow.
    cbn [purpose updateTiming]. split.
    + apply line_field_clean. now apply noNewline_lit_app.
    + apply line_field_clean. repeat constructor; discriminate.
Qed.

Lemma lower_char_newline (c : ascii) : c <> nl -> lower_char c <> nl.
Proof.
  destruct c as [[] [] [] [] [] [] [] []]; intros H E;
    try discriminate E; now apply H.
Qed.

Lemma toLowerCase_line (s : str) : noNewline s -> noNewline (toLowerCase s).
Proof.
  intro H. unfold toLowerCase. apply Forall_map.
  eapply Forall_impl; [|exact H]. apply lower_char_newline.
Qed.

Lemma spacedTitle_line (documentType : str) :
  noNewline documentType -> noNewline (spacedTitle documentType).
Proof.
  intro H. unfold spacedTitle.
  eapply infix_Forall; [apply trim_infix|].
  apply Forall_flat_map. eapply Forall_impl; [|exact H]. cbv beta.
  intros c Hc. destruct (is_AZ c); repeat constructor;
    try discriminate; exact Hc.
Qed.

Lemma fold_addSection (footer : str) (sections : list str) :
  forall template,
    fold_left addSection sections template ++ footer
    = template ++ templateTail footer sections.
Proof.
  induction sections as [|section sections IH]; intro template;
    cbn [fold_left templateTail]; [reflexivity|].
  rewrite IH. unfold addSection, sectionBlock.
  rewrite <- !app_assoc. reflexivity.
Qed.

End LineFields.

Lemma template_text (workflow : Workflow) (today documentType : str) :
  buildTemplate workflow today documentType
  = templateHeader workflow today documentType ++ [nl]
    ++ templateTail (templateFooter workflow) (structure workflow).
Proof.
  unfold buildTemplate.
  change (fold_left addSection (structure workflow)
            (((lit "# " ++ spacedTitle documentType ++ [nl; nl])
              ++ lit "> " ++ purpose workflow ++ [nl; nl])
             ++ lit "> Last Updated: " ++ today ++ [nl; nl])
          ++ templateFooter workflow
          = templateHeader workflow today documentType ++ [nl]
            ++ templateTail (templateFooter workflow) (structure workflow)).
  rewrite fold_addSection. unfold templateHeader.
  rewrite <- !app_assoc. reflexivity.
Qed.

Lemma template_chunks (workflow : Workflow) (today documentType : str) :
  noNewline today -> noNewline (spacedTitle documentType) ->
  noNewline (purpose workflow) -> noNewline (updateTiming workflow) ->
  Forall cleanName (structure workflow) ->
  documentSections (buildTemplate workflow today documentType)
  = templateChunks (templateFooter workflow)
      (templateHeader workflow today documentType) (structure workflow).
Proof.
  intros Htoday Htitle Hpurpose Htiming Hnames.
  apply toLowerCase_line in Htiming.
  unfold documentSections. rewrite template_text.
  assert (Hfooter : nlHash true (templateFooter workflow) = false).
  { unfold templateFooter.
    generalize dependent (toLowerCase (updateTiming workflow)).
    intros timing Htiming. scan_text. }
  assert (Hheader :
            nlHash false (templateHeader workflow today documentType) = false).
  { unfold templateHeader.
    generalize dependent (spacedTitle documentType).
    generalize dependent (purpose workflow).
    intros text Htext title Htitle. scan_text. }
  rewrite (cutAt_unique headingSep headingSep_fun _ _ _
             (heading_cut _)
             (template_cut _ Hfooter _ Hnames _ Hheader)).
  apply forallb_filter_id. apply chunks_nonempty.
  unfold templateHeader. discriminate.
Qed.

(** X14: the search splitter reads a fresh template back.  For a document
    type and a date without newline, the template built from any rules is
    cut into a preamble, whose title is the heading line of the template,
    and one chunk per required section, in order, each with the name of its
    section as title. *)
Theorem template_sections_recovered :
  forall (RegExp_i : str -> option (str -> option rmatch_result))
         (directory : Directory) (today documentType : str),
    noNewline today -> noNewline documentType ->
    let template :=
      createDocumentTemplate RegExp_i directory today documentType in
    let workflow := getDocumentWorkflow RegExp_i directory documentType in
    sectionTitle (hd [] (documentSections template))
    = trim (lit "# " ++ spacedTitle documentType)
    /\ map sectionTitle (tl (documentSections template)) = structure workflow.
Proof.
  intros RegExp_i directory today documentType Htoday Htype template workflow.
  destruct (workflow_lines_clean RegExp_i directory documentType Htype)
    as [Hpurpose Htiming].
  assert (Hnames : Forall cleanName (structure workflow)).
  { apply Forall_forall. intros section Hin. revert Hin.
    apply (workflow_cases
             (fun w => In section (structure w) -> cleanName section)).
    - intros [<-|[]]. split; [discriminate|]. split; [reflexivity|].
      repeat constructor; discriminate.
    - intro sectionContent. apply parsed_sections_clean. }
  pose proof (spacedTitle_line documentType Htype) as Htitle.
  unfold template, createDocumentTemplate. fold workflow.
  rewrite (template_chunks workflow today documentType)
    by assumption.
  assert (Hfirst : forall tail,
             sectionTitle (templateHeader workflow today documentType ++ tail)
             = trim (lit "# " ++ spacedTitle documentType)).
  { intro tail. rewrite sectionTitle_spec. unfold templateHeader.
    replace ((lit "# " ++ spacedTitle documentType ++ [nl; nl]
              ++ lit "> " ++ purpose workflow ++ [nl; nl]
              ++ lit "> Last Updated: " ++ today ++ [nl]) ++ tail)
      with ((lit "# " ++ spacedTitle documentType)
            ++ nl :: ([nl] ++ lit "> " ++ purpose workflow ++ [nl; nl]
                      ++ lit "> Last Updated: " ++ today ++ [nl] ++ tail))
      by (rewrite <- !app_assoc; reflexivity).
    rewrite firstLine_line; [reflexivity|].
    apply Forall_app. split; [repeat constructor; discriminate|exact Htitle]. }
  destruct Hnames as [|section sections Hs Hrest];
    cbn [templateChunks hd tl map].
  - split; [apply Hfirst|reflexivity].
  - split.
    + rewrite <- (app_nil_r (templateHeader workflow today documentType)).
      apply Hfirst.
    + now apply chunk_titles.
Qed.

(** The template of the technical context under rules that list two
    sections. *)
Lemma template_sections_recovered_witness :
  map sectionTitle
    (tl (documentSections
           (createDocumentTemplate RegExp_plain
              (mkDirectory (Some techRules) None)
              (lit "2024-02-01") (lit "techContext"))))
  = [lit "Stack"; lit "Tools"].
Proof.
  apply (template_sections_recovered RegExp_plain
           (mkDirectory (Some techRules) None)
           (lit "2024-02-01") (lit "techContext"));
    repeat constructor; discriminate.
Defined.
